(** * libtrie++: a path-compressed nibble trie (container::trie, libtriexx/trie.hxx)

    A shallow embedding of the newer trie variant.  The C++ object graph is
    modelled as a store of nodes addressed by pointers, with the parent
    back-references, the sixteen owning branch slots and the packed branch
    attributes of [struct node].

    Modelling conventions.
    - [size_t] quantities (key lengths, quad-bit lengths, branch indices) are
      natural numbers.  Shifts and additions are taken without wrap-around (a
      key of 2^63 bytes cannot be addressed); a subtraction that would wrap
      in C++ is reported as [Fault] rather than continued with.
    - [br_attrs] is the 32-bit word of the source, with its masks and shifts.
    - A key pointer is modelled by the byte string it points at ([None] is
      the null pointer); the key length functor is the length of that string.
      A read past the end of a key, a null dereference and an out-of-range
      branch index are [Fault].
    - Loops whose bound is not syntactic take a [fuel] argument and answer
      [NoFuel] when it runs out.

    The model comes first.  The properties follow: the bit fields of
    [br_attrs], the invariant [wf] of the node store, the walk of [trace],
    what [insert], [insert_at], [erase], [find] and the iterators do to a
    well-formed trie, and the properties of the specification (C1 to C10) for
    the tries built by sequences of these operations.  Further properties of
    the operations, of the serialisation and of the driver of the unit test
    [paths] close the file. *)

From Stdlib Require Import Strings.Byte NArith Lia.
From stdpp Require Import base option list gmap sorting.


(** ** Results of operations *)

Inductive error : Type :=
  | AlreadyPresent   (* std::logic_error: insert to already occupied position *)
  | EndIterator.     (* std::logic_error: attempted erase at end iterator *)

(** Result of a [const] member function. *)
Inductive res (A : Type) : Type :=
  | Ok (a : A)
  | Fault
  | NoFuel.
Arguments Ok {A} a.
Arguments Fault {A}.
Arguments NoFuel {A}.

#[global] Instance res_bind : MBind res := λ A B f m,
  match m with
  | Ok a => f a
  | Fault => Fault
  | NoFuel => NoFuel
  end.

Definition of_option {A} (o : option A) : res A :=
  match o with Some a => Ok a | None => Fault end.

(** ** Bytes and half-bytes *)

Definition ub (b : byte) : N := Byte.to_N b.

(** [byte >> 4] *)
Definition hi (b : byte) : nat := N.to_nat (N.shiftr (ub b) 4).
(** [byte & 0x0f] *)
Definition lo (b : byte) : nat := N.to_nat (N.land (ub b) 15).
(** [a ^ b] on two bytes *)
Definition bxor (a b : byte) : N := N.lxor (ub a) (ub b).

(** [key[i]] *)
Definition key_at (key : option (list byte)) (i : nat) : res byte :=
  match key with
  | None => Fault
  | Some k => of_option (k !! i)
  end.

(** [get_qpos(key, qpos)] *)
Definition get_qpos (key : option (list byte)) (qpos : nat) : res nat :=
  byte ← key_at key (qpos / 2);
  Ok (if qpos mod 2 =? 0 then hi byte else lo byte).

(** ** Nodes *)

Definition ptr := positive.
Definition handle := positive.

Record node : Type := mk_node {
  item : option handle;          (* items_t::iterator, None is m_items.end() *)
  key : option (list byte);      (* const unsigned char * *)
  qlen : nat;                    (* key path quad-bit length *)
  parent : option ptr;           (* node * *)
  branches : list (option ptr);  (* std::unique_ptr<node> branches[1 << 4] *)
  br_attrs : N                   (* uint32_t *)
}.

Definition mask32 : N := 4294967295.

(** [br_attrs_init(_br_own, _br_1st, _br_last)] *)
Definition br_attrs_init (br_own br_1st br_last : nat) : N :=
  N.lor (N.lor (N.shiftl (N.of_nat br_own) 8) (N.shiftl (N.of_nat br_last) 4))
        (N.of_nat br_1st).

(** The constructor; a leaf by default ([_br_1st = 1], [_br_last = 0]). *)
Definition new_node (it : option handle) (k : option (list byte)) (q : nat)
    (par : option ptr) (br_own br_1st br_last : nat) : node :=
  mk_node it k q par (replicate 16 None) (br_attrs_init br_own br_1st br_last).

Definition br_1st (n : node) : nat := N.to_nat (N.land 15 (br_attrs n)).
Definition br_last (n : node) : nat := N.to_nat (N.land 15 (N.shiftr (br_attrs n) 4)).
Definition br_own (n : node) : nat := N.to_nat (N.land 15 (N.shiftr (br_attrs n) 8)).

Definition with_attrs (n : node) (a : N) : node :=
  mk_node (item n) (key n) (qlen n) (parent n) (branches n) a.

(** [~(br_attrs_t)m] on 32 bits *)
Definition not32 (m : N) : N := N.lxor mask32 m.

Definition set_br_1st (ix : nat) (n : node) : node :=
  with_attrs n (N.lor (N.land (br_attrs n) (not32 15)) (N.of_nat ix)).

Definition set_br_last (ix : nat) (n : node) : node :=
  with_attrs n (N.lor (N.land (br_attrs n) (not32 240)) (N.shiftl (N.of_nat ix) 4)).

Definition br_set (ix_1st ix_last : nat) (n : node) : node :=
  with_attrs n (N.lor (N.land (br_attrs n) (not32 255))
                      (N.lor (N.shiftl (N.of_nat ix_last) 4) (N.of_nat ix_1st))).

Definition set_br_own (ix : nat) (n : node) : node :=
  with_attrs n (N.lor (N.land (br_attrs n) (not32 3840)) (N.shiftl (N.of_nat ix) 8)).

Definition is_leaf (n : node) : bool := br_last n <? br_1st n.
Definition has_only_son (n : node) : bool := br_1st n =? br_last n.

(** [branches[ix].get()]; an index outside the array reads as null. *)
Definition branch (n : node) (ix : nat) : option ptr :=
  default None (branches n !! ix).

Definition set_branch (ix : nat) (v : option ptr) (n : node) : node :=
  mk_node (item n) (key n) (qlen n) (parent n) (<[ix := v]> (branches n)) (br_attrs n).

Definition set_parent (p : option ptr) (n : node) : node :=
  mk_node (item n) (key n) (qlen n) p (branches n) (br_attrs n).

Definition set_key (k : option (list byte)) (n : node) : node :=
  mk_node (item n) k (qlen n) (parent n) (branches n) (br_attrs n).

Definition set_item (it : option handle) (n : node) : node :=
  mk_node it (key n) (qlen n) (parent n) (branches n) (br_attrs n).

(** ** The trie *)

Section Trie.

Context {T : Type}.
(** [KeyFn] and [KeyLenFn]: the key bytes of an item. *)
Variable key_fn : T -> list byte.

Record trie : Type := mk_trie {
  m_items : gmap handle T;   (* std::list<T>, addressed by its iterators *)
  next_item : handle;
  nodes : gmap ptr node;     (* m_root and every node owned below it *)
  next_node : ptr
}.

(** [&m_root] *)
Definition m_root : ptr := 1%positive.

(** [trie()] *)
Definition empty_trie : trie :=
  mk_trie ∅ 1%positive {[ m_root := new_node None None 0 None 0 1 0 ]} 2%positive.

Definition deref (t : trie) (p : ptr) : res node := of_option (nodes t !! p).

Definition deref_opt (t : trie) (p : option ptr) : res node :=
  match p with
  | None => Fault
  | Some p => deref t p
  end.

Definition store (p : ptr) (n : node) (t : trie) : trie :=
  mk_trie (m_items t) (next_item t) (<[p := n]> (nodes t)) (next_node t).

(** [new node(...)] *)
Definition alloc (n : node) (t : trie) : ptr * trie :=
  (next_node t,
   mk_trie (m_items t) (next_item t) (<[next_node t := n]> (nodes t))
           (Pos.succ (next_node t))).

(** [delete] of a single node object (its children are handled by [destroy]) *)
Definition free (p : ptr) (t : trie) : trie :=
  mk_trie (m_items t) (next_item t) (delete p (nodes t)) (next_node t).

(** An assignment through a node pointer: [p->field = ...] *)
Definition update (p : ptr) (f : node -> node) (t : trie) : res trie :=
  n ← deref t p; Ok (store p (f n) t).

(** ** Positions *)

(** [position_t]: node pointer, matching quad-bit length, end-of-path flag *)
Definition position_t : Type := option ptr * nat * bool.
Definition pos_node (pos : position_t) : option ptr := pos.1.1.
Definition pos_qlen (pos : position_t) : nat := pos.1.2.
Definition pos_match (pos : position_t) : bool := pos.2.

(** ** Key tracing *)

Inductive key_tracing : Type :=
  | TRIE_KEY_TRACING_STRICT
  | TRIE_KEY_TRACING_SLOBBY.

Definition is_slobby (m : key_tracing) : bool :=
  match m with TRIE_KEY_TRACING_SLOBBY => true | TRIE_KEY_TRACING_STRICT => false end.

Variable KeyTracing : key_tracing.

(** How the walk of [trace] ends: with a position returned directly, or with
    the tail call [return (this->*miss)(key, len, nod, qlen)]. *)
Inductive trace_exit : Type :=
  | Hit (pos : position_t)
  | Miss (nod : option ptr) (q : nat).

(** How the branching loop ends: by leaving [trace], or with the new [nod],
    [qlen] and [forward_branch]. *)
Inductive while_exit : Type :=
  | Leave (e : trace_exit)
  | Go (nod : ptr) (q : nat) (forward_branch : bool).

(** The branching loop [while (!(qlen & ~(size_t)0x1))] for byte [i]; the
    test holds exactly when [qlen] is 0 or 1. *)
Fixpoint trace_while (fuel : nat) (t : trie) (len : nat) (slob : bool)
    (i : nat) (byte : byte) (nod : ptr) (q : nat) (forward_branch : bool)
    : res while_exit :=
  if 2 <=? q then Ok (Go nod q forward_branch)
  else
    match fuel with
    | 0 => NoFuel
    | S fuel' =>
        prev ← deref t nod;
        match branch prev (if q =? 0 then hi byte else lo byte) with
        | None =>
            (* no such branch *)
            hi_differs ←
              (if q =? 0 return res bool then Ok false
               else kb ← key_at (key prev) i;
                    Ok (negb (N.shiftr (bxor kb byte) 4 =? 0)%N));
            if hi_differs : bool then Ok (Leave (Miss (parent prev) (2 * i)))
            else Ok (Leave (Miss (Some nod) (2 * i + q)))
        | Some c =>
            cn ← deref t c;
            if is_slobby KeyTracing && slob && is_leaf cn
            then Ok (Leave (Hit (Some c, 2 * len, true)))
            else if qlen cn <? 2 * i then Fault
            else trace_while fuel' t len slob i byte c (qlen cn - 2 * i) (0 <? q)
        end
    end.

(** The loop [for (size_t i = 0; i < len; ++i)], with [n] iterations left,
    followed by the two returns after it. *)
Fixpoint trace_for (fuel : nat) (t : trie) (k : list byte) (len : nat)
    (slob : bool) (n : nat) (i : nat) (nod : ptr) (q : nat) : res trace_exit :=
  match n with
  | 0 =>
      nd ← deref t nod;
      if q =? 0 then Ok (Hit (Some nod, 2 * len, bool_decide (item nd ≠ None)))
      else Ok (Miss (parent nd) (2 * len))
  | S n' =>
      byte ← of_option (k !! i);
      r ← trace_while fuel t len slob i byte nod q false;
      match r with
      | Leave e => Ok e
      | Go nod q forward_branch =>
          nd ← deref t nod;
          kb ← key_at (key nd) i;
          let mismatch := bxor kb byte in
          if negb (mismatch =? 0)%N then
            par ← (if forward_branch
                   then pn ← deref_opt t (parent nd); Ok (parent pn)
                   else Ok (parent nd));
            Ok (Miss par (2 * i + (if (N.land mismatch 240 =? 0)%N then 1 else 0)))
          else trace_for fuel t k len slob n' (S i) nod (q - 2)
      end
  end.

Definition trace_walk (fuel : nat) (t : trie) (k : list byte) (len : nat)
    (slob : bool) : res trace_exit :=
  trace_for fuel t k len slob len 0 m_root 0.

(** [trace_miss_t] *)
Definition trace_miss_t : Type :=
  list byte -> nat -> option ptr -> nat -> trie -> res (position_t * trie).

(** [trace(miss, key, len, slob)] *)
Definition trace (fuel : nat) (miss : trace_miss_t) (k : list byte) (len : nat)
    (slob : bool) (t : trie) : res (position_t * trie) :=
  e ← trace_walk fuel t k len slob;
  match e with
  | Hit pos => Ok (pos, t)
  | Miss nod q => miss k len nod q t
  end.

(** [search_position] *)
Definition search_position : trace_miss_t :=
  λ k len nod q t, Ok ((nod, q, false), t).

(** ** Ownership *)

(** [delete p]: the destructor of [node] destroys the sixteen owning
    pointers, last slot first, and with them the sub-tree. *)
Fixpoint destroy (fuel : nat) (p : ptr) (t : trie) : res trie :=
  match fuel with
  | 0 => NoFuel
  | S fuel' =>
      n ← deref t p;
      t ← foldr (λ c acc, t ← acc;
                          match c with
                          | None => Ok t
                          | Some c => destroy fuel' c t
                          end)
                (Ok t) (branches n);
      Ok (free p t)
  end.

(** [p->branches[ix].reset(v)]: the slot takes [v], then the node it owned
    before (if any) is deleted. *)
Definition reset_branch (fuel : nat) (p : ptr) (ix : nat) (v : option ptr)
    (t : trie) : res trie :=
  n ← deref t p;
  t ← update p (set_branch ix v) t;
  match branch n ix with
  | None => Ok t
  | Some old => destroy fuel old t
  end.

(** ** Insertion *)

(** [insert_node(key, len, nod, qlen)] *)
Definition insert_node (fuel : nat) : trace_miss_t := λ k len nod q t,
  nod ← of_option nod;
  nd ← deref t nod;
  br_ix ← get_qpos (Some k) (qlen nd);
  '(done, br_ix, nod, t) ←
    match branch nd br_ix with
    | Some br_node =>
        (* create interim branch *)
        bn ← deref t br_node;
        in_br_ix ← get_qpos (key bn) q;
        let '(in_node, t) :=
          alloc (new_node None (key bn) q (Some nod) br_ix in_br_ix in_br_ix) t in
        (* in_node->branches[in_br_ix] = std::move(nod->branches[br_ix]) *)
        t ← update in_node (set_branch in_br_ix (Some br_node)) t;
        t ← update nod (set_branch br_ix None) t;
        t ← update br_node (set_br_own in_br_ix) t;
        t ← reset_branch fuel nod br_ix (Some in_node) t;
        t ← update br_node (set_parent (Some in_node)) t;
        if q =? 2 * len then Ok (Some (Some in_node, q, false), br_ix, in_node, t)
        else
          br_ix ← get_qpos (Some k) q;
          Ok (None, br_ix, in_node, t)
    | None => Ok (None, br_ix, nod, t)
    end;
  match done with
  | Some pos => Ok (pos, t)
  | None =>
      nd ← deref t nod;
      t ← (if is_leaf nd then update nod (br_set br_ix br_ix) t
           else
             t ← (if br_ix <? br_1st nd then update nod (set_br_1st br_ix) t else Ok t);
             nd ← deref t nod;
             if br_last nd <? br_ix then update nod (set_br_last br_ix) t else Ok t);
      let q := 2 * len in
      let '(br_node, t) := alloc (new_node None None q (Some nod) br_ix 1 0) t in
      t ← reset_branch fuel nod br_ix (Some br_node) t;
      Ok ((Some br_node, q, false), t)
  end.

(** [insert_item(item, nod)] *)
Definition insert_item (x : T) (nod : option ptr) (t : trie) : res trie :=
  let h := next_item t in
  let t := mk_trie (<[h := x]> (m_items t)) (Pos.succ h) (nodes t) (next_node t) in
  nod ← of_option nod;
  t ← update nod (set_key (Some (key_fn x))) t;
  update nod (set_item (Some h)) t.

(** ** Iterators *)

(** An iterator is its current node; [None] is the end iterator. *)
Definition iterator : Type := option ptr.

(** [iterator_base::next()]: the descent loop and the ascent loop of the
    endless [for (;;)]. *)
Fixpoint next_descend (fuel : nat) (t : trie) (m_node : ptr) (br_ix : nat)
    : res iterator :=
  match fuel with
  | 0 => NoFuel
  | S fuel' =>
      nd ← deref t m_node;
      if br_ix <=? br_last nd then
        match branch nd br_ix with
        | Some nod =>
            cn ← deref t nod;
            if bool_decide (item cn ≠ None) then Ok (Some nod)
            else next_descend fuel' t nod (br_1st cn)
        | None => next_descend fuel' t m_node (S br_ix)
        end
      else next_ascend fuel' t m_node
  end
with next_ascend (fuel : nat) (t : trie) (m_node : ptr) : res iterator :=
  match fuel with
  | 0 => NoFuel
  | S fuel' =>
      nd ← deref t m_node;
      let br_ix := br_own nd + 1 in
      match parent nd with
      | None => Ok None
      | Some p =>
          pn ← deref t p;
          if br_last pn <? br_ix then next_ascend fuel' t p
          else next_descend fuel' t p br_ix
      end
  end.

Definition next (fuel : nat) (t : trie) (m_node : ptr) : res iterator :=
  nd ← deref t m_node;
  next_descend fuel t m_node (br_1st nd).

(** [operator ++] on an iterator; incrementing the end iterator dereferences
    a null pointer. *)
Definition incr (fuel : nat) (t : trie) (it : iterator) : res iterator :=
  m_node ← of_option it;
  next fuel t m_node.

(** The constructor [iterator_base(_trie, _node)] *)
Definition mk_iterator (fuel : nat) (t : trie) (nod : option ptr) : res iterator :=
  match nod with
  | None => Ok None
  | Some m_node =>
      nd ← deref t m_node;
      if bool_decide (item nd = None) then next fuel t m_node else Ok (Some m_node)
  end.

(** [operator *]: key pointer, key size and the item *)
Definition deref_iter (t : trie) (it : iterator) : res (option (list byte) * nat * T) :=
  nd ← deref_opt t it;
  h ← of_option (item nd);
  x ← of_option (m_items t !! h);
  Ok (key nd, qlen nd / 2, x).


Definition end_ : iterator := None.



(** ** The public operations *)

(** [insert(item)] *)
Definition insert (fuel : nat) (x : T) (t : trie) : res (iterator * trie) :=
  '(pos, t) ← trace fuel (insert_node fuel) (key_fn x) (length (key_fn x)) false t;
  let nod := pos_node pos in
  t ← (if pos_match pos then Ok t else insert_item x nod t);
  it ← mk_iterator fuel t nod;
  Ok (it, t).

(** [find(key, len)] *)
Definition find (fuel : nat) (t : trie) (k : list byte) (len : nat) : res iterator :=
  '(pos, _) ← trace fuel search_position k len true t;
  if pos_match pos then mk_iterator fuel t (pos_node pos) else Ok end_.

(** [find(item)], the search for an item by its twin *)
Definition find_item (fuel : nat) (t : trie) (x : T) : res iterator :=
  find fuel t (key_fn x) (length (key_fn x)).


(** [lower_bound(key, len)] *)
Definition lower_bound (fuel : nat) (t : trie) (k : list byte) (len : nat)
    : res position_t :=
  '(pos, _) ← trace fuel search_position k len false t;
  Ok pos.

(** What a call that may throw produces. *)
Inductive outcome (A : Type) : Type :=
  | Returns (a : A)
  | Throws (e : error).
Arguments Returns {A} a.
Arguments Throws {A} e.

(** [insert(item, pos)], the insertion at a lower bound *)
Definition insert_at (fuel : nat) (x : T) (pos : position_t) (t : trie)
    : res (outcome iterator * trie) :=
  if pos_match pos then Ok (Throws AlreadyPresent, t)
  else
    nod ← of_option (pos_node pos);
    let q := pos_qlen pos in
    nd ← deref t nod;
    '(nod, t) ←
      (if negb (q =? qlen nd) then
         '(pos', t) ← insert_node fuel (key_fn x) (length (key_fn x)) (Some nod) q t;
         Ok (pos_node pos', t)
       else Ok (Some nod, t));
    t ← insert_item x nod t;
    it ← mk_iterator fuel t nod;
    Ok (Returns it, t).

(** [for (; NULL == parent->branches[ix].get(); ++ix);] : [n] bounds the
    steps, sixteen of them leave the array. *)
Fixpoint scan_up (n : nat) (pn : node) (ix : nat) : res nat :=
  if 16 <=? ix then Fault
  else
    match branch pn ix with
    | Some _ => Ok ix
    | None =>
        match n with
        | 0 => NoFuel
        | S n' => scan_up n' pn (S ix)
        end
    end.

(** [for (; NULL == parent->branches[ix].get(); --ix);] *)
Fixpoint scan_down (pn : node) (ix : nat) : res nat :=
  if 16 <=? ix then Fault
  else
    match branch pn ix with
    | Some _ => Ok ix
    | None =>
        match ix with
        | 0 => Fault
        | S ix' => scan_down pn ix'
        end
    end.

(** [while (items_end == nod->item && nod != &m_root)] at the end of [erase] *)
Fixpoint rekey (fuel : nat) (k : option (list byte)) (nod : option ptr)
    (t : trie) : res trie :=
  n ← deref_opt t nod;
  if bool_decide (item n = None) && bool_decide (nod ≠ Some m_root) then
    match fuel with
    | 0 => NoFuel
    | S fuel' =>
        p ← of_option nod;
        t ← update p (set_key k) t;
        rekey fuel' k (parent n) t
    end
  else Ok t.

(** [erase(iter)] *)
Definition erase (fuel : nat) (iter : iterator) (t : trie)
    : res (outcome iterator * trie) :=
  match iter with
  | None => Ok (Throws EndIterator, t)
  | Some nod =>
      iter ← incr fuel t (Some nod);
      (* remove item from item list *)
      nd ← deref t nod;
      h ← of_option (item nd);
      _ ← of_option (m_items t !! h);
      let t := mk_trie (delete h (m_items t)) (next_item t) (nodes t) (next_node t) in
      t ← update nod (set_item None) t;
      (* empty leaf node shall be removed *)
      nd ← deref t nod;
      '(nod, t) ←
        (if is_leaf nd && bool_decide (nod ≠ m_root) then
           let br_ix := br_own nd in
           par ← of_option (parent nd);
           t ← reset_branch fuel par br_ix None t;
           pn ← deref t par;
           t ← (if has_only_son pn then update par (br_set 1 0) t
                else if br_1st pn =? br_ix then
                  ix ← scan_up 16 pn (br_ix + 1);
                  update par (set_br_1st ix) t
                else if br_last pn =? br_ix then
                  ix ← (match br_ix with 0 => Fault | S ix => scan_down pn ix end);
                  update par (set_br_last ix) t
                else Ok t);
           Ok (par, t)
         else Ok (nod, t));
      (* interim node with only son shall be removed *)
      nd ← deref t nod;
      '(nod, t) ←
        (if has_only_son nd && bool_decide (item nd = None) && bool_decide (nod ≠ m_root) then
           par ← of_option (parent nd);
           let br_ix := br_own nd in
           (* branch = std::move(nod->branches[nod->br_1st()]) *)
           let son := branch nd (br_1st nd) in
           t ← update nod (set_branch (br_1st nd) None) t;
           t ← reset_branch fuel par br_ix son t;
           son ← of_option son;
           t ← update son (set_parent (Some par)) t;
           t ← update son (set_br_own br_ix) t;
           Ok (par, t)
         else Ok (nod, t));
      (* interim node without value uses key of its descendant *)
      nd ← deref t nod;
      t ← (if negb (is_leaf nd) && bool_decide (item nd = None) && bool_decide (nod ≠ m_root) then
             son ← deref_opt t (branch nd (br_1st nd));
             rekey fuel (key son) (Some nod) t
           else Ok t);
      Ok (Returns iter, t)
  end.

End Trie.

Arguments trie : clear implicits.
Arguments Returns {A} a.
Arguments Throws {A} e.

(** ** Output

    An output stream is modelled by the string of bytes written to it.  The
    formatting state of a stream is not modelled: a value is written as
    [operator <<] writes it to a stream in its initial state. *)

(** *** Tuple serialisation *)

(** A component of a [std::tuple]: a value with the way [operator <<] writes
    values of its type, as the bytes it puts on the stream. *)
Record component : Type := mk_component {
  comp_type : Type;
  comp_write : comp_type → list byte;
  comp_value : comp_type
}.

(** [out << std::get<I - 1>(tuple)] *)
Definition write_get (tuple : list component) (I : nat) : res (list byte) :=
  c ← of_option (tuple !! (I - 1));
  Ok (comp_write c (comp_value c)).

(** [tuple_serialiser<Tuple, I>::operator ()(out, tuple, sep)]; the stream is
    the string of bytes written to it. *)
Fixpoint tuple_serialiser (I : nat) (out : list byte) (tuple : list component)
    (sep : list byte) : res (list byte) :=
  match I with
  | 0 => Ok (out ++ [x28])
  | S I' =>
      out ← tuple_serialiser I' out tuple [x2c; x20];
      s ← write_get tuple I;
      Ok (out ++ s ++ sep)
  end.

(** [operator << (out, tuple)] *)
Definition write_tuple (out : list byte) (tuple : list component) : res (list byte) :=
  tuple_serialiser (length tuple) out tuple [x29].

(** *** Serialisation of the paths *)





Section Serialise.

Context {T : Type}.
(** [prefix_ss << *nod->item]: the bytes that [operator <<] of the item type
    writes. *)
Variable write_item : T → list byte.





End Serialise.

(** ** The driver of the unit test [paths] *)

(** The actions of an input line: ['A'] adds a key, ['R'] removes it; the
    parser of the input admits no other. *)
Inductive action : Type := Add | Remove.

Section Paths.

Context {T : Type}.
Variable key_fn : T → list byte.
Variable KeyTracing : key_tracing.

(** The body of the loop that builds the trie: [trie.insert(item)] for an
    addition; for a removal [trie.find(item)] and, unless it answers
    [trie.end()], [trie.erase(iter)]. *)
Definition paths_step (fuel : nat) (t : trie T) (i : action * T)
    : res (outcome (trie T)) :=
  match i.1 with
  | Add =>
      '(_, t) ← insert key_fn KeyTracing fuel i.2 t;
      Ok (Returns t)
  | Remove =>
      iter ← find_item key_fn KeyTracing fuel t i.2;
      if bool_decide (end_ = iter) then Ok (Returns t)
      else
        '(r, t) ← erase fuel iter t;
        match r with
        | Returns _ => Ok (Returns t)
        | Throws e => Ok (Throws e)
        end
  end.

(** [std::for_each(input.begin(), input.end(), ...)]; an exception leaves
    the loop. *)
Fixpoint paths_build (fuel : nat) (t : trie T) (input : list (action * T))
    : res (outcome (trie T)) :=
  match input with
  | [] => Ok (Returns t)
  | i :: input =>
      r ← paths_step fuel t i;
      match r with
      | Returns t => paths_build fuel t input
      | Throws e => Ok (Throws e)
      end
  end.

End Paths.

(** * Properties *)

(** ** Bytes *)

#[global] Instance byte_eq_dec : EqDecision byte := Byte.byte_eq_dec.

Definition all_bytes : list byte := omap Byte.of_nat (seq 0 256).

Lemma all_bytes_complete (b : byte) : b ∈ all_bytes.
Proof.
  unfold all_bytes. apply list_elem_of_omap. exists (Byte.to_nat b). split.
  - apply elem_of_seq. pose proof (Byte.to_nat_bounded b). lia.
  - apply Byte.of_to_nat.
Qed.

Lemma byte_forall1 (P : byte -> bool) :
  forallb P all_bytes = true -> ∀ a, P a = true.
Proof.
  intros H a. rewrite forallb_forall in H.
  apply H, list_elem_of_In, all_bytes_complete.
Qed.

Lemma byte_forall2 (P : byte -> byte -> bool) :
  forallb (λ a, forallb (P a) all_bytes) all_bytes = true ->
  ∀ a b, P a b = true.
Proof.
  intros H a b. revert b. apply byte_forall1.
  revert a. apply (byte_forall1 (λ a, forallb (P a) all_bytes)). exact H.
Qed.

Lemma hi_lt (b : byte) : hi b < 16.
Proof.
  apply Nat.ltb_lt. revert b.
  apply (byte_forall1 (λ b, hi b <? 16)). vm_compute. reflexivity.
Qed.

Lemma lo_lt (b : byte) : lo b < 16.
Proof.
  apply Nat.ltb_lt. revert b.
  apply (byte_forall1 (λ b, lo b <? 16)). vm_compute. reflexivity.
Qed.

Lemma bxor_zero (a b : byte) : (bxor a b =? 0)%N = bool_decide (a = b).
Proof.
  apply (bool_decide_eq_true_1 (_ = _)). revert a b.
  apply (byte_forall2 (λ a b, bool_decide ((bxor a b =? 0)%N = bool_decide (a = b)))).
  vm_compute. reflexivity.
Qed.

Lemma bxor_shiftr_zero (a b : byte) :
  (N.shiftr (bxor a b) 4 =? 0)%N = bool_decide (hi a = hi b).
Proof.
  apply (bool_decide_eq_true_1 (_ = _)). revert a b.
  apply (byte_forall2 (λ a b,
    bool_decide ((N.shiftr (bxor a b) 4 =? 0)%N = bool_decide (hi a = hi b)))).
  vm_compute. reflexivity.
Qed.

Lemma bxor_high_zero (a b : byte) :
  (N.land (bxor a b) 240 =? 0)%N = bool_decide (hi a = hi b).
Proof.
  apply (bool_decide_eq_true_1 (_ = _)). revert a b.
  apply (byte_forall2 (λ a b,
    bool_decide ((N.land (bxor a b) 240 =? 0)%N = bool_decide (hi a = hi b)))).
  vm_compute. reflexivity.
Qed.

Lemma byte_halves (a b : byte) : hi a = hi b -> lo a = lo b -> a = b.
Proof.
  intros H1 H2.
  apply (bool_decide_eq_true_1 (a = b)).
  cut (bool_decide (hi a = hi b) && bool_decide (lo a = lo b) = true).
  { cut (implb (bool_decide (hi a = hi b) && bool_decide (lo a = lo b))
               (bool_decide (a = b)) = true).
    { intros Hi Hc. rewrite Hc in Hi. exact Hi. }
    clear H1 H2. revert a b.
    apply (byte_forall2 (λ a b,
      implb (bool_decide (hi a = hi b) && bool_decide (lo a = lo b))
            (bool_decide (a = b)))).
    vm_compute. reflexivity. }
  rewrite !bool_decide_eq_true_2 by done. reflexivity.
Qed.

(** ** Branch attributes: the three four-bit fields of [br_attrs] *)

Definition field (s : N) (a : N) : N := N.land 15 (N.shiftr a s).

Lemma testbit_small (x k : N) : (x < 16)%N → (4 ≤ k)%N → N.testbit x k = false.
Proof.
  intros Hx Hk. destruct (decide (x = 0%N)) as [->|]; [apply N.bits_0|].
  apply N.bits_above_log2.
  assert (N.log2 x < 4)%N; [|lia].
  apply N.log2_lt_pow2; [lia|]. simpl. lia.
Qed.

Lemma field_testbit s a k :
  N.testbit (field s a) k = ((k <? 4)%N && N.testbit a (k + s)).
Proof.
  unfold field. rewrite N.land_spec, N.shiftr_spec'.
  destruct (N.ltb_spec k 4).
  - assert (k = 0 ∨ k = 1 ∨ k = 2 ∨ k = 3)%N as [->|[->|[->| ->]]] by lia; reflexivity.
  - rewrite (testbit_small 15 k) by lia. reflexivity.
Qed.

Lemma field_lt s a : (field s a < 16)%N.
Proof.
  unfold field. change 15%N with (N.ones 4).
  rewrite N.land_comm, N.land_ones. apply N.mod_lt. done.
Qed.

Lemma field_lor s a b : field s (N.lor a b) = N.lor (field s a) (field s b).
Proof.
  apply N.bits_inj. intros k.
  rewrite N.lor_spec, !field_testbit, N.lor_spec.
  destruct (k <? 4)%N; reflexivity.
Qed.

Lemma field_land s a b : field s (N.land a b) = N.land (field s a) (field s b).
Proof.
  apply N.bits_inj. intros k.
  rewrite N.land_spec, !field_testbit, N.land_spec.
  destruct (k <? 4)%N, (N.testbit a (k + s)), (N.testbit b (k + s)); reflexivity.
Qed.

Lemma field_shiftl_same s x : (x < 16)%N → field s (N.shiftl x s) = x.
Proof.
  intros Hx. apply N.bits_inj. intros k. rewrite field_testbit.
  rewrite N.shiftl_spec_high' by lia. replace (k + s - s)%N with k by lia.
  destruct (N.ltb_spec k 4); [done|]. by rewrite testbit_small.
Qed.

Lemma field_shiftl_other s s' x :
  (x < 16)%N → (s + 4 ≤ s')%N ∨ (s' + 4 ≤ s)%N → field s (N.shiftl x s') = 0%N.
Proof.
  intros Hx Hs. apply N.bits_inj. intros k. rewrite field_testbit, N.bits_0.
  destruct (N.ltb_spec k 4); [|done]. simpl.
  destruct (N.ltb_spec (k + s) s').
  - by rewrite N.shiftl_spec_low.
  - rewrite N.shiftl_spec_high' by lia. apply testbit_small; lia.
Qed.

Lemma field_land_15 s a : N.land (field s a) 15 = field s a.
Proof.
  apply N.bits_inj. intros k. rewrite N.land_spec.
  destruct (N.ltb_spec k 4).
  - assert (k = 0 ∨ k = 1 ∨ k = 2 ∨ k = 3)%N as [->|[->|[->| ->]]] by lia;
      simpl; apply andb_true_r.
  - rewrite (testbit_small (field s a)) by (apply field_lt || lia). done.
Qed.

Lemma br_1st_field n : br_1st n = N.to_nat (field 0 (br_attrs n)).
Proof. unfold br_1st, field. by rewrite N.shiftr_0_r. Qed.

Lemma br_last_field n : br_last n = N.to_nat (field 4 (br_attrs n)).
Proof. reflexivity. Qed.

Lemma br_own_field n : br_own n = N.to_nat (field 8 (br_attrs n)).
Proof. reflexivity. Qed.

Lemma br_1st_lt n : br_1st n < 16.
Proof. rewrite br_1st_field. pose proof (field_lt 0 (br_attrs n)). lia. Qed.

Lemma br_last_lt n : br_last n < 16.
Proof. rewrite br_last_field. pose proof (field_lt 4 (br_attrs n)). lia. Qed.

Lemma br_own_lt n : br_own n < 16.
Proof. rewrite br_own_field. pose proof (field_lt 8 (br_attrs n)). lia. Qed.

Ltac field_norm :=
  rewrite ?br_1st_field, ?br_last_field, ?br_own_field;
  cbn [br_attrs with_attrs set_br_1st set_br_last set_br_own br_set new_node
       set_branch set_parent set_key set_item];
  unfold br_attrs_init, not32, mask32;
  repeat match goal with
  | |- context [N.lor ?a (N.of_nat ?x)] =>
      lazymatch a with
      | context [N.of_nat x] => fail
      | _ => rewrite <- (N.shiftl_0_r (N.of_nat x))
      end
  end;
  rewrite ?field_lor, ?field_land;
  repeat first
    [ rewrite field_shiftl_same by lia
    | rewrite field_shiftl_other by lia ];
  repeat match goal with
  | |- context [field ?s (N.lxor ?a ?b)] =>
      let v := eval vm_compute in (field s (N.lxor a b)) in
      change (field s (N.lxor a b)) with v
  end;
  rewrite ?N.land_0_r, ?N.lor_0_r, ?N.lor_0_l, ?field_land_15, ?Nat2N.id;
  try reflexivity.

Section Attrs.
Variables (n : node) (ix : nat).
Hypothesis Hix : ix < 16.

Lemma br_1st_set_br_1st : br_1st (set_br_1st ix n) = ix.
Proof. field_norm. Qed.
Lemma br_last_set_br_1st : br_last (set_br_1st ix n) = br_last n.
Proof. field_norm. Qed.
Lemma br_own_set_br_1st : br_own (set_br_1st ix n) = br_own n.
Proof. field_norm. Qed.

Lemma br_1st_set_br_last : br_1st (set_br_last ix n) = br_1st n.
Proof. field_norm. Qed.
Lemma br_last_set_br_last : br_last (set_br_last ix n) = ix.
Proof. field_norm. Qed.
Lemma br_own_set_br_last : br_own (set_br_last ix n) = br_own n.
Proof. field_norm. Qed.

Lemma br_1st_set_br_own : br_1st (set_br_own ix n) = br_1st n.
Proof. field_norm. Qed.
Lemma br_last_set_br_own : br_last (set_br_own ix n) = br_last n.
Proof. field_norm. Qed.
Lemma br_own_set_br_own : br_own (set_br_own ix n) = ix.
Proof. field_norm. Qed.
End Attrs.

Section Attrs2.
Variables (n : node) (f l o : nat).
Hypothesis Hf : f < 16.
Hypothesis Hl : l < 16.

Lemma br_1st_br_set : br_1st (br_set f l n) = f.
Proof. field_norm. Qed.
Lemma br_last_br_set : br_last (br_set f l n) = l.
Proof. field_norm. Qed.
Lemma br_own_br_set : br_own (br_set f l n) = br_own n.
Proof. field_norm. Qed.

Hypothesis Ho : o < 16.
Variables (it : option handle) (k : option (list byte)) (q : nat) (par : option ptr).

Lemma br_1st_new_node : br_1st (new_node it k q par o f l) = f.
Proof. field_norm. Qed.
Lemma br_last_new_node : br_last (new_node it k q par o f l) = l.
Proof. field_norm. Qed.
Lemma br_own_new_node : br_own (new_node it k q par o f l) = o.
Proof. field_norm. Qed.
End Attrs2.

(** ** Half-byte positions of a key *)

(** The half-byte of [k] at quad-bit position [p], when [p] lies in [k]. *)
Definition nibble (k : list byte) (p : nat) : option nat :=
  match k !! (p / 2) with
  | Some b => Some (if p mod 2 =? 0 then hi b else lo b)
  | None => None
  end.

#[local] Arguments Nat.div : simpl never.
#[local] Arguments Nat.modulo : simpl never.

(** Two keys agree on their first [q] half-bytes. *)
Definition agree (k1 k2 : list byte) (q : nat) : Prop :=
  ∀ p, p < q → nibble k1 p = nibble k2 p.

Lemma get_qpos_nibble k p : get_qpos (Some k) p = of_option (nibble k p).
Proof.
  unfold get_qpos, nibble, key_at. destruct (k !! (p / 2)); reflexivity.
Qed.

Lemma nibble_hi k i b : k !! i = Some b → nibble k (2 * i) = Some (hi b).
Proof.
  intros H. unfold nibble.
  rewrite (Nat.mul_comm 2 i), Nat.div_mul, Nat.Div0.mod_mul, H by lia. done.
Qed.

Lemma nibble_lo k i b : k !! i = Some b → nibble k (2 * i + 1) = Some (lo b).
Proof.
  intros H. unfold nibble.
  rewrite (Nat.add_comm (2 * i) 1), (Nat.mul_comm 2 i), Nat.div_add,
    Nat.Div0.mod_add by lia.
  change (1 / 2 + i) with i. rewrite H. done.
Qed.

Lemma nibble_lt k p x : nibble k p = Some x → x < 16.
Proof.
  unfold nibble. destruct (k !! (p / 2)) as [b|]; [|done].
  intros [= <-]. destruct (p mod 2 =? 0); [apply hi_lt|apply lo_lt].
Qed.

Lemma nibble_is_Some k p : p < 2 * length k → is_Some (nibble k p).
Proof.
  intros H. unfold nibble.
  destruct (lookup_lt_is_Some_2 k (p / 2)) as [b ->]; [|by eexists].
  apply Nat.Div0.div_lt_upper_bound. lia.
Qed.


Lemma agree_refl k q : agree k k q.
Proof. intros p _. reflexivity. Qed.

Lemma agree_sym k1 k2 q : agree k1 k2 q → agree k2 k1 q.
Proof. intros H p Hp. symmetry. by apply H. Qed.

Lemma agree_mono k1 k2 q q' : agree k1 k2 q → q' ≤ q → agree k1 k2 q'.
Proof. intros H Hq p Hp. apply H. lia. Qed.

Lemma agree_trans k1 k2 k3 q : agree k1 k2 q → agree k2 k3 q → agree k1 k3 q.
Proof. intros H1 H2 p Hp. rewrite H1 by done. by apply H2. Qed.

Lemma agree_S k1 k2 q :
  agree k1 k2 q → nibble k1 q = nibble k2 q → agree k1 k2 (S q).
Proof.
  intros H Hq p Hp. destruct (decide (p = q)) as [->|]; [done|]. apply H. lia.
Qed.

Lemma agree_byte k1 k2 i b :
  agree k1 k2 (2 * i) → k1 !! i = Some b → k2 !! i = Some b →
  agree k1 k2 (2 * i + 2).
Proof.
  intros H H1 H2.
  replace (2 * i + 2) with (S (S (2 * i))) by lia.
  apply agree_S; [apply agree_S; [done|]|].
  - by rewrite (nibble_hi _ _ _ H1), (nibble_hi _ _ _ H2).
  - replace (S (2 * i)) with (2 * i + 1) by lia.
    by rewrite (nibble_lo _ _ _ H1), (nibble_lo _ _ _ H2).
Qed.

(** ** Well-formed tries *)

Section Invariant.

Context {T : Type}.
Variable key_fn : T -> list byte.

(** [strict] asks every entry to sit at the node of its own key (I3); it is
    dropped for tries built with insertions at a lower bound.  [hole] names at
    most one node that is allowed to be an interim node with fewer than two
    children, as happens in the middle of an operation. *)
Variable strict : bool.

(** I4: the cached first and last branch indices. *)
Definition cache_ok (n : node) : Prop :=
  if is_leaf n then ∀ i, branch n i = None
  else is_Some (branch n (br_1st n)) ∧ is_Some (branch n (br_last n)) ∧
       ∀ i, is_Some (branch n i) → br_1st n ≤ i ≤ br_last n.

(** The edge from a node [n] at [p] through slot [i] to the node [cn]: the
    back-reference and own index of the child (I2), the growth of the path
    (I1), and the child's key continuing the path of [n] with half-byte [i]. *)
Definition edge_ok (p : ptr) (n : node) (i : nat) (cn : node) : Prop :=
  parent cn = Some p ∧ br_own cn = i ∧ qlen n < qlen cn ∧
  ∃ kc, key cn = Some kc ∧ qlen cn ≤ 2 * length kc ∧
    nibble kc (qlen n) = Some i ∧
    (∀ k, key n = Some k → agree k kc (qlen n)).

Record node_wf (t : trie T) (hole : option ptr) (p : ptr) (n : node) : Prop := {
  wf_len : length (branches n) = 16;
  wf_cache : cache_ok n;
  wf_down : ∀ i c, branch n i = Some c →
    ∃ cn, nodes t !! c = Some cn ∧ edge_ok p n i cn;
  wf_root : p = m_root → qlen n = 0 ∧ parent n = None;
  wf_uplink : p ≠ m_root →
    ∃ pp pn, parent n = Some pp ∧ nodes t !! pp = Some pn ∧
      branch pn (br_own n) = Some p;
  wf_interim : p ≠ m_root → item n = None → hole ≠ Some p →
    br_1st n < br_last n;
  wf_item : ∀ h, item n = Some h →
    ∃ x, m_items t !! h = Some x ∧
      (strict = true → key n = Some (key_fn x) ∧ qlen n = 2 * length (key_fn x));
  wf_fresh : (p < next_node t)%positive
}.

Record wf (hole : option ptr) (t : trie T) : Prop := {
  wf_has_root : is_Some (nodes t !! m_root);
  wf_nodes : ∀ p n, nodes t !! p = Some n → node_wf t hole p n;
  wf_handles : ∀ p1 n1 p2 n2 h,
    nodes t !! p1 = Some n1 → nodes t !! p2 = Some n2 →
    item n1 = Some h → item n2 = Some h → p1 = p2;
  wf_items_fresh : ∀ h x, m_items t !! h = Some x → (h < next_item t)%positive
}.

End Invariant.

Section Walk.

Context {T : Type}.
Variable key_fn : T -> list byte.
Variable KeyTracing : key_tracing.
Variable strict : bool.
Variable hole : option ptr.
Variable t : trie T.
Hypothesis Hwf : wf key_fn strict hole t.

Lemma wf_node p n : nodes t !! p = Some n → node_wf key_fn strict t hole p n.
Proof. apply Hwf. Qed.

Lemma deref_Some p n : nodes t !! p = Some n → deref t p = Ok n.
Proof. unfold deref. by intros ->. Qed.

Lemma root_qlen n : nodes t !! m_root = Some n → qlen n = 0.
Proof. intros H. by apply (wf_root _ _ _ _ _ _ (wf_node _ _ H)). Qed.

Lemma nonroot_of_qlen p n : nodes t !! p = Some n → 0 < qlen n → p ≠ m_root.
Proof. intros H Hq ->. rewrite (root_qlen _ H) in Hq. lia. Qed.

(** What the invariant says about an occupied branch slot. *)
Lemma wf_branch p n ix c :
  nodes t !! p = Some n → branch n ix = Some c →
  ∃ cn kc, nodes t !! c = Some cn ∧ parent cn = Some p ∧ br_own cn = ix ∧
    c ≠ m_root ∧ qlen n < qlen cn ∧ key cn = Some kc ∧
    qlen cn ≤ 2 * length kc ∧ nibble kc (qlen n) = Some ix ∧
    (∀ k, key n = Some k → agree k kc (qlen n)).
Proof.
  intros Hp Hb.
  destruct (wf_down _ _ _ _ _ _ (wf_node _ _ Hp) _ _ Hb)
    as (cn & Hc & Hpar & Hown & Hq & kc & Hk & Hlen & Hnib & Hag).
  exists cn, kc. repeat split; try done.
  intros ->. destruct (wf_root _ _ _ _ _ _ (wf_node _ _ Hc)) as [_ Hr]; [done|].
  congruence.
Qed.

(** What it says about the way up from a node other than the root. *)
Lemma wf_up p n :
  nodes t !! p = Some n → p ≠ m_root →
  ∃ pp pn k, parent n = Some pp ∧ nodes t !! pp = Some pn ∧
    branch pn (br_own n) = Some p ∧ qlen pn < qlen n ∧
    key n = Some k ∧ qlen n ≤ 2 * length k ∧
    nibble k (qlen pn) = Some (br_own n) ∧
    (∀ kp, key pn = Some kp → agree kp k (qlen pn)).
Proof.
  intros Hp Hne.
  destruct (wf_uplink _ _ _ _ _ _ (wf_node _ _ Hp) Hne) as (pp & pn & Hpar & Hpp & Hbr).
  destruct (wf_branch _ _ _ _ Hpp Hbr) as (cn & kc & Hc & ? & ? & ? & ? & ? & ? & ? & ?).
  simplify_eq. exists pp, pn, kc. done.
Qed.

Lemma nonroot_key p n :
  nodes t !! p = Some n → p ≠ m_root → ∃ k, key n = Some k ∧ qlen n ≤ 2 * length k.
Proof.
  intros Hp Hne. destruct (wf_up _ _ Hp Hne) as (?&?&k&?&?&?&?&?&?&?&?). eauto.
Qed.


(** *** The walk of [trace] *)

Variable K : list byte.
Variable slob : bool.

(** The path of node [p] is a prefix of the key [K]. *)
Definition on_path (p : ptr) (n : node) : Prop :=
  qlen n ≤ 2 * length K ∧ (p = m_root ∨ ∃ k, key n = Some k ∧ agree k K (qlen n)).

(** The ways in which the walk can end. *)
Inductive walk_spec : trace_exit → Prop :=
  | ws_hit p n :
      nodes t !! p = Some n → on_path p n → qlen n = 2 * length K →
      walk_spec (Hit (Some p, 2 * length K, bool_decide (item n ≠ None)))
  | ws_slot p n ix :
      nodes t !! p = Some n → on_path p n → qlen n < 2 * length K →
      nibble K (qlen n) = Some ix → branch n ix = None →
      walk_spec (Miss (Some p) (qlen n))
  | ws_edge p n ix c cn kc q :
      nodes t !! p = Some n → on_path p n →
      nibble K (qlen n) = Some ix → branch n ix = Some c →
      nodes t !! c = Some cn → key cn = Some kc →
      qlen n < q < qlen cn → q ≤ 2 * length K → agree kc K q →
      (q < 2 * length K → nibble kc q ≠ nibble K q) →
      walk_spec (Miss (Some p) q)
  | ws_slob p n ix c cn a :
      is_slobby KeyTracing && slob = true →
      nodes t !! p = Some n → qlen n < 2 * length K →
      nibble K (qlen n) = Some ix → branch n ix = Some c →
      nodes t !! c = Some cn → is_leaf cn = true →
      (p ≠ m_root → ∃ k pp pn, key n = Some k ∧ parent n = Some pp ∧
          nodes t !! pp = Some pn ∧ qlen pn < a ∧ agree k K a) →
      walk_spec (Hit (Some c, 2 * length K, true)).

(** The state of the walk at the head of the loop for byte [i]. *)
Definition at_head (i : nat) (nod : ptr) (q : nat) : Prop :=
  ∃ nd, nodes t !! nod = Some nd ∧ qlen nd = 2 * i + q ∧
    (nod ≠ m_root →
      (∃ k, key nd = Some k ∧ agree k K (2 * i)) ∧
      (∀ pp pn, parent nd = Some pp → nodes t !! pp = Some pn → qlen pn < 2 * i)).

Lemma trace_while_done fuel len i b nod q fb :
  2 ≤ q → trace_while KeyTracing fuel t len slob i b nod q fb = Ok (Go nod q fb).
Proof.
  intros Hq. destruct q as [|[|q]]; [lia|lia|]. destruct fuel; reflexivity.
Qed.

Lemma on_path_up c cn kc a :
  nodes t !! c = Some cn → c ≠ m_root → key cn = Some kc → agree kc K a →
  ∀ pp pn, parent cn = Some pp → nodes t !! pp = Some pn → qlen pn ≤ a →
  a ≤ 2 * length K → on_path pp pn.
Proof.
  intros Hc Hne Hk Hag pp pn Hpar Hpp Hq Ha. split; [lia|].
  destruct (decide (pp = m_root)) as [|Hne']; [by left|right].
  destruct (nonroot_key _ _ Hpp Hne') as (kp & Hkp & _).
  exists kp. split; [done|].
  destruct (wf_up _ _ Hc Hne) as (pp' & pn' & k' & ? & ? & ? & ? & ? & ? & ? & Hag').
  simplify_eq. eapply agree_trans; [by apply Hag'|]. eapply agree_mono; [done|lia].
Qed.


(** The state of the walk when byte [i] is compared, after the branching. *)
Definition at_cmp (i : nat) (c : ptr) (q : nat) (fb : bool) : Prop :=
  ∃ cn kc pp pn, nodes t !! c = Some cn ∧ c ≠ m_root ∧ key cn = Some kc ∧
    qlen cn = 2 * i + q ∧ 2 ≤ q ∧ agree kc K (2 * i) ∧
    parent cn = Some pp ∧ nodes t !! pp = Some pn ∧
    if fb then
      qlen pn = 2 * i + 1 ∧ nibble kc (2 * i + 1) = nibble K (2 * i + 1) ∧
      (∀ gp gn, parent pn = Some gp → nodes t !! gp = Some gn →
         qlen gn ≤ 2 * i ∧ (qlen gn = 2 * i → nibble kc (2 * i) = nibble K (2 * i)))
    else qlen pn ≤ 2 * i ∧ (qlen pn = 2 * i → nibble kc (2 * i) = nibble K (2 * i)).

Lemma key_byte (k : list byte) i : 2 * i < 2 * length k → ∃ b, k !! i = Some b.
Proof. intros H. apply lookup_lt_is_Some_2. lia. Qed.

Lemma while_low fuel i b nod nd k pp pn fb :
  1 ≤ fuel → K !! i = Some b →
  nodes t !! nod = Some nd → qlen nd = 2 * i + 1 → key nd = Some k →
  agree k K (2 * i) → parent nd = Some pp → nodes t !! pp = Some pn →
  qlen pn ≤ 2 * i → (qlen pn = 2 * i → nibble k (2 * i) = nibble K (2 * i)) →
  ∃ r, trace_while KeyTracing fuel t (length K) slob i b nod 1 fb = Ok r ∧
    match r with
    | Leave e => walk_spec e
    | Go c q' fb => at_cmp i c q' fb
    end.
Proof.
  intros Hfuel Hb Hnod Hq Hk Hag Hpar Hpp Hqp Hhi.
  assert (i < length K) as Hi by (by apply lookup_lt_Some in Hb).
  pose proof (nibble_hi _ _ _ Hb) as HKhi.
  pose proof (nibble_lo _ _ _ Hb) as HKlo.
  assert (nod ≠ m_root) as Hne by (eapply nonroot_of_qlen; [done|lia]).
  destruct (wf_up _ _ Hnod Hne)
    as (pp' & pn' & k' & ? & ? & Hbrp & Hqlt & ? & Hklen & Hnibp & Hagp).
  simplify_eq.
  destruct (key_byte k i) as [kb Hkb]; [lia|].
  pose proof (nibble_hi _ _ _ Hkb) as Hkhi.
  pose proof (nibble_lo _ _ _ Hkb) as Hklo.
  destruct fuel as [|fuel]; [lia|].
  cbn [trace_while]. change (2 <=? 1) with false. cbv iota.
  rewrite (deref_Some _ _ Hnod). cbn [mbind res_bind].
  change (1 =? 0) with false. cbv iota.
  destruct (branch nd (lo b)) as [c|] eqn:Hbr.
  - destruct (wf_branch _ _ _ _ Hnod Hbr)
      as (cn & kc & Hc & Hcpar & Hcown & Hcne & Hcq & Hkc & Hkclen & Hkcnib & Hkcag).
    rewrite (deref_Some _ _ Hc). cbn [mbind res_bind].
    specialize (Hkcag _ Hk).
    destruct (is_slobby KeyTracing && slob && is_leaf cn) eqn:Hsl.
    + eexists; split; [done|].
      apply andb_true_iff in Hsl as [Hsl Hleaf].
      eapply (ws_slob nod nd (lo b) c cn (S (qlen pn))); eauto; try lia.
      * by rewrite Hq.
      * intros _. exists k, pp, pn. repeat split; try done; [lia|].
        destruct (decide (qlen pn = 2 * i)) as [E|E].
        -- rewrite E. apply agree_S; [done|]. by apply Hhi.
        -- eapply agree_mono; [done|lia].
    + assert ((qlen cn <? 2 * i) = false) as -> by (apply Nat.ltb_ge; lia).
      rewrite trace_while_done by lia.
      eexists; split; [done|].
      exists cn, kc, nod, nd. repeat split; try done; try lia.
      * eapply agree_trans; [apply agree_sym; eapply agree_mono; [done|lia]|done].
      * rewrite Hq in Hkcnib. by rewrite Hkcnib, HKlo.
      * simplify_eq. lia.
      * intros E. simplify_eq. rewrite <- (Hhi E). symmetry. apply Hkcag. lia.
  - unfold key_at. rewrite Hk, Hkb. cbn [of_option mbind res_bind].
    rewrite bxor_shiftr_zero.
    destruct (decide (hi kb = hi b)) as [Ehi|Ehi].
    + rewrite bool_decide_eq_true_2 by done. cbn [negb].
      eexists; split; [done|]. rewrite <- Hq.
      eapply ws_slot; eauto; try lia.
      * split; [lia|]. right. exists k. split; [done|]. rewrite Hq.
        replace (2 * i + 1) with (S (2 * i)) by lia.
        apply agree_S; [done|]. by rewrite Hkhi, HKhi, Ehi.
      * by rewrite Hq.
    + rewrite bool_decide_eq_false_2 by done. cbn [negb].
      eexists; split; [done|]. rewrite Hpar.
      assert (qlen pn < 2 * i) as Hlt.
      { destruct (decide (qlen pn = 2 * i)) as [E|E]; [|lia].
        specialize (Hhi E). rewrite Hkhi, HKhi in Hhi. by simplify_eq. }
      eapply (ws_edge pp pn (br_own nd) nod nd k (2 * i)); eauto; try lia.
      * eapply (on_path_up nod nd k (2 * i)); eauto; lia.
      * rewrite <- Hnibp. symmetry. by apply Hag.
      * intros _. rewrite Hkhi, HKhi. by intros [= ?].
Qed.

Lemma while_spec fuel i b nod q :
  2 ≤ fuel → K !! i = Some b → at_head i nod q →
  ∃ r, trace_while KeyTracing fuel t (length K) slob i b nod q false = Ok r ∧
    match r with
    | Leave e => walk_spec e
    | Go c q' fb => at_cmp i c q' fb
    end.
Proof.
  intros Hfuel Hb (nd & Hnod & Hq & Hnr).
  assert (i < length K) as Hi by (by apply lookup_lt_Some in Hb).
  pose proof (nibble_hi _ _ _ Hb) as HKhi.
  pose proof (nibble_lo _ _ _ Hb) as HKlo.
  destruct (decide (2 ≤ q)) as [Hq2|Hq2].
  { (* no branching *)
    rewrite trace_while_done by done. eexists; split; [done|].
    assert (nod ≠ m_root) as Hne by (eapply nonroot_of_qlen; [done|lia]).
    destruct (Hnr Hne) as [(k & Hk & Hag) Hpar].
    destruct (wf_up _ _ Hnod Hne) as (pp & pn & k' & Hp1 & Hp2 & _).
    exists nd, k, pp, pn. repeat split; try done.
    - specialize (Hpar _ _ Hp1 Hp2). lia.
    - specialize (Hpar _ _ Hp1 Hp2). lia. }
  destruct fuel as [|fuel]; [lia|].
  assert (q = 0 ∨ q = 1) as [-> | ->] by lia.
  - (* branch on the high half-byte *)
    assert (on_path nod nd) as Hon.
    { split; [lia|]. destruct (decide (nod = m_root)); [by left|right].
      destruct (Hnr n) as [(k & Hk & Hag) _]. exists k. split; [done|].
      by rewrite Hq, Nat.add_0_r. }
    cbn [trace_while]. change (2 <=? 0) with false. cbv iota.
    rewrite (deref_Some _ _ Hnod). cbn [mbind res_bind]. change (0 =? 0) with true. cbv iota.
    destruct (branch nd (hi b)) as [c|] eqn:Hbr.
    + destruct (wf_branch _ _ _ _ Hnod Hbr)
        as (cn & kc & Hc & Hcpar & Hcown & Hcne & Hcq & Hkc & Hkclen & Hkcnib & Hkcag).
      rewrite (deref_Some _ _ Hc). cbn [mbind res_bind].
      rewrite Hq, Nat.add_0_r in Hkcnib.
      assert (agree kc K (2 * i)) as Hag0.
      { destruct (decide (nod = m_root)) as [->|Hne].
        - rewrite (root_qlen _ Hnod) in Hq. replace (2 * i) with 0 by lia.
          intros p Hp. lia.
        - destruct (Hnr Hne) as [(k & Hk & Hag) _].
          eapply agree_trans; [apply agree_sym|done].
          specialize (Hkcag _ Hk). eapply agree_mono; [done|lia]. }
      assert (agree kc K (2 * i + 1)) as Hag1.
      { replace (2 * i + 1) with (S (2 * i)) by lia. apply agree_S; [done|].
        by rewrite Hkcnib, HKhi. }
      destruct (is_slobby KeyTracing && slob && is_leaf cn) eqn:Hsl.
      * eexists; split; [done|].
        apply andb_true_iff in Hsl as [Hsl Hleaf].
        eapply (ws_slob nod nd (hi b) c cn (2 * i)); eauto; try lia.
        -- by rewrite Hq, Nat.add_0_r.
        -- intros Hne. destruct (Hnr Hne) as [(k & Hk & Hag) Hpar].
           destruct (wf_up _ _ Hnod Hne) as (pp & pn & k' & Hp1 & Hp2 & _).
           exists k, pp, pn. repeat split; try done. by eapply Hpar.
      * assert ((qlen cn <? 2 * i) = false) as -> by (apply Nat.ltb_ge; lia).
        change (0 <? 0) with false.
        destruct (decide (2 ≤ qlen cn - 2 * i)) as [Hq2'|Hq2'].
        -- rewrite trace_while_done by lia.
           eexists; split; [done|].
           exists cn, kc, nod, nd. repeat split; try done; try lia.
           intros _. by rewrite Hkcnib, HKhi.
        -- replace (qlen cn - 2 * i) with 1 by lia.
           eapply (while_low _ _ _ c cn kc nod nd); eauto; try lia.
           intros _. by rewrite Hkcnib, HKhi.
    + eexists; split; [done|].
      replace (2 * i + 0) with (qlen nd) by lia.
      eapply ws_slot; eauto; [lia|]. rewrite Hq, Nat.add_0_r. done.
  - assert (nod ≠ m_root) as Hne by (eapply nonroot_of_qlen; [done|lia]).
    destruct (Hnr Hne) as [(k & Hk & Hag) Hpar].
    destruct (wf_up _ _ Hnod Hne) as (pp & pn & k' & Hp1 & Hp2 & _).
    specialize (Hpar _ _ Hp1 Hp2).
    eapply (while_low _ _ _ nod nd k pp pn); eauto; lia.
Qed.


Lemma trace_for_step fuel n i b nod q :
  2 ≤ fuel → K !! i = Some b → at_head i nod q →
  (∃ e, trace_for KeyTracing fuel t K (length K) slob (S n) i nod q = Ok e ∧
        walk_spec e) ∨
  (∃ c q', trace_for KeyTracing fuel t K (length K) slob (S n) i nod q =
             trace_for KeyTracing fuel t K (length K) slob n (S i) c q' ∧
           at_head (S i) c q').
Proof.
  intros Hfuel Hb Hhead.
  assert (i < length K) as Hi by (by apply lookup_lt_Some in Hb).
  pose proof (nibble_hi _ _ _ Hb) as HKhi.
  pose proof (nibble_lo _ _ _ Hb) as HKlo.
  cbn [trace_for]. rewrite Hb. cbn [of_option mbind res_bind].
  destruct (while_spec fuel i b nod q Hfuel Hb Hhead) as (r & -> & Hr).
  cbn [mbind res_bind].
  destruct r as [e|c q' fb]; [left; eauto|].
  destruct Hr as (cn & kc & pp & pn & Hc & Hcne & Hkc & Hcq & Hq2 & Hag & Hpar & Hpp & Hfb).
  rewrite (deref_Some _ _ Hc). cbn [mbind res_bind].
  destruct (wf_up _ _ Hc Hcne)
    as (pp' & pn' & k' & ? & ? & Hbrp & Hqlt & ? & Hklen & Hnibp & Hagp).
  simplify_eq.
  destruct (key_byte kc i) as [kb Hkb]; [lia|].
  pose proof (nibble_hi _ _ _ Hkb) as Hkhi.
  pose proof (nibble_lo _ _ _ Hkb) as Hklo.
  unfold key_at. rewrite Hkc, Hkb. cbn [of_option mbind res_bind].
  rewrite bxor_zero.
  destruct (decide (kb = b)) as [->|Hneq].
  { rewrite bool_decide_eq_true_2 by done. cbn [negb]. right.
    exists c, (q' - 2). split; [done|].
    exists cn. split; [done|]. split; [lia|]. intros _. split.
    - exists kc. split; [done|]. replace (2 * S i) with (2 * i + 2) by lia.
      by eapply agree_byte.
    - intros pp' pn' ? ?. simplify_eq. destruct fb; lia. }
  rewrite bool_decide_eq_false_2 by done. cbn [negb]. left.
  rewrite bxor_high_zero.
  destruct fb.
  - (* the branch was taken half a byte ahead *)
    destruct Hfb as (Hqp & Hlo & Hgp).
    rewrite Hpar. cbn [deref_opt]. rewrite (deref_Some _ _ Hpp). cbn [mbind res_bind].
    assert (pp ≠ m_root) as Hpne by (eapply nonroot_of_qlen; [done|lia]).
    destruct (wf_up _ _ Hpp Hpne)
      as (gp & gn & kp & Hgpar & Hgn & Hbrg & Hqg & Hkp & Hkplen & Hnibg & Hagg).
    rewrite Hgpar.
    destruct (Hgp _ _ Hgpar Hgn) as [Hqg' Hhi].
    specialize (Hagp _ Hkp). rewrite Hqp in Hagp.
    assert (lo kb = lo b) as Elo by (rewrite Hklo, HKlo in Hlo; by simplify_eq).
    assert (hi kb ≠ hi b) as Ehi by (intros E; by apply Hneq, byte_halves).
    rewrite bool_decide_eq_false_2 by done.
    eexists; split; [done|]. rewrite Nat.add_0_r.
    assert (qlen gn < 2 * i) as Hlt.
    { destruct (decide (qlen gn = 2 * i)) as [E|E]; [|lia].
      specialize (Hhi E). rewrite Hkhi, HKhi in Hhi. by simplify_eq. }
    assert (agree kp K (2 * i)) as Hagk.
    { eapply agree_trans; [eapply agree_mono; [done|lia]|done]. }
    eapply (ws_edge gp gn (br_own pn) pp pn kp (2 * i)); eauto; try lia.
    + eapply (on_path_up pp pn kp (2 * i)); eauto; lia.
    + rewrite <- Hnibg. symmetry. by apply Hagk.
    + intros _. rewrite (Hagp (2 * i)) by lia. rewrite Hkhi, HKhi. by intros [= ?].
  - destruct Hfb as (Hqp & Hhi).
    rewrite Hpar. eexists. split; [done|].
    destruct (decide (hi kb = hi b)) as [Ehi|Ehi].
    + rewrite bool_decide_eq_true_2 by done.
      assert (lo kb ≠ lo b) as Elo by (intros E; by apply Hneq, byte_halves).
      assert (agree kc K (2 * i + 1)) as Hag1.
      { replace (2 * i + 1) with (S (2 * i)) by lia. apply agree_S; [done|].
        by rewrite Hkhi, HKhi, Ehi. }
      eapply (ws_edge pp pn (br_own cn) c cn kc (2 * i + 1)); eauto; try lia.
      * eapply (on_path_up c cn kc (2 * i)); eauto; lia.
      * rewrite <- Hnibp. symmetry. apply Hag1. lia.
      * intros _. rewrite Hklo, HKlo. by intros [= ?].
    + rewrite bool_decide_eq_false_2 by done. rewrite Nat.add_0_r.
      assert (qlen pn < 2 * i) as Hlt.
      { destruct (decide (qlen pn = 2 * i)) as [E|E]; [|lia].
        specialize (Hhi E). rewrite Hkhi, HKhi in Hhi. by simplify_eq. }
      eapply (ws_edge pp pn (br_own cn) c cn kc (2 * i)); eauto; try lia.
      * eapply (on_path_up c cn kc (2 * i)); eauto; lia.
      * rewrite <- Hnibp. symmetry. by apply Hag.
      * intros _. rewrite Hkhi, HKhi. by intros [= ?].
Qed.

Lemma trace_for_sound fuel n i nod q :
  2 ≤ fuel → i + n = length K → at_head i nod q →
  ∃ e, trace_for KeyTracing fuel t K (length K) slob n i nod q = Ok e ∧
       walk_spec e.
Proof.
  intros Hfuel. revert i nod q. induction n as [|n IH]; intros i nod q Hlen Hhead.
  - destruct Hhead as (nd & Hnod & Hq & Hnr).
    cbn [trace_for]. rewrite (deref_Some _ _ Hnod). cbn [mbind res_bind].
    assert (i = length K) as -> by lia.
    destruct (decide (q = 0)) as [->|Hq0].
    + change (0 =? 0) with true. cbv iota. eexists; split; [done|].
      eapply ws_hit; eauto; [|lia].
      split; [lia|]. destruct (decide (nod = m_root)) as [|Hne]; [by left|right].
      destruct (Hnr Hne) as [(k & Hk & Hag) _]. exists k. split; [done|].
      by rewrite Hq, Nat.add_0_r.
    + assert ((q =? 0) = false) as -> by (by apply Nat.eqb_neq).
      assert (nod ≠ m_root) as Hne by (eapply nonroot_of_qlen; [done|lia]).
      destruct (Hnr Hne) as [(k & Hk & Hag) Hpar].
      destruct (wf_up _ _ Hnod Hne)
        as (pp & pn & k' & Hp1 & Hp2 & Hbrp & Hqlt & ? & Hklen & Hnibp & Hagp).
      simplify_eq. specialize (Hpar _ _ Hp1 Hp2).
      rewrite Hp1. eexists; split; [done|].
      eapply (ws_edge pp pn (br_own nd) nod nd k (2 * length K)); eauto; try lia.
      * eapply (on_path_up nod nd k (2 * length K)); eauto; lia.
      * rewrite <- Hnibp. symmetry. by apply Hag.
  - destruct (key_byte K i) as [b Hb]; [lia|].
    destruct (trace_for_step fuel n i b nod q Hfuel Hb Hhead)
      as [(e & He & Hs)|(c & q' & -> & Hhead')]; [eauto|].
    apply IH; [lia|done].
Qed.

Theorem trace_walk_sound fuel :
  2 ≤ fuel →
  ∃ e, trace_walk KeyTracing fuel t K (length K) slob = Ok e ∧ walk_spec e.
Proof.
  intros Hfuel. unfold trace_walk. apply trace_for_sound; [done|lia|].
  destruct (wf_has_root _ _ _ _ Hwf) as [r Hr].
  exists r. split; [done|]. split; [|done].
  rewrite (root_qlen _ Hr). lia.
Qed.

End Walk.

Arguments wf_branch {T key_fn strict hole t} Hwf {p n ix c}.
Arguments wf_up {T key_fn strict hole t} Hwf {p n}.
Arguments root_qlen {T key_fn strict hole t} Hwf {n}.
Arguments nonroot_of_qlen {T key_fn strict hole t} Hwf {p n}.
Arguments nonroot_key {T key_fn strict hole t} Hwf {p n}.
Arguments wf_node {T key_fn strict hole t} Hwf {p n}.

(** *** Reading a field of an updated node *)

Lemma item_set_branch i v n : item (set_branch i v n) = item n.
Proof. reflexivity. Qed.
Lemma key_set_branch i v n : key (set_branch i v n) = key n.
Proof. reflexivity. Qed.
Lemma qlen_set_branch i v n : qlen (set_branch i v n) = qlen n.
Proof. reflexivity. Qed.
Lemma parent_set_branch i v n : parent (set_branch i v n) = parent n.
Proof. reflexivity. Qed.
Lemma branches_set_branch i v n : branches (set_branch i v n) = <[i := v]> (branches n).
Proof. reflexivity. Qed.
Lemma br_1st_set_branch i v n : br_1st (set_branch i v n) = br_1st n.
Proof. reflexivity. Qed.
Lemma br_last_set_branch i v n : br_last (set_branch i v n) = br_last n.
Proof. reflexivity. Qed.
Lemma br_own_set_branch i v n : br_own (set_branch i v n) = br_own n.
Proof. reflexivity. Qed.
Lemma is_leaf_set_branch i v n : is_leaf (set_branch i v n) = is_leaf n.
Proof. reflexivity. Qed.
Lemma has_only_son_set_branch i v n : has_only_son (set_branch i v n) = has_only_son n.
Proof. reflexivity. Qed.
Lemma item_set_parent a n : item (set_parent a n) = item n.
Proof. reflexivity. Qed.
Lemma key_set_parent a n : key (set_parent a n) = key n.
Proof. reflexivity. Qed.
Lemma qlen_set_parent a n : qlen (set_parent a n) = qlen n.
Proof. reflexivity. Qed.
Lemma parent_set_parent a n : parent (set_parent a n) = a.
Proof. reflexivity. Qed.
Lemma branches_set_parent a n : branches (set_parent a n) = branches n.
Proof. reflexivity. Qed.
Lemma br_1st_set_parent a n : br_1st (set_parent a n) = br_1st n.
Proof. reflexivity. Qed.
Lemma br_last_set_parent a n : br_last (set_parent a n) = br_last n.
Proof. reflexivity. Qed.
Lemma br_own_set_parent a n : br_own (set_parent a n) = br_own n.
Proof. reflexivity. Qed.
Lemma is_leaf_set_parent a n : is_leaf (set_parent a n) = is_leaf n.
Proof. reflexivity. Qed.
Lemma has_only_son_set_parent a n : has_only_son (set_parent a n) = has_only_son n.
Proof. reflexivity. Qed.
Lemma branch_set_parent a n j : branch (set_parent a n) j = branch n j.
Proof. reflexivity. Qed.
Lemma item_set_key a n : item (set_key a n) = item n.
Proof. reflexivity. Qed.
Lemma key_set_key a n : key (set_key a n) = a.
Proof. reflexivity. Qed.
Lemma qlen_set_key a n : qlen (set_key a n) = qlen n.
Proof. reflexivity. Qed.
Lemma parent_set_key a n : parent (set_key a n) = parent n.
Proof. reflexivity. Qed.
Lemma branches_set_key a n : branches (set_key a n) = branches n.
Proof. reflexivity. Qed.
Lemma br_1st_set_key a n : br_1st (set_key a n) = br_1st n.
Proof. reflexivity. Qed.
Lemma br_last_set_key a n : br_last (set_key a n) = br_last n.
Proof. reflexivity. Qed.
Lemma br_own_set_key a n : br_own (set_key a n) = br_own n.
Proof. reflexivity. Qed.
Lemma is_leaf_set_key a n : is_leaf (set_key a n) = is_leaf n.
Proof. reflexivity. Qed.
Lemma has_only_son_set_key a n : has_only_son (set_key a n) = has_only_son n.
Proof. reflexivity. Qed.
Lemma branch_set_key a n j : branch (set_key a n) j = branch n j.
Proof. reflexivity. Qed.
Lemma item_set_item a n : item (set_item a n) = a.
Proof. reflexivity. Qed.
Lemma key_set_item a n : key (set_item a n) = key n.
Proof. reflexivity. Qed.
Lemma qlen_set_item a n : qlen (set_item a n) = qlen n.
Proof. reflexivity. Qed.
Lemma parent_set_item a n : parent (set_item a n) = parent n.
Proof. reflexivity. Qed.
Lemma branches_set_item a n : branches (set_item a n) = branches n.
Proof. reflexivity. Qed.
Lemma br_1st_set_item a n : br_1st (set_item a n) = br_1st n.
Proof. reflexivity. Qed.
Lemma br_last_set_item a n : br_last (set_item a n) = br_last n.
Proof. reflexivity. Qed.
Lemma br_own_set_item a n : br_own (set_item a n) = br_own n.
Proof. reflexivity. Qed.
Lemma is_leaf_set_item a n : is_leaf (set_item a n) = is_leaf n.
Proof. reflexivity. Qed.
Lemma has_only_son_set_item a n : has_only_son (set_item a n) = has_only_son n.
Proof. reflexivity. Qed.
Lemma branch_set_item a n j : branch (set_item a n) j = branch n j.
Proof. reflexivity. Qed.
Lemma item_set_br_1st ix n : item (set_br_1st ix n) = item n.
Proof. reflexivity. Qed.
Lemma key_set_br_1st ix n : key (set_br_1st ix n) = key n.
Proof. reflexivity. Qed.
Lemma qlen_set_br_1st ix n : qlen (set_br_1st ix n) = qlen n.
Proof. reflexivity. Qed.
Lemma parent_set_br_1st ix n : parent (set_br_1st ix n) = parent n.
Proof. reflexivity. Qed.
Lemma branches_set_br_1st ix n : branches (set_br_1st ix n) = branches n.
Proof. reflexivity. Qed.
Lemma branch_set_br_1st ix n j : branch (set_br_1st ix n) j = branch n j.
Proof. reflexivity. Qed.
Lemma item_set_br_last ix n : item (set_br_last ix n) = item n.
Proof. reflexivity. Qed.
Lemma key_set_br_last ix n : key (set_br_last ix n) = key n.
Proof. reflexivity. Qed.
Lemma qlen_set_br_last ix n : qlen (set_br_last ix n) = qlen n.
Proof. reflexivity. Qed.
Lemma parent_set_br_last ix n : parent (set_br_last ix n) = parent n.
Proof. reflexivity. Qed.
Lemma branches_set_br_last ix n : branches (set_br_last ix n) = branches n.
Proof. reflexivity. Qed.
Lemma branch_set_br_last ix n j : branch (set_br_last ix n) j = branch n j.
Proof. reflexivity. Qed.
Lemma item_set_br_own ix n : item (set_br_own ix n) = item n.
Proof. reflexivity. Qed.
Lemma key_set_br_own ix n : key (set_br_own ix n) = key n.
Proof. reflexivity. Qed.
Lemma qlen_set_br_own ix n : qlen (set_br_own ix n) = qlen n.
Proof. reflexivity. Qed.
Lemma parent_set_br_own ix n : parent (set_br_own ix n) = parent n.
Proof. reflexivity. Qed.
Lemma branches_set_br_own ix n : branches (set_br_own ix n) = branches n.
Proof. reflexivity. Qed.
Lemma branch_set_br_own ix n j : branch (set_br_own ix n) j = branch n j.
Proof. reflexivity. Qed.
Lemma item_br_set f l n : item (br_set f l n) = item n.
Proof. reflexivity. Qed.
Lemma key_br_set f l n : key (br_set f l n) = key n.
Proof. reflexivity. Qed.
Lemma qlen_br_set f l n : qlen (br_set f l n) = qlen n.
Proof. reflexivity. Qed.
Lemma parent_br_set f l n : parent (br_set f l n) = parent n.
Proof. reflexivity. Qed.
Lemma branches_br_set f l n : branches (br_set f l n) = branches n.
Proof. reflexivity. Qed.
Lemma branch_br_set f l n j : branch (br_set f l n) j = branch n j.
Proof. reflexivity. Qed.

Create Rewrite HintDb node.
#[global] Hint Rewrite
  item_set_branch key_set_branch qlen_set_branch parent_set_branch
  branches_set_branch br_1st_set_branch br_last_set_branch br_own_set_branch
  is_leaf_set_branch has_only_son_set_branch item_set_parent key_set_parent
  qlen_set_parent parent_set_parent branches_set_parent br_1st_set_parent
  br_last_set_parent br_own_set_parent is_leaf_set_parent has_only_son_set_parent
  branch_set_parent item_set_key key_set_key qlen_set_key
  parent_set_key branches_set_key br_1st_set_key br_last_set_key
  br_own_set_key is_leaf_set_key has_only_son_set_key branch_set_key
  item_set_item key_set_item qlen_set_item parent_set_item
  branches_set_item br_1st_set_item br_last_set_item br_own_set_item
  is_leaf_set_item has_only_son_set_item branch_set_item item_set_br_1st
  key_set_br_1st qlen_set_br_1st parent_set_br_1st branches_set_br_1st
  branch_set_br_1st item_set_br_last key_set_br_last qlen_set_br_last
  parent_set_br_last branches_set_br_last branch_set_br_last item_set_br_own
  key_set_br_own qlen_set_br_own parent_set_br_own branches_set_br_own
  branch_set_br_own item_br_set key_br_set qlen_br_set
  parent_br_set branches_br_set branch_br_set
  : node.
#[global] Hint Rewrite
  br_1st_set_br_1st br_last_set_br_1st br_own_set_br_1st
  br_1st_set_br_last br_last_set_br_last br_own_set_br_last
  br_1st_set_br_own br_last_set_br_own br_own_set_br_own
  br_1st_br_set br_last_br_set br_own_br_set
  br_1st_new_node br_last_new_node br_own_new_node
  using lia : node.

(** *** Branch slots *)

Lemma branch_set_branch n i v j :
  i < length (branches n) →
  branch (set_branch i v n) j = if decide (i = j) then v else branch n j.
Proof.
  intros Hi. unfold branch, set_branch. cbn [branches].
  case_decide as E.
  - subst. by rewrite list_lookup_insert_eq.
  - by rewrite list_lookup_insert_ne.
Qed.

Lemma branch_Some_lt n i c : branch n i = Some c → i < length (branches n).
Proof.
  unfold branch. intros H. destruct (branches n !! i) eqn:E; [|done].
  by apply lookup_lt_Some in E.
Qed.

Lemma branch_replicate i : default None (replicate 16 (@None ptr) !! i) = None.
Proof.
  destruct (replicate 16 (@None ptr) !! i) as [o|] eqn:E; [|done].
  apply lookup_replicate in E as [-> _]. done.
Qed.

Lemma branch_new_node it k q par o f l i : branch (new_node it k q par o f l) i = None.
Proof. apply branch_replicate. Qed.

(** The cache update of [insert_node] before a new leaf is linked at [ix]. *)
Definition grow (ix : nat) (n : node) : node :=
  if is_leaf n then br_set ix ix n
  else
    let n1 := if ix <? br_1st n then set_br_1st ix n else n in
    if br_last n1 <? ix then set_br_last ix n1 else n1.

Lemma grow_fields ix n :
  item (grow ix n) = item n ∧ key (grow ix n) = key n ∧ qlen (grow ix n) = qlen n ∧
  parent (grow ix n) = parent n ∧ branches (grow ix n) = branches n.
Proof.
  unfold grow. destruct (is_leaf n); [done|].
  destruct (ix <? br_1st n); cbn zeta.
  - destruct (br_last (set_br_1st ix n) <? ix); done.
  - destruct (br_last n <? ix); done.
Qed.

Lemma item_grow ix n : item (grow ix n) = item n.
Proof. apply grow_fields. Qed.
Lemma key_grow ix n : key (grow ix n) = key n.
Proof. apply grow_fields. Qed.
Lemma qlen_grow ix n : qlen (grow ix n) = qlen n.
Proof. apply grow_fields. Qed.
Lemma parent_grow ix n : parent (grow ix n) = parent n.
Proof. apply grow_fields. Qed.
Lemma branches_grow ix n : branches (grow ix n) = branches n.
Proof. apply grow_fields. Qed.
Lemma branch_grow ix n i : branch (grow ix n) i = branch n i.
Proof. unfold branch. by rewrite branches_grow. Qed.

Lemma grow_attrs ix n :
  ix < 16 →
  br_own (grow ix n) = br_own n ∧
  (if is_leaf n then br_1st (grow ix n) = ix ∧ br_last (grow ix n) = ix
   else br_1st (grow ix n) = br_1st n `min` ix ∧ br_last (grow ix n) = br_last n `max` ix).
Proof.
  intros Hix. unfold grow. destruct (is_leaf n) eqn:Hleaf.
  - by rewrite br_own_br_set, br_1st_br_set, br_last_br_set.
  - cbn zeta. destruct (Nat.ltb_spec ix (br_1st n)) as [H1|H1].
    + rewrite br_last_set_br_1st by done.
      destruct (Nat.ltb_spec (br_last n) ix) as [H2|H2].
      * rewrite br_own_set_br_last, br_1st_set_br_last, br_last_set_br_last,
          br_own_set_br_1st, br_1st_set_br_1st by done. lia.
      * rewrite br_own_set_br_1st, br_1st_set_br_1st, br_last_set_br_1st by done. lia.
    + destruct (Nat.ltb_spec (br_last n) ix) as [H2|H2].
      * rewrite br_own_set_br_last, br_1st_set_br_last, br_last_set_br_last by done. lia.
      * lia.
Qed.

Lemma br_own_grow ix n : ix < 16 → br_own (grow ix n) = br_own n.
Proof. intros H. by destruct (grow_attrs ix n H). Qed.

#[global] Hint Rewrite item_grow key_grow qlen_grow parent_grow branches_grow
  branch_grow : node.
#[global] Hint Rewrite br_own_grow using lia : node.

Lemma cache_add n ix l :
  cache_ok n → length (branches n) = 16 → ix < 16 → branch n ix = None →
  let n' := set_branch ix (Some l) (grow ix n) in
  cache_ok n' ∧ is_leaf n' = false ∧ (is_leaf n = false → br_1st n' < br_last n').
Proof.
  intros Hc Hlen Hix Hbr n'.
  assert (∀ j, branch n' j = if decide (ix = j) then Some l else branch n j) as Hb.
  { intros j. unfold n'. rewrite branch_set_branch.
    - by rewrite branch_grow.
    - rewrite (proj2 (proj2 (proj2 (proj2 (grow_fields ix n))))). lia. }
  assert (br_1st n' = br_1st (grow ix n)) as H1 by done.
  assert (br_last n' = br_last (grow ix n)) as H2 by done.
  destruct (grow_attrs ix n Hix) as [_ Hat].
  unfold cache_ok, is_leaf in *.
  destruct (Nat.ltb_spec (br_last n) (br_1st n)) as [Hl|Hl].
  - destruct Hat as [E1 E2]. rewrite H1, H2, E1, E2.
    assert ((ix <? ix) = false) as -> by (apply Nat.ltb_ge; lia).
    split; [|split; [done|lia]].
    rewrite Hb. rewrite decide_True by done. split; [done|split; [done|]].
    intros i [c Hi]. rewrite Hb in Hi. case_decide; [lia|]. by rewrite Hc in Hi.
  - destruct Hat as [E1 E2]. rewrite H1, H2, E1, E2.
    destruct Hc as (Hf & Hla & Hr).
    assert ((br_last n `max` ix <? br_1st n `min` ix) = false) as ->
      by (apply Nat.ltb_ge; lia).
    split; [|split; [done|]].
    + split; [|split].
      * rewrite Hb. case_decide; [done|].
        replace (br_1st n `min` ix) with (br_1st n) by lia. done.
      * rewrite Hb. case_decide; [done|].
        replace (br_last n `max` ix) with (br_last n) by lia. done.
      * intros i Hi. rewrite Hb in Hi. case_decide; [lia|].
        specialize (Hr i Hi). lia.
    + intros _. assert (ix ≠ br_1st n) by (intros ->; rewrite Hbr in Hf; by destruct Hf).
      lia.
Qed.

Lemma cache_replace n ix c y :
  cache_ok n → branch n ix = Some c → cache_ok (set_branch ix (Some y) n).
Proof.
  intros Hc Hbr.
  assert (∀ j, is_Some (branch (set_branch ix (Some y) n) j) ↔ is_Some (branch n j)) as Hb.
  { intros j. rewrite branch_set_branch by (by eapply branch_Some_lt).
    case_decide; [subst; rewrite Hbr|]; done. }
  unfold cache_ok in *. change (is_leaf (set_branch ix (Some y) n)) with (is_leaf n).
  destruct (is_leaf n).
  - by rewrite Hc in Hbr.
  - change (br_1st (set_branch ix (Some y) n)) with (br_1st n).
    change (br_last (set_branch ix (Some y) n)) with (br_last n).
    destruct Hc as (Hf & Hla & Hr). rewrite !Hb. split; [done|split; [done|]].
    intros i Hi. apply Hr. by apply Hb.
Qed.

Lemma cache_set_br_own n ix a :
  ix < 16 → cache_ok n → cache_ok (set_parent a (set_br_own ix n)).
Proof.
  intros Hix Hc. unfold cache_ok, is_leaf in *. by autorewrite with node.
Qed.

Section Structure.

Context {T : Type}.
Variable key_fn : T -> list byte.
Variable strict : bool.

Implicit Types (t : trie T) (p c : ptr) (n : node) (hole : option ptr).

Lemma parent_ne hole t p n pp :
  wf key_fn strict hole t → nodes t !! p = Some n → parent n = Some pp → pp ≠ p.
Proof.
  intros Hwf Hp Hpar ->.
  assert (p ≠ m_root) as Hne.
  { intros ->. destruct (wf_root _ _ _ _ _ _ (wf_node Hwf Hp)); [done|congruence]. }
  destruct (wf_up Hwf Hp Hne) as (pp & pn & k & ? & ? & ? & ? & _).
  simplify_eq. lia.
Qed.

Lemma handle_fresh hole t p n h :
  wf key_fn strict hole t → nodes t !! p = Some n → item n = Some h →
  (h < next_item t)%positive.
Proof.
  intros Hwf Hp Hi.
  destruct (wf_item _ _ _ _ _ _ (wf_node Hwf Hp) _ Hi) as (x & Hx & _).
  by eapply wf_items_fresh.
Qed.

(** Installing an entry in a node, over the one it may hold (the effect of
    [insert_item]). *)
Lemma wf_install hole t p n x :
  wf key_fn strict hole t → nodes t !! p = Some n →
  qlen n ≤ 2 * length (key_fn x) →
  (strict = true → qlen n = 2 * length (key_fn x)) →
  (p ≠ m_root → ∃ k, key n = Some k ∧ agree k (key_fn x) (qlen n)) →
  hole = None ∨ hole = Some p →
  wf key_fn strict None
    (mk_trie (<[next_item t := x]> (m_items t)) (Pos.succ (next_item t))
       (<[p := set_item (Some (next_item t)) (set_key (Some (key_fn x)) n)]> (nodes t))
       (next_node t)).
Proof.
  intros Hwf Hp Hlen Hstrict Hkey Hhole.
  set (K := key_fn x) in *.
  set (n1 := set_item _ _).
  assert (∀ c cn i, nodes t !! c = Some cn → edge_ok p n i cn → edge_ok p n1 i cn) as Hdown.
  { intros c cn i Hc (Hpar & Hown & Hq & kc & Hkc & Hkl & Hnib & Hag).
    repeat split; try done. exists kc. repeat split; try done.
    intros k [= <-]. cbn [qlen n1 set_item set_key].
    destruct (decide (p = m_root)) as [->|Hne].
    - rewrite (root_qlen Hwf Hp). intros ? ?. lia.
    - destruct (Hkey Hne) as (k0 & Hk0 & Hag0).
      eapply agree_trans; [apply agree_sym, Hag0|]. by apply Hag. }
  assert (∀ pp pn i, nodes t !! pp = Some pn → edge_ok pp pn i n → edge_ok pp pn i n1) as Hup.
  { intros pp pn i Hpp (Hpar & Hown & Hq & kc & Hkc & Hkl & Hnib & Hag).
    repeat split; try done. exists K. repeat split; try done.
    - assert (p ≠ m_root) as Hne by (eapply (nonroot_of_qlen Hwf); [done|lia]).
      destruct (Hkey Hne) as (k0 & Hk0 & Hag0). simplify_eq.
      rewrite <- Hnib. symmetry. by apply Hag0.
    - intros kp Hkp.
      assert (p ≠ m_root) as Hne by (eapply (nonroot_of_qlen Hwf); [done|lia]).
      destruct (Hkey Hne) as (k0 & Hk0 & Hag0). simplify_eq.
      eapply agree_trans; [by apply Hag|]. eapply agree_mono; [done|lia]. }
  split; cbn [nodes m_items next_item next_node].
  - destruct (decide (p = m_root)) as [->|Hne].
    + rewrite lookup_insert_eq. by eexists.
    + rewrite lookup_insert_ne by done. apply Hwf.
  - intros p' n' Hp'.
    destruct (decide (p' = p)) as [->|Hne].
    + rewrite lookup_insert_eq in Hp'. injection Hp' as <-.
      pose proof (wf_node Hwf Hp) as [Wlen Wcache Wdown Wroot Wup Wint Witem Wfresh].
      split; cbn [nodes m_items next_item next_node]; try done.
      * intros i c Hbr. destruct (Wdown i c Hbr) as (cn & Hc & He).
        assert (c ≠ p) as Hcp.
        { intros ->. destruct He as (Hpar & _). by eapply parent_ne. }
        exists cn. rewrite lookup_insert_ne by done. split; [done|]. by eapply Hdown.
      * intros Hne. destruct (Wup Hne) as (pp & pn & Hpar & Hpp & Hbr).
        assert (pp ≠ p) by (by eapply parent_ne).
        exists pp, pn. rewrite lookup_insert_ne by done. done.
      * intros h [= <-]. exists x. rewrite lookup_insert_eq. split; [done|].
        intros Hs. split; [done|]. by apply Hstrict.
    + rewrite lookup_insert_ne in Hp' by done.
      pose proof (wf_node Hwf Hp') as [Wlen Wcache Wdown Wroot Wup Wint Witem Wfresh].
      split; cbn [nodes m_items next_item next_node]; try done.
      * intros i c Hbr. destruct (Wdown i c Hbr) as (cn & Hc & He).
        destruct (decide (c = p)) as [->|Hcp].
        -- exists n1. rewrite lookup_insert_eq. split; [done|]. simplify_eq. by eapply Hup.
        -- exists cn. rewrite lookup_insert_ne by done. done.
      * intros Hne'. destruct (Wup Hne') as (pp & pn & Hpar & Hpp & Hbr).
        destruct (decide (pp = p)) as [->|Hpp'].
        -- exists p, n1. rewrite lookup_insert_eq. simplify_eq. done.
        -- exists pp, pn. rewrite lookup_insert_ne by done. done.
      * intros Hne' Hi _. apply Wint; try done. destruct Hhole; congruence.
      * intros h Hh. destruct (Witem h Hh) as (x' & Hx' & Hs).
        exists x'. split; [|done]. rewrite lookup_insert_ne; [done|].
        pose proof (handle_fresh _ _ _ _ _ Hwf Hp' Hh). lia.
  - intros p1 m1 p2 m2 h H1 H2 Hi1 Hi2.
    destruct (decide (p1 = p)) as [->|Hne1], (decide (p2 = p)) as [->|Hne2]; try done.
    + rewrite lookup_insert_eq in H1. rewrite lookup_insert_ne in H2 by done.
      simplify_eq. cbn in Hi1. simplify_eq.
      pose proof (handle_fresh _ _ _ _ _ Hwf H2 Hi2). lia.
    + rewrite lookup_insert_eq in H2. rewrite lookup_insert_ne in H1 by done.
      simplify_eq. cbn in Hi2. simplify_eq.
      pose proof (handle_fresh _ _ _ _ _ Hwf H1 Hi1). lia.
    + rewrite lookup_insert_ne in H1, H2 by done.
      by eapply (wf_handles _ _ _ _ Hwf).
  - intros h x' Hx'.
    destruct (decide (h = next_item t)) as [->|Hne]; [lia|].
    rewrite lookup_insert_ne in Hx' by done.
    pose proof (wf_items_fresh _ _ _ _ Hwf _ _ Hx'). lia.
Qed.


(** A node that an update does not touch stays well-formed when its
    neighbours keep what its edges mention. *)
Lemma node_wf_frame t t' hole hole' p n :
  node_wf key_fn strict t hole p n →
  (∀ i c cn, branch n i = Some c → nodes t !! c = Some cn → edge_ok p n i cn →
     ∃ cn', nodes t' !! c = Some cn' ∧ edge_ok p n i cn') →
  (∀ pp pn, parent n = Some pp → nodes t !! pp = Some pn →
     branch pn (br_own n) = Some p →
     ∃ pn', nodes t' !! pp = Some pn' ∧ branch pn' (br_own n) = Some p) →
  (∀ h x, item n = Some h → m_items t !! h = Some x → m_items t' !! h = Some x) →
  (next_node t ≤ next_node t')%positive →
  (hole = Some p → hole' = Some p) →
  node_wf key_fn strict t' hole' p n.
Proof.
  intros [Wlen Wcache Wdown Wroot Wup Wint Witem Wfresh] Hd Hu Hi Hn Hh.
  split; try done.
  - intros i c Hbr. destruct (Wdown i c Hbr) as (cn & Hc & He). by eapply Hd.
  - intros Hne. destruct (Wup Hne) as (pp & pn & Hpar & Hpp & Hbr).
    destruct (Hu _ _ Hpar Hpp Hbr) as (pn' & ? & ?). by exists pp, pn'.
  - intros Hne Hit Hho. apply Wint; try done. intros E. by apply Hho, Hh.
  - intros h Hh'. destruct (Witem h Hh') as (x & Hx & Hs). exists x. split; [|done].
    by eapply Hi.
  - lia.
Qed.

Lemma fresh_None hole t : wf key_fn strict hole t → nodes t !! next_node t = None.
Proof.
  intros Hwf. destruct (nodes t !! next_node t) as [n|] eqn:E; [|done].
  pose proof (wf_fresh _ _ _ _ _ _ (wf_node Hwf E)). lia.
Qed.

Lemma root_ne_fresh hole t : wf key_fn strict hole t → m_root ≠ next_node t.
Proof.
  intros Hwf E. destruct (wf_has_root _ _ _ _ Hwf) as [r Hr].
  rewrite E, (fresh_None _ _ Hwf) in Hr. done.
Qed.

Lemma child_ne hole t p n i c :
  wf key_fn strict hole t → nodes t !! p = Some n → branch n i = Some c → c ≠ p.
Proof.
  intros Hwf Hp Hbr ->.
  destruct (wf_branch Hwf Hp Hbr) as (cn & kc & ? & ? & ? & ? & ? & _).
  simplify_eq. lia.
Qed.

Lemma is_leaf_new_node it k q par o : o < 16 → is_leaf (new_node it k q par o 1 0) = true.
Proof.
  intros Ho. unfold is_leaf.
  rewrite br_1st_new_node, br_last_new_node by lia. done.
Qed.

(** Linking a new leaf that carries the entry [x] below [p] at the free slot
    [ix] (the second half of [insert_node], then [insert_item]). *)
Lemma wf_add_leaf hole t p n ix x :
  wf key_fn strict hole t → nodes t !! p = Some n → branch n ix = None →
  nibble (key_fn x) (qlen n) = Some ix → qlen n < 2 * length (key_fn x) →
  (p ≠ m_root → ∃ k, key n = Some k ∧ agree k (key_fn x) (qlen n)) →
  hole = None ∨ (hole = Some p ∧ is_leaf n = false) →
  wf key_fn strict None
    (mk_trie (<[next_item t := x]> (m_items t)) (Pos.succ (next_item t))
       (<[next_node t :=
            set_item (Some (next_item t))
              (set_key (Some (key_fn x))
                 (new_node None None (2 * length (key_fn x)) (Some p) ix 1 0))]>
          (<[p := set_branch ix (Some (next_node t)) (grow ix n)]> (nodes t)))
       (Pos.succ (next_node t))).
Proof.
  intros Hwf Hp Hbr Hnib Hq Hkey Hhole.
  set (K := key_fn x) in *. set (L := next_node t). set (h := next_item t).
  set (leaf := set_item _ _). set (n' := set_branch _ _ _).
  pose proof (nibble_lt _ _ _ Hnib) as Hix.
  pose proof (fresh_None _ _ Hwf) as HL. fold L in HL.
  assert (p ≠ L) as HpL by (intros ->; congruence).
  assert (L ≠ m_root) as HrL by (intros E; by apply (root_ne_fresh _ _ Hwf)).
  pose proof (wf_node Hwf Hp) as [Wlen Wcache Wdown Wroot Wup Wint Witem Wfresh].
  destruct (grow_fields ix n) as (Gi & Gk & Gq & Gp & Gb).
  destruct (grow_attrs ix n Hix) as [Gown _].
  destruct (cache_add n ix L Wcache Wlen Hix Hbr) as (Cok & Cleaf & Cint). fold n' in Cok, Cleaf, Cint.
  assert (∀ j, branch n' j = if decide (ix = j) then Some L else branch n j) as Hb.
  { intros j. unfold n'. rewrite branch_set_branch by (rewrite Gb; lia). by rewrite branch_grow. }
  assert (edge_ok p n' ix leaf) as Hedge.
  { repeat split; try done.
    - apply br_own_new_node; lia.
    - unfold n'. autorewrite with node. cbn. lia.
    - exists K. unfold n'. autorewrite with node. cbn. repeat split; try done.
      intros k Hk. destruct (decide (p = m_root)) as [->|Hne].
      + rewrite (root_qlen Hwf Hp). intros ? ?; lia.
      + destruct (Hkey Hne) as (k0 & Hk0 & Hag). by simplify_eq. }
  split; cbn [nodes m_items next_item next_node].
  - rewrite lookup_insert_ne by done.
    destruct (decide (p = m_root)) as [->|Hne].
    + rewrite lookup_insert_eq. by eexists.
    + rewrite lookup_insert_ne by done. apply Hwf.
  - intros p' m' Hp'.
    destruct (decide (p' = L)) as [->|HnL].
    { (* the new leaf *)
      rewrite lookup_insert_eq in Hp'. injection Hp' as <-.
      split; cbn [nodes m_items next_item next_node]; try done.
      - unfold cache_ok. change (is_leaf leaf) with (is_leaf (new_node None None (2 * length K) (Some p) ix 1 0)).
        rewrite is_leaf_new_node by done. intros i. apply branch_replicate.
      - intros i c. change (branch leaf i) with (default None (replicate 16 (@None ptr) !! i)).
        by rewrite branch_replicate.
      - intros _. exists p, n'. rewrite lookup_insert_ne, lookup_insert_eq by done.
        split; [done|split; [done|]].
        change (br_own leaf) with (br_own (new_node None None (2 * length K) (Some p) ix 1 0)).
        rewrite br_own_new_node by lia. rewrite Hb. by rewrite decide_True.
      - intros h' [= <-]. exists x. rewrite lookup_insert_eq. split; [done|]. done.
      - lia. }
    rewrite lookup_insert_ne in Hp' by done.
    destruct (decide (p' = p)) as [->|Hnp].
    { (* the node the leaf hangs from *)
      rewrite lookup_insert_eq in Hp'. injection Hp' as <-.
      split; cbn [nodes m_items next_item next_node]; try done.
      - unfold n'. autorewrite with node. by rewrite length_insert.
      - intros i c. rewrite Hb. case_decide as E.
        + intros [= <-]. subst i. exists leaf. rewrite lookup_insert_eq. done.
        + intros Hbr'. destruct (Wdown i c Hbr') as (cn & Hc & He).
          assert (c ≠ L) by (intros ->; congruence).
          assert (c ≠ p) by (by eapply child_ne).
          exists cn. rewrite !lookup_insert_ne by done. split; [done|].
          destruct He as (? & ? & ? & kc & ? & ? & ? & ?).
          unfold edge_ok, n'. autorewrite with node. eauto 10.
      - unfold n'. autorewrite with node. done.
      - intros Hne. destruct (Wup Hne) as (pp & pn & Hpar & Hpp & Hbr').
        assert (pp ≠ p) by (by eapply parent_ne).
        assert (pp ≠ L) by (intros ->; congruence).
        exists pp, pn. unfold n'. autorewrite with node.
        rewrite !lookup_insert_ne by done. done.
      - intros Hne Hit _. apply Cint.
        change (item n') with (item (grow ix n)) in Hit. rewrite Gi in Hit.
        destruct Hhole as [->|[-> Hleaf]]; [|done].
        specialize (Wint Hne Hit (λ E, ltac:(done))). unfold is_leaf. apply Nat.ltb_ge. lia.
      - intros h'. change (item n') with (item (grow ix n)). rewrite Gi. intros Hh.
        destruct (Witem h' Hh) as (x' & Hx' & Hs).
        exists x'. unfold n'. autorewrite with node. split; [|done].
        rewrite lookup_insert_ne; [done|].
        pose proof (handle_fresh _ _ _ _ _ Hwf Hp Hh). unfold h. lia.
      - lia. }
    rewrite lookup_insert_ne in Hp' by done.
    eapply node_wf_frame; [apply (wf_node Hwf Hp')|..]; cbn [nodes m_items next_item next_node].
    + intros i c cn Hbr' Hc He.
      assert (c ≠ L) by (intros ->; congruence).
      rewrite lookup_insert_ne by done.
      destruct (decide (c = p)) as [->|Hcp].
      * exists n'. rewrite lookup_insert_eq. split; [done|]. simplify_eq.
        destruct He as (? & ? & ? & kc & ? & ? & ? & ?).
        unfold edge_ok, n'. autorewrite with node. eauto 10.
      * exists cn. rewrite lookup_insert_ne by done. done.
    + intros pp pn Hpar Hpp Hbr'.
      assert (pp ≠ L) by (intros ->; congruence).
      rewrite lookup_insert_ne by done.
      destruct (decide (pp = p)) as [->|Hpp'].
      * exists n'. rewrite lookup_insert_eq. split; [done|]. simplify_eq.
        rewrite Hb. case_decide as E; [|done]. subst. congruence.
      * exists pn. rewrite lookup_insert_ne by done. done.
    + intros h' x' Hh Hx'. rewrite lookup_insert_ne; [done|].
      pose proof (handle_fresh _ _ _ _ _ Hwf Hp' Hh). unfold h. lia.
    + lia.
    + intros E. destruct Hhole as [?|[? _]]; congruence.
  - intros p1 m1 p2 m2 h' H1 H2 Hi1 Hi2.
    assert (∀ q m, (<[L:=leaf]> (<[p:=n']> (nodes t))) !! q = Some m → item m = Some h' →
              (q = L ∧ h' = h) ∨ (∃ m0, nodes t !! q = Some m0 ∧ item m0 = Some h' ∧ q ≠ L)) as Hcase.
    { intros q m Hq' Hi.
      destruct (decide (q = L)) as [->|?].
      - rewrite lookup_insert_eq in Hq'. simplify_eq. cbn in Hi. left. by simplify_eq.
      - rewrite lookup_insert_ne in Hq' by done. right.
        destruct (decide (q = p)) as [->|?].
        + rewrite lookup_insert_eq in Hq'. injection Hq' as <-.
          exists n. split; [done|]. split; [|done].
          rewrite <- (item_grow ix n). exact Hi.
        + rewrite lookup_insert_ne in Hq' by done. by exists m. }
    destruct (Hcase _ _ H1 Hi1) as [[-> ->]|(m1' & H1' & Hi1' & ?)],
             (Hcase _ _ H2 Hi2) as [[-> E]|(m2' & H2' & Hi2' & ?)]; try done.
    + pose proof (handle_fresh _ _ _ _ _ Hwf H2' Hi2'). unfold h in *. lia.
    + subst. pose proof (handle_fresh _ _ _ _ _ Hwf H1' Hi1'). unfold h in *. lia.
    + by eapply (wf_handles _ _ _ _ Hwf).
  - intros h' x' Hx'.
    destruct (decide (h' = h)) as [->|Hne]; [unfold h; lia|].
    rewrite lookup_insert_ne in Hx' by done.
    pose proof (wf_items_fresh _ _ _ _ Hwf _ _ Hx'). lia.
Qed.


(** Splitting the edge from [p] to [c] by an interim node at quad-bit length
    [q] (the first half of [insert_node]). *)
Lemma wf_split t p n ix c cn kc q jx :
  wf key_fn strict None t → nodes t !! p = Some n → branch n ix = Some c →
  nodes t !! c = Some cn → key cn = Some kc → qlen n < q < qlen cn →
  nibble kc q = Some jx →
  wf key_fn strict (Some (next_node t))
    (mk_trie (m_items t) (next_item t)
       (<[c := set_parent (Some (next_node t)) (set_br_own jx cn)]>
          (<[p := set_branch ix (Some (next_node t)) n]>
             (<[next_node t :=
                  set_branch jx (Some c) (new_node None (Some kc) q (Some p) ix jx jx)]>
                (nodes t))))
       (Pos.succ (next_node t))).
Proof.
  intros Hwf Hp Hbr Hc Hkc Hq Hnib.
  set (I := next_node t).
  set (c' := set_parent _ _). set (p' := set_branch ix _ _). set (I' := set_branch jx _ _).
  pose proof (nibble_lt _ _ _ Hnib) as Hjx.
  assert (ix < 16) as Hix.
  { apply branch_Some_lt in Hbr. by rewrite (wf_len _ _ _ _ _ _ (wf_node Hwf Hp)) in Hbr. }
  pose proof (fresh_None _ _ Hwf) as HI. fold I in HI.
  assert (p ≠ I) as HpI by (intros ->; congruence).
  assert (c ≠ I) as HcI by (intros ->; congruence).
  assert (I ≠ m_root) as HrI by (intros E; by apply (root_ne_fresh _ _ Hwf)).
  assert (c ≠ p) as Hcp by (by eapply child_ne).
  destruct (wf_branch Hwf Hp Hbr)
    as (cn0 & kc0 & ? & Hcpar & Hcown & Hcne & Hcq & ? & Hkclen & Hkcnib & Hkcag).
  simplify_eq.
  pose proof (wf_node Hwf Hp) as [Wlen Wcache Wdown Wroot Wup Wint Witem Wfresh].
  pose proof (wf_node Hwf Hc) as [Vlen Vcache Vdown Vroot Vup Vint Vitem Vfresh].
  assert (∀ j, branch I' j = if decide (jx = j) then Some c else None) as HbI.
  { intros j. unfold I'. rewrite branch_set_branch by (cbn; lia).
    by rewrite branch_new_node. }
  assert (∀ j, branch p' j = if decide (br_own cn = j) then Some I else branch n j) as Hbp.
  { intros j. unfold p'. by rewrite branch_set_branch by lia. }
  assert (br_1st I' = jx ∧ br_last I' = jx ∧ br_own I' = br_own cn) as (I1 & I2 & I3).
  { unfold I'. by autorewrite with node. }
  assert (edge_ok p p' (br_own cn) I') as HeI.
  { unfold edge_ok, p', I'. autorewrite with node. cbn [qlen key parent new_node].
    split; [done|]. split; [done|]. split; [lia|].
    exists kc. repeat split; try done; lia. }
  assert (edge_ok I I' jx c') as Hec.
  { unfold edge_ok, c', I'. autorewrite with node. cbn [qlen key parent new_node].
    split; [done|]. split; [done|]. split; [lia|].
    exists kc. repeat split; try done. intros k [= <-]. apply agree_refl. }
  split; cbn [nodes m_items next_item next_node].
  - rewrite !lookup_insert_ne by done.
    destruct (decide (p = m_root)) as [->|Hne].
    + rewrite lookup_insert_eq. by eexists.
    + rewrite !lookup_insert_ne by done. apply Hwf.
  - intros p0 m0 Hp0.
    destruct (decide (p0 = c)) as [->|Hnc].
    { rewrite lookup_insert_eq in Hp0. injection Hp0 as <-.
      split; cbn [nodes m_items next_item next_node].
      - done.
      - by apply cache_set_br_own.
      - intros i d Hd. change (branch c' i) with (branch cn i) in Hd.
        destruct (Vdown i d Hd) as (dn & Hdn & He).
        assert (d ≠ c) by (by eapply child_ne).
        assert (d ≠ I) by (intros ->; congruence).
        assert (d ≠ p).
        { intros ->. destruct He as (? & ? & ? & _). simplify_eq. lia. }
        exists dn. rewrite !lookup_insert_ne by done. split; [done|].
        destruct He as (? & ? & ? & kd & ? & ? & ? & ?).
        unfold edge_ok, c'. autorewrite with node. eauto 10.
      - done.
      - intros _. exists I, I'.
        rewrite lookup_insert_ne, lookup_insert_ne, lookup_insert_eq by done.
        unfold c'. autorewrite with node. rewrite HbI. by rewrite decide_True.
      - unfold c'. autorewrite with node. intros ? ? _. by apply Vint.
      - done.
      - lia. }
    rewrite lookup_insert_ne in Hp0 by done.
    destruct (decide (p0 = p)) as [->|Hnp].
    { rewrite lookup_insert_eq in Hp0. injection Hp0 as <-.
      split; cbn [nodes m_items next_item next_node].
      - unfold p'. autorewrite with node. by rewrite length_insert.
      - by eapply cache_replace.
      - intros i d. rewrite Hbp. case_decide as E.
        + intros [= <-]. subst i. exists I'.
          rewrite lookup_insert_ne, lookup_insert_ne, lookup_insert_eq by done. done.
        + intros Hd. destruct (Wdown i d Hd) as (dn & Hdn & He).
          assert (d ≠ c).
          { intros ->. destruct He as (? & ? & _). simplify_eq. }
          assert (d ≠ I) by (intros ->; congruence).
          assert (d ≠ p) by (by eapply child_ne).
          exists dn. rewrite !lookup_insert_ne by done. split; [done|].
          destruct He as (? & ? & ? & kd & ? & ? & ? & ?).
          unfold edge_ok, p'. autorewrite with node. eauto 10.
      - done.
      - intros Hne. destruct (Wup Hne) as (pp & pn & Hpar & Hpp & Hbr').
        assert (pp ≠ p) by (by eapply parent_ne).
        assert (pp ≠ I) by (intros ->; congruence).
        assert (pp ≠ c).
        { intros ->. assert (pn = cn) as -> by congruence.
          destruct (wf_branch Hwf Hc Hbr') as (? & ? & ? & ? & ? & ? & ? & _).
          simplify_eq. lia. }
        exists pp, pn. unfold p'. autorewrite with node.
        rewrite !lookup_insert_ne by done. done.
      - unfold p'. autorewrite with node. intros ? ? _. by apply Wint.
      - done.
      - lia. }
    rewrite lookup_insert_ne in Hp0 by done.
    destruct (decide (p0 = I)) as [->|HnI].
    { rewrite lookup_insert_eq in Hp0. injection Hp0 as <-.
      split; cbn [nodes m_items next_item next_node].
      - unfold I'. autorewrite with node. cbn. by rewrite length_insert.
      - unfold cache_ok, is_leaf. rewrite I1, I2.
        assert ((jx <? jx) = false) as -> by (apply Nat.ltb_ge; lia).
        rewrite !HbI, decide_True by done. split; [done|split; [done|]].
        intros i [? Hi]. rewrite HbI in Hi. case_decide; [lia|done].
      - intros i d. rewrite HbI. case_decide as E; [|done].
        intros [= <-]. subst i. exists c'. rewrite lookup_insert_eq. done.
      - done.
      - intros _. exists p, p'.
        rewrite lookup_insert_ne, lookup_insert_eq by done.
        split; [done|split; [done|]]. rewrite I3, Hbp. by rewrite decide_True.
      - done.
      - done.
      - lia. }
    rewrite lookup_insert_ne in Hp0 by done.
    eapply node_wf_frame; [apply (wf_node Hwf Hp0)|..]; cbn [nodes m_items next_item next_node].
    + intros i d dn Hd Hdn He.
      assert (d ≠ I) by (intros ->; congruence).
      assert (d ≠ c).
      { intros ->. destruct He as (? & _). simplify_eq. }
      rewrite lookup_insert_ne by done.
      destruct (decide (d = p)) as [->|Hdp].
      * exists p'. rewrite lookup_insert_eq. split; [done|]. simplify_eq.
        destruct He as (? & ? & ? & kd & ? & ? & ? & ?).
        unfold edge_ok, p'. autorewrite with node. eauto 10.
      * exists dn. rewrite !lookup_insert_ne by done. done.
    + intros pp pn Hpar Hpp Hbr'.
      assert (pp ≠ I) by (intros ->; congruence).
      destruct (decide (pp = c)) as [->|Hppc].
      * exists c'. rewrite lookup_insert_eq. split; [done|]. simplify_eq. done.
      * rewrite lookup_insert_ne by done.
        destruct (decide (pp = p)) as [->|Hppp].
        -- exists p'. rewrite lookup_insert_eq. split; [done|]. simplify_eq.
           rewrite Hbp. case_decide as E; [|done]. rewrite <- E in Hbr'. congruence.
        -- exists pn. rewrite !lookup_insert_ne by done. done.
    + done.
    + lia.
    + done.
  - intros p1 m1 p2 m2 h H1 H2 Hi1 Hi2.
    assert (∀ q0 m, (<[c:=c']> (<[p:=p']> (<[I:=I']> (nodes t)))) !! q0 = Some m →
              item m = Some h → ∃ m0, nodes t !! q0 = Some m0 ∧ item m0 = Some h) as Hcase.
    { intros q0 m Hq0 Hi.
      destruct (decide (q0 = c)) as [->|?].
      { rewrite lookup_insert_eq in Hq0. injection Hq0 as <-. by exists cn. }
      rewrite lookup_insert_ne in Hq0 by done.
      destruct (decide (q0 = p)) as [->|?].
      { rewrite lookup_insert_eq in Hq0. injection Hq0 as <-. by exists n. }
      rewrite lookup_insert_ne in Hq0 by done.
      destruct (decide (q0 = I)) as [->|?].
      { rewrite lookup_insert_eq in Hq0. injection Hq0 as <-. done. }
      rewrite lookup_insert_ne in Hq0 by done. by exists m. }
    destruct (Hcase _ _ H1 Hi1) as (? & ? & ?), (Hcase _ _ H2 Hi2) as (? & ? & ?).
    by eapply (wf_handles _ _ _ _ Hwf).
  - apply Hwf.
Qed.

End Structure.

(** *** Running the primitive steps on an explicit state *)

Section Exec.

Context {T : Type}.
Implicit Types (its : gmap handle T) (h : gmap ptr node).

Lemma deref_mk its ni h nn p n :
  h !! p = Some n → deref (mk_trie its ni h nn) p = Ok n.
Proof. unfold deref. cbn. by intros ->. Qed.

Lemma update_mk its ni h nn p f n :
  h !! p = Some n →
  update p f (mk_trie its ni h nn) = Ok (mk_trie its ni (<[p := f n]> h) nn).
Proof. intros H. unfold update. by rewrite (deref_mk _ _ _ _ _ _ H). Qed.

Lemma reset_branch_None fuel its ni h nn p ix v n :
  h !! p = Some n → branch n ix = None →
  reset_branch fuel p ix v (mk_trie its ni h nn) =
    Ok (mk_trie its ni (<[p := set_branch ix v n]> h) nn).
Proof.
  intros H Hb. unfold reset_branch.
  rewrite (deref_mk _ _ _ _ _ _ H). cbn [mbind res_bind].
  rewrite (update_mk _ _ _ _ _ _ _ H). cbn [mbind res_bind]. by rewrite Hb.
Qed.

(** The cache update before a new leaf is linked stores [grow ix n]. *)
Lemma grow_exec its ni h nn p ix n :
  h !! p = Some n → ix < 16 →
  (if is_leaf n then update p (br_set ix ix) (mk_trie its ni h nn)
   else
     t ← (if ix <? br_1st n then update p (set_br_1st ix) (mk_trie its ni h nn)
          else Ok (mk_trie its ni h nn));
     nd ← deref t p;
     if br_last nd <? ix then update p (set_br_last ix) t else Ok t) =
  Ok (mk_trie its ni (<[p := grow ix n]> h) nn).
Proof.
  intros H Hix. unfold grow. destruct (is_leaf n).
  - by rewrite (update_mk _ _ _ _ _ _ _ H).
  - cbn zeta. destruct (ix <? br_1st n).
    + rewrite (update_mk _ _ _ _ _ _ _ H). cbn [mbind res_bind].
      rewrite (deref_mk _ _ _ _ _ (set_br_1st ix n)) by apply lookup_insert_eq.
      cbn [mbind res_bind].
      destruct (br_last (set_br_1st ix n) <? ix).
      * erewrite update_mk by apply lookup_insert_eq. by rewrite insert_insert_eq.
      * done.
    + cbn [mbind res_bind]. rewrite (deref_mk _ _ _ _ _ _ H). cbn [mbind res_bind].
      destruct (br_last n <? ix).
      * by rewrite (update_mk _ _ _ _ _ _ _ H).
      * by rewrite insert_id.
Qed.


(** The second half of [insert_node]: a new leaf is linked below [nod]. *)
Definition link_leaf (fuel len : nat) (nod : ptr) (br_ix : nat) (t : trie T)
    : res (position_t * trie T) :=
  nd ← deref t nod;
  t ← (if is_leaf nd then update nod (br_set br_ix br_ix) t
       else
         t ← (if br_ix <? br_1st nd then update nod (set_br_1st br_ix) t else Ok t);
         nd ← deref t nod;
         if br_last nd <? br_ix then update nod (set_br_last br_ix) t else Ok t);
  let q := 2 * len in
  let '(br_node, t) := alloc (new_node None None q (Some nod) br_ix 1 0) t in
  t ← reset_branch fuel nod br_ix (Some br_node) t;
  Ok ((Some br_node, q, false), t).

Lemma link_leaf_exec fuel len its ni h nn p ix n :
  h !! p = Some n → ix < 16 → branch n ix = None → p ≠ nn →
  link_leaf fuel len p ix (mk_trie its ni h nn) =
    Ok ((Some nn, 2 * len, false),
        mk_trie its ni
          (<[nn := new_node None None (2 * len) (Some p) ix 1 0]>
             (<[p := set_branch ix (Some nn) (grow ix n)]> h))
          (Pos.succ nn)).
Proof.
  intros H Hix Hb Hne. unfold link_leaf.
  rewrite (deref_mk _ _ _ _ _ _ H). cbn [mbind res_bind].
  rewrite (grow_exec _ _ _ _ _ _ _ H Hix). cbn [mbind res_bind].
  cbn [alloc next_node m_items next_item nodes]. cbv zeta.
  erewrite reset_branch_None.
  - cbn [mbind res_bind]. do 3 f_equal.
    rewrite (insert_insert_ne _ p nn) by done. by rewrite insert_insert_eq.
  - rewrite lookup_insert_ne by done. apply lookup_insert_eq.
  - by rewrite branch_grow.
Qed.

Lemma insert_node_slot fuel its ni h nn K len p q n ix :
  h !! p = Some n → nibble K (qlen n) = Some ix → branch n ix = None → p ≠ nn →
  insert_node fuel K len (Some p) q (mk_trie its ni h nn) =
    Ok ((Some nn, 2 * len, false),
        mk_trie its ni
          (<[nn := new_node None None (2 * len) (Some p) ix 1 0]>
             (<[p := set_branch ix (Some nn) (grow ix n)]> h))
          (Pos.succ nn)).
Proof.
  intros H Hnib Hb Hne.
  rewrite <- (link_leaf_exec fuel len its ni h nn p ix n H (nibble_lt _ _ _ Hnib) Hb Hne).
  unfold insert_node. cbn [of_option mbind res_bind].
  rewrite (deref_mk _ _ _ _ _ _ H). cbn [mbind res_bind].
  rewrite (get_qpos_nibble K (qlen n)), Hnib. cbn [of_option mbind res_bind].
  rewrite Hb. cbn [mbind res_bind]. reflexivity.
Qed.

Lemma insert_node_edge fuel its ni h nn K len p q n ix c cn kc jx :
  h !! p = Some n → nibble K (qlen n) = Some ix → branch n ix = Some c →
  h !! c = Some cn → key cn = Some kc → nibble kc q = Some jx →
  p ≠ nn → c ≠ nn → c ≠ p →
  let s1 := mk_trie its ni
      (<[c := set_parent (Some nn) (set_br_own jx cn)]>
         (<[p := set_branch ix (Some nn) n]>
            (<[nn := set_branch jx (Some c) (new_node None (Some kc) q (Some p) ix jx jx)]>
               h)))
      (Pos.succ nn) in
  insert_node fuel K len (Some p) q (mk_trie its ni h nn) =
    if q =? 2 * len then Ok ((Some nn, q, false), s1)
    else lx ← of_option (nibble K q); link_leaf fuel len nn lx s1.
Proof.
  intros H Hnib Hb Hc Hkc Hjx Hpn Hcn Hcp s1.
  unfold insert_node. cbn [of_option mbind res_bind].
  rewrite (deref_mk _ _ _ _ _ _ H). cbn [mbind res_bind].
  rewrite (get_qpos_nibble K (qlen n)), Hnib. cbn [of_option mbind res_bind].
  rewrite Hb. rewrite (deref_mk _ _ _ _ _ _ Hc). cbn [mbind res_bind].
  rewrite Hkc, (get_qpos_nibble kc q), Hjx. cbn [of_option mbind res_bind].
  cbn [alloc next_node m_items next_item nodes]. cbv zeta.
  erewrite update_mk by apply lookup_insert_eq. cbn [mbind res_bind].
  rewrite insert_insert_eq.
  erewrite update_mk by (rewrite lookup_insert_ne by done; apply H). cbn [mbind res_bind].
  erewrite update_mk by (rewrite !lookup_insert_ne by done; apply Hc). cbn [mbind res_bind].
  erewrite reset_branch_None; cycle 1.
  { rewrite lookup_insert_ne by done. apply lookup_insert_eq. }
  { rewrite branch_set_branch by (by eapply branch_Some_lt). by rewrite decide_True. }
  cbn [mbind res_bind].
  erewrite update_mk by (rewrite lookup_insert_ne by done; apply lookup_insert_eq).
  cbn [mbind res_bind].
  assert (mk_trie its ni
            (<[c:=set_parent (Some nn) (set_br_own jx cn)]>
               (<[p:=set_branch ix (Some nn) (set_branch ix None n)]>
                  (<[c:=set_br_own jx cn]>
                     (<[p:=set_branch ix None n]>
                        (<[nn:=set_branch jx (Some c)
                                 (new_node None (Some kc) q (Some p) ix jx jx)]> h)))))
            (Pos.succ nn) = s1) as ->.
  { unfold s1. f_equal.
    rewrite (insert_insert_ne _ p c) by done. rewrite !insert_insert_eq.
    do 2 f_equal. unfold set_branch. cbn. f_equal. apply list_insert_insert_eq. }
  destruct (q =? 2 * len); [done|].
  rewrite get_qpos_nibble. destruct (nibble K q); reflexivity.
Qed.

End Exec.

(** ** Entries *)

Section Entries.

Context {T : Type}.
Implicit Types (t : trie T) (its : gmap handle T) (h : gmap ptr node).

(** The item handle held by the node at [p], if any. *)
Definition item_at (h : gmap ptr node) (p : ptr) : option handle :=
  match h !! p with
  | Some n => item n
  | None => None
  end.

(** The node at [p] carries the entry [x]. *)
Definition entry (t : trie T) (p : ptr) (x : T) : Prop :=
  ∃ hd, item_at (nodes t) p = Some hd ∧ m_items t !! hd = Some x.

Lemma entry_node t p x :
  entry t p x ↔
  ∃ n hd, nodes t !! p = Some n ∧ item n = Some hd ∧ m_items t !! hd = Some x.
Proof.
  unfold entry, item_at. split.
  - intros (hd & H & Hx). destruct (nodes t !! p) as [n|]; [|done]. by exists n, hd.
  - intros (n & hd & -> & H & Hx). by exists hd.
Qed.

Lemma item_at_insert h p n p' :
  item_at (<[p := n]> h) p' = if decide (p = p') then item n else item_at h p'.
Proof.
  unfold item_at. case_decide as E.
  - subst. by rewrite lookup_insert_eq.
  - by rewrite lookup_insert_ne.
Qed.

Lemma item_at_fresh h p : h !! p = None → item_at h p = None.
Proof. unfold item_at. by intros ->. Qed.

Lemma item_at_Some h p n : h !! p = Some n → item_at h p = item n.
Proof. unfold item_at. by intros ->. Qed.


(** The entries after a new one has been installed at [pn] under the fresh
    handle [ni]. *)
Lemma entry_insert_new its ni nn nn' h h' pn x :
  (∀ p, item_at h' p = if decide (p = pn) then Some ni else item_at h p) →
  item_at h pn = None →
  (∀ p hd, item_at h p = Some hd → (hd < ni)%positive) →
  ∀ p' x',
    entry (mk_trie (<[ni := x]> its) (Pos.succ ni) h' nn') p' x' ↔
    entry (mk_trie its ni h nn) p' x' ∨ (p' = pn ∧ x' = x).
Proof.
  intros Hh' Hnone Hfresh p' x'. unfold entry. cbn [nodes m_items].
  split.
  - intros (hd & Hi & Hx). rewrite Hh' in Hi. case_decide as E.
    + injection Hi as <-. rewrite lookup_insert_eq in Hx. right. by simplify_eq.
    + pose proof (Hfresh _ _ Hi). rewrite lookup_insert_ne in Hx by lia.
      left. by exists hd.
  - intros [(hd & Hi & Hx)|[-> ->]].
    + exists hd. rewrite Hh'. case_decide as E; [congruence|]. split; [done|].
      pose proof (Hfresh _ _ Hi). by rewrite lookup_insert_ne by lia.
    + exists ni. rewrite Hh', decide_True by done. by rewrite lookup_insert_eq.
Qed.

End Entries.

Section Insert.

Context {T : Type}.
Variable key_fn : T -> list byte.
Variable KeyTracing : key_tracing.
Variable strict : bool.

Implicit Types (t : trie T) (its : gmap handle T) (h : gmap ptr node).

Lemma insert_item_exec x its ni h nn p n :
  h !! p = Some n →
  insert_item key_fn x (Some p) (mk_trie its ni h nn) =
    Ok (mk_trie (<[ni := x]> its) (Pos.succ ni)
          (<[p := set_item (Some ni) (set_key (Some (key_fn x)) n)]> h) nn).
Proof.
  intros H. unfold insert_item. cbn [of_option mbind res_bind next_item m_items nodes next_node].
  rewrite (update_mk _ _ _ _ _ _ _ H). cbn [mbind res_bind].
  erewrite update_mk by apply lookup_insert_eq. by rewrite insert_insert_eq.
Qed.

Lemma mk_iterator_item fuel t p n :
  nodes t !! p = Some n → item n ≠ None → mk_iterator fuel t (Some p) = Ok (Some p).
Proof.
  intros H Hi. unfold mk_iterator, deref. rewrite H. cbn [of_option mbind res_bind].
  by rewrite bool_decide_eq_false_2.
Qed.


Lemma item_at_fresh_handle t p hd :
  wf key_fn strict None t → item_at (nodes t) p = Some hd → (hd < next_item t)%positive.
Proof.
  intros Hwf. unfold item_at. destruct (nodes t !! p) as [n|] eqn:E; [|done].
  intros Hi. by eapply handle_fresh.
Qed.

Lemma agree_full (k1 k2 : list byte) :
  length k1 = length k2 → agree k1 k2 (2 * length k1) → k1 = k2.
Proof.
  intros Hlen Hag. apply list_eq. intros i.
  destruct (decide (i < length k1)) as [Hi|Hi].
  - destruct (lookup_lt_is_Some_2 k1 i Hi) as [b1 H1].
    destruct (lookup_lt_is_Some_2 k2 i) as [b2 H2]; [lia|].
    rewrite H1, H2. f_equal.
    pose proof (Hag (2 * i) ltac:(lia)) as Hhi.
    pose proof (Hag (2 * i + 1) ltac:(lia)) as Hlo.
    rewrite (nibble_hi _ _ _ H1), (nibble_hi _ _ _ H2) in Hhi.
    rewrite (nibble_lo _ _ _ H1), (nibble_lo _ _ _ H2) in Hlo.
    apply byte_halves; congruence.
  - rewrite !lookup_ge_None_2 by lia. done.
Qed.

(** The node created inside the edge from [p] to [c], at path length [q], and
    the node [e] that takes the entry: the new node itself or a leaf below it. *)
Definition split_node (t t' : trie T) (p c : ptr) (q : nat) (e : ptr) : Prop :=
  nodes t !! next_node t = None ∧
  ∃ I n' cn', nodes t' !! next_node t = Some I ∧ qlen I = q ∧ parent I = Some p ∧
    nodes t' !! p = Some n' ∧ branch n' (br_own I) = Some (next_node t) ∧
    nodes t' !! c = Some cn' ∧ parent cn' = Some (next_node t) ∧
    branch I (br_own cn') = Some c ∧
    (e = next_node t ∨
     ∃ en, nodes t' !! e = Some en ∧ parent en = Some (next_node t) ∧
       branch I (br_own en) = Some e).

(** A key that leaves the trie inside the edge from [p] to [c]: [insert_node]
    splits the edge, and the entry goes to the new node or to a leaf below
    it. *)
Lemma insert_edge fuel x t p n ix c cn kc q :
  wf key_fn strict None t → nodes t !! p = Some n →
  nibble (key_fn x) (qlen n) = Some ix → branch n ix = Some c →
  nodes t !! c = Some cn → key cn = Some kc →
  qlen n < q < qlen cn → q ≤ 2 * length (key_fn x) → agree kc (key_fn x) q →
  (q < 2 * length (key_fn x) → nibble kc q ≠ nibble (key_fn x) q) →
  ∃ pos' t1 e t',
    insert_node fuel (key_fn x) (length (key_fn x)) (Some p) q t = Ok (pos', t1) ∧
    pos_node pos' = Some e ∧ pos_match pos' = false ∧
    insert_item key_fn x (Some e) t1 = Ok t' ∧
    mk_iterator fuel t' (Some e) = Ok (Some e) ∧
    wf key_fn strict None t' ∧
    (∀ p' x', entry t' p' x' ↔ entry t p' x' ∨ (p' = e ∧ x' = x)) ∧
    (∀ y, ¬ entry t e y) ∧
    split_node t t' p c q e.
Proof.
  intros Hwf Hp Hnib Hbr Hc Hkc Hq Hq2 Hag Hneq.
  pose proof (fresh_None _ _ None t Hwf) as Hnn.
  assert (∀ p hd, item_at (nodes t) p = Some hd → (hd < next_item t)%positive) as Hfr
    by (intros ? ?; apply (item_at_fresh_handle _ _ _ Hwf)).
  unfold split_node.
  destruct t as [its ni h nn]. cbn [nodes next_node next_item m_items] in *.
  destruct (wf_branch Hwf Hp Hbr)
    as (cn0 & kc0 & ? & Hcpar & Hcown & Hcne & Hcq & ? & Hkclen & Hkcnib & Hkcag).
  cbn [nodes] in *. simplify_eq.
  assert (p ≠ nn) as Hpn by (intros ->; congruence).
  assert (c ≠ nn) as Hcn by (intros ->; congruence).
  assert (c ≠ p) as Hcp by (by eapply child_ne).
  pose proof (br_own_lt cn) as Hown16.
  destruct (nibble_is_Some kc q) as [jx Hjx]; [lia|].
  pose proof (nibble_lt _ _ _ Hjx) as Hjx16.
  pose proof (nibble_lt _ _ _ Hnib) as Hix16.
  rewrite (insert_node_edge fuel its ni h nn _ _ p q n _ c cn kc jx
             Hp Hnib Hbr Hc Hkc Hjx Hpn Hcn Hcp).
  pose proof (wf_split key_fn strict _ p n _ c cn kc q jx Hwf Hp Hbr Hc Hkc Hq Hjx) as Hwf1.
  cbn [nodes m_items next_item next_node] in Hwf1.
  set (I' := set_branch jx (Some c) _) in *.
  set (h1 := <[c := _]> _) in *.
  assert (h1 !! nn = Some I') as HI.
  { unfold h1. rewrite !lookup_insert_ne by done. apply lookup_insert_eq. }
  assert (∀ p', item_at h1 p' = item_at h p') as Hit1.
  { intros p'. unfold h1. rewrite !item_at_insert.
    repeat case_decide; subst; autorewrite with node;
      rewrite ?(item_at_Some _ _ _ Hp), ?(item_at_Some _ _ _ Hc); try done.
    by rewrite item_at_fresh. }
  assert (h1 !! p = Some (set_branch (br_own cn) (Some nn) n)) as Hp1.
  { unfold h1. rewrite lookup_insert_ne by done. apply lookup_insert_eq. }
  assert (h1 !! c = Some (set_parent (Some nn) (set_br_own jx cn))) as Hc1.
  { unfold h1. apply lookup_insert_eq. }
  assert (branch (set_branch (br_own cn) (Some nn) n) (br_own cn) = Some nn) as Hbp.
  { rewrite branch_set_branch by (by eapply branch_Some_lt). by rewrite decide_True. }
  assert (br_own I' = br_own cn ∧ branch I' jx = Some c) as (HIo & HIb).
  { unfold I'. autorewrite with node. split_and!; try done.
    rewrite branch_set_branch by (cbn; lia).
    by rewrite decide_True. }
  destruct (decide (q = 2 * length (key_fn x))) as [Eq|Eq].
  + rewrite (proj2 (Nat.eqb_eq _ _) Eq).
    eexists _, _, nn, _. split; [done|]. split; [done|]. split; [done|].
    split; [apply (insert_item_exec x _ _ _ _ _ _ HI)|].
    split; [eapply mk_iterator_item; [apply lookup_insert_eq|done]|].
    split; [|split; [|split; [|split]]].
    * apply (wf_install key_fn strict (Some nn) _ nn I' x Hwf1 HI).
      -- unfold I'. cbn [qlen set_branch new_node]. lia.
      -- intros _. unfold I'. cbn [qlen set_branch new_node]. lia.
      -- intros _. exists kc. split; [done|]. done.
      -- by right.
    * apply entry_insert_new; [|by apply item_at_fresh|done].
      intros p'. rewrite item_at_insert, Hit1. repeat case_decide; subst; done.
    * intros y (hd & Hy & _). cbn [nodes] in Hy. rewrite item_at_fresh in Hy; done.
    * done.
    * cbn [nodes].
      exists (set_item (Some ni) (set_key (Some (key_fn x)) I')),
        (set_branch (br_own cn) (Some nn) n),
        (set_parent (Some nn) (set_br_own jx cn)).
      split; [apply lookup_insert_eq|].
      split; [unfold I'; by autorewrite with node|].
      split; [unfold I'; by autorewrite with node|].
      split; [by rewrite lookup_insert_ne|].
      split; [by rewrite br_own_set_item, br_own_set_key, HIo|].
      split; [by rewrite lookup_insert_ne|].
      split; [by autorewrite with node|].
      split; [|by left].
      rewrite br_own_set_parent, br_own_set_br_own by lia.
      by rewrite branch_set_item, branch_set_key.
  + rewrite (proj2 (Nat.eqb_neq _ _) Eq).
    destruct (nibble_is_Some (key_fn x) q) as [lx Hlx]; [lia|].
    pose proof (nibble_lt _ _ _ Hlx) as Hlx16.
    rewrite Hlx. cbn [of_option mbind res_bind].
    assert (lx ≠ jx) as Hlj.
    { intros ->. apply Hneq; [lia|]. congruence. }
    assert (branch I' lx = None) as HbrI.
    { unfold I'. rewrite branch_set_branch by (cbn; lia).
      rewrite decide_False by done. apply branch_new_node. }
    assert (nn ≠ Pos.succ nn) as Hns by lia.
    assert (p ≠ Pos.succ nn) as Hps.
    { intros ->. pose proof (wf_fresh _ _ _ _ _ _ (wf_node Hwf Hp)). cbn in *. lia. }
    assert (c ≠ Pos.succ nn) as Hcs.
    { intros ->. pose proof (wf_fresh _ _ _ _ _ _ (wf_node Hwf Hc)). cbn in *. lia. }
    rewrite (link_leaf_exec fuel _ its ni h1 (Pos.succ nn) nn lx I' HI Hlx16 HbrI Hns).
    eexists _, _, (Pos.succ nn), _. split; [done|]. split; [done|]. split; [done|].
    split.
    { erewrite insert_item_exec by apply lookup_insert_eq. by rewrite insert_insert_eq. }
    split; [eapply mk_iterator_item; [apply lookup_insert_eq|done]|].
    split; [|split; [|split; [|split]]].
    * apply (wf_add_leaf key_fn strict (Some nn) _ nn I' lx x Hwf1 HI HbrI).
      -- done.
      -- unfold I'. cbn [qlen set_branch new_node]. lia.
      -- intros _. exists kc. split; [done|]. done.
      -- right. split; [done|]. unfold is_leaf, I'. autorewrite with node.
         apply Nat.ltb_irrefl.
    * apply entry_insert_new; [| |done].
      ++ intros p'. rewrite !item_at_insert, Hit1.
         repeat case_decide; subst; try done; try lia.
         autorewrite with node. cbn. symmetry. by apply item_at_fresh.
      ++ apply item_at_fresh.
         destruct (h !! Pos.succ nn) as [m|] eqn:E; [|done].
         pose proof (wf_fresh _ _ _ _ _ _ (wf_node Hwf E)). cbn in *. lia.
    * intros y (hd & Hy & _). cbn [nodes] in Hy. rewrite item_at_fresh in Hy; [done|].
      destruct (h !! Pos.succ nn) as [m|] eqn:E; [|done].
      pose proof (wf_fresh _ _ _ _ _ _ (wf_node Hwf E)). cbn in *. lia.
    * done.
    * cbn [nodes].
      assert (length (branches (grow lx I')) = 16) as Hlen.
      { rewrite branches_grow. unfold I'. cbn. by rewrite length_insert. }
      exists (set_branch lx (Some (Pos.succ nn)) (grow lx I')),
        (set_branch (br_own cn) (Some nn) n),
        (set_parent (Some nn) (set_br_own jx cn)).
      split; [rewrite lookup_insert_ne by lia; apply lookup_insert_eq|].
      split; [unfold I'; by autorewrite with node|].
      split; [unfold I'; by autorewrite with node|].
      split; [by rewrite !lookup_insert_ne|].
      split; [by rewrite br_own_set_branch, br_own_grow, HIo|].
      split; [by rewrite !lookup_insert_ne|].
      split; [by autorewrite with node|].
      split.
      -- rewrite br_own_set_parent, br_own_set_br_own by lia.
         rewrite branch_set_branch by lia.
         rewrite decide_False by done. by rewrite branch_grow.
      -- right. eexists. rewrite lookup_insert_eq. split; [done|].
         rewrite parent_set_item, parent_set_key. split; [done|].
         rewrite br_own_set_item, br_own_set_key, br_own_new_node by lia.
         rewrite branch_set_branch by lia.
         by rewrite decide_True.
Qed.

Theorem insert_spec fuel x t :
  wf key_fn strict None t → 2 ≤ fuel →
  ∃ p t', insert key_fn KeyTracing fuel x t = Ok (Some p, t') ∧
    wf key_fn strict None t' ∧
    ((t' = t ∧ ∃ n, nodes t !! p = Some n ∧ item n ≠ None ∧
        qlen n = 2 * length (key_fn x) ∧ on_path (key_fn x) p n) ∨
     ((∀ p' x', entry t' p' x' ↔ entry t p' x' ∨ (p' = p ∧ x' = x)) ∧
      ∀ y, ¬ entry t p y)).
Proof.
  intros Hwf Hfuel.
  destruct (trace_walk_sound key_fn KeyTracing strict None t Hwf (key_fn x) false fuel Hfuel)
    as (e & He & Hs).
  unfold insert, trace. rewrite He. cbn [mbind res_bind].
  pose proof (fresh_None _ _ None t Hwf) as Hnn.
  assert (∀ p hd, item_at (nodes t) p = Some hd → (hd < next_item t)%positive) as Hfr
    by (intros ? ?; apply (item_at_fresh_handle _ _ _ Hwf)).
  destruct t as [its ni h nn]. cbn [nodes next_node next_item m_items] in *.
  destruct Hs as [p n Hp Hon Hq | p n ix Hp Hon Hq Hnib Hbr
                 | p n ix c cn kc q Hp Hon Hnib Hbr Hc Hkc Hq Hq2 Hag Hneq
                 | p n ix c cn a Hsl ]; cbn [nodes] in *.
  - (* the key leads to a node *)
    destruct (item n) as [hd|] eqn:Hi.
    + rewrite bool_decide_eq_true_2 by done. cbn [mbind res_bind].
      cbv [pos_node pos_match fst snd]. cbn [mbind res_bind].
      erewrite mk_iterator_item; [|exact Hp|congruence]. cbn [mbind res_bind].
      eexists _, _. split; [done|]. split; [done|]. left. split; [done|].
      exists n. rewrite Hi. done.
    + rewrite bool_decide_eq_false_2 by (intros E; by apply E). cbn [mbind res_bind].
      cbv [pos_node pos_match fst snd].
      rewrite (insert_item_exec x _ _ _ _ _ _ Hp). cbn [mbind res_bind].
      erewrite mk_iterator_item; [|apply lookup_insert_eq|done]. cbn [mbind res_bind].
      eexists _, _. split; [done|]. split.
      * apply (wf_install key_fn strict None _ p n x Hwf Hp); try done; try lia.
        -- intros Hne. destruct Hon as [_ [|Hk]]; done.
        -- by left.
      * right. split.
        -- apply entry_insert_new.
           ++ intros p'. rewrite item_at_insert. repeat case_decide; subst; done.
           ++ by rewrite (item_at_Some _ _ _ Hp).
           ++ done.
        -- intros y (hd & Hy & _). cbn [nodes] in Hy.
           rewrite (item_at_Some _ _ _ Hp) in Hy. congruence.
  - (* a free slot: a new leaf *)
    assert (p ≠ nn) as Hpn by (intros ->; congruence).
    rewrite (insert_node_slot fuel its ni h nn _ _ p (qlen n) n ix Hp Hnib Hbr Hpn).
    cbn [mbind res_bind]. cbv [pos_node pos_match fst snd].
    erewrite insert_item_exec by apply lookup_insert_eq. cbn [mbind res_bind].
    rewrite insert_insert_eq.
    erewrite mk_iterator_item; [|apply lookup_insert_eq|done]. cbn [mbind res_bind].
    eexists _, _. split; [done|]. split.
    + apply (wf_add_leaf key_fn strict None _ p n ix x Hwf Hp Hbr Hnib Hq).
      * intros Hne. by destruct Hon as [_ [|Hk]].
      * by left.
    + right. split.
      * apply entry_insert_new; [|by apply item_at_fresh|done].
        intros p'. rewrite !item_at_insert. repeat case_decide; subst; try done.
        autorewrite with node. by rewrite (item_at_Some _ _ _ Hp).
      * intros y (hd & Hy & _). cbn [nodes] in Hy.
        rewrite item_at_fresh in Hy; done.
  - (* inside an edge: an interim node *)
    destruct (insert_edge fuel x _ p n ix c cn kc q Hwf Hp Hnib Hbr Hc Hkc Hq Hq2 Hag Hneq)
      as (pos' & t1 & e & t' & -> & Hpn & Hpm & Hitem & Hiter & Hwf' & Hent & Hnew & _).
    cbn [mbind res_bind]. rewrite Hpm, Hpn, Hitem. cbn [mbind res_bind].
    rewrite Hiter. cbn [mbind res_bind].
    exists e, t'. split; [done|]. split; [done|]. by right.
  - by rewrite andb_false_r in Hsl.
Qed.

End Insert.

(** ** Removing a branch *)

Lemma scan_up_spec pn n ix j :
  ix ≤ j → j < 16 → is_Some (branch pn j) →
  (∀ i, ix ≤ i < j → branch pn i = None) → j - ix ≤ n →
  scan_up n pn ix = Ok j.
Proof.
  revert ix. induction n as [|n IH]; intros ix Hij Hj Hocc Hnone Hn.
  - assert (ix = j) as -> by lia. cbn [scan_up].
    assert ((16 <=? j) = false) as -> by (apply Nat.leb_gt; lia).
    by destruct Hocc as [c ->].
  - cbn [scan_up].
    assert ((16 <=? ix) = false) as -> by (apply Nat.leb_gt; lia).
    destruct (decide (ix = j)) as [->|Hne].
    + by destruct Hocc as [c ->].
    + rewrite Hnone by lia. apply IH; try lia; try done.
      intros i Hi. apply Hnone. lia.
Qed.

Lemma scan_down_spec pn ix j :
  j ≤ ix → ix < 16 → is_Some (branch pn j) →
  (∀ i, j < i ≤ ix → branch pn i = None) →
  scan_down pn ix = Ok j.
Proof.
  induction ix as [|ix IH]; intros Hij Hix Hocc Hnone.
  - assert (j = 0) as -> by lia. cbn [scan_down]. change (16 <=? 0) with false.
    cbv iota. by destruct Hocc as [c ->].
  - cbn [scan_down].
    assert ((16 <=? S ix) = false) as -> by (apply Nat.leb_gt; lia).
    destruct (decide (S ix = j)) as [<-|Hne].
    + by destruct Hocc as [c ->].
    + rewrite Hnone by lia. apply IH; try lia; try done.
      intros i Hi. apply Hnone. lia.
Qed.

Lemma least_occupied pn a b :
  a ≤ b → is_Some (branch pn b) →
  ∃ j, a ≤ j ≤ b ∧ is_Some (branch pn j) ∧ ∀ i, a ≤ i < j → branch pn i = None.
Proof.
  intros Hab Hb. remember (b - a) as d eqn:Hd. revert a Hab Hd.
  induction d as [|d IH]; intros a Hab Hd.
  - assert (a = b) as -> by lia. exists b. split; [lia|]. split; [done|]. intros; lia.
  - destruct (branch pn a) as [c|] eqn:Ha.
    + exists a. split; [lia|]. split; [by rewrite Ha|]. intros; lia.
    + destruct (IH (S a)) as (j & Hj & Hocc & Hnone); [lia|lia|].
      exists j. split; [lia|]. split; [done|].
      intros i Hi. destruct (decide (i = a)) as [->|]; [done|]. apply Hnone. lia.
Qed.

Lemma greatest_occupied pn a b :
  a ≤ b → is_Some (branch pn a) →
  ∃ j, a ≤ j ≤ b ∧ is_Some (branch pn j) ∧ ∀ i, j < i ≤ b → branch pn i = None.
Proof.
  intros Hab Ha. induction b as [|b IH].
  - assert (a = 0) as -> by lia. exists 0. split; [lia|]. split; [done|]. intros; lia.
  - destruct (decide (a = S b)) as [->|Hne].
    { exists (S b). split; [lia|]. split; [done|]. intros; lia. }
    destruct (branch pn (S b)) as [c|] eqn:Hb.
    + exists (S b). split; [lia|]. split; [by rewrite Hb|]. intros; lia.
    + destruct IH as (j & Hj & Hocc & Hnone); [lia|].
      exists j. split; [lia|]. split; [done|].
      intros i Hi. destruct (decide (i = S b)) as [->|]; [done|]. apply Hnone. lia.
Qed.

(** The cache update of [erase] after the branch [ix] of [pn] was reset. *)
Definition shrink (ix : nat) (pn : node) : res node :=
  if has_only_son pn then Ok (br_set 1 0 pn)
  else if br_1st pn =? ix then
    j ← scan_up 16 pn (ix + 1); Ok (set_br_1st j pn)
  else if br_last pn =? ix then
    j ← (match ix with 0 => Fault | S ix' => scan_down pn ix' end);
    Ok (set_br_last j pn)
  else Ok pn.

Lemma shrink_spec pn ix c :
  cache_ok pn → length (branches pn) = 16 → branch pn ix = Some c →
  ∃ pn', shrink ix (set_branch ix None pn) = Ok pn' ∧ cache_ok pn' ∧
    item pn' = item pn ∧ key pn' = key pn ∧ qlen pn' = qlen pn ∧
    parent pn' = parent pn ∧ br_own pn' = br_own pn ∧
    length (branches pn') = 16 ∧
    (∀ j, branch pn' j = if decide (ix = j) then None else branch pn j) ∧
    (br_1st pn < br_last pn → is_leaf pn' = false).
Proof.
  intros Hc Hlen Hbr.
  pose proof (branch_Some_lt _ _ _ Hbr) as Hix. rewrite Hlen in Hix.
  set (pn2 := set_branch ix None pn).
  assert (∀ j, branch pn2 j = if decide (ix = j) then None else branch pn j) as Hb2.
  { intros j. unfold pn2. by rewrite branch_set_branch by lia. }
  subst pn2.
  pose proof (br_1st_lt pn) as H1. pose proof (br_last_lt pn) as H2.
  unfold cache_ok, is_leaf in Hc.
  destruct (Nat.ltb_spec (br_last pn) (br_1st pn)) as [Hl|Hl].
  { by rewrite Hc in Hbr. }
  destruct Hc as (Hf & Hla & Hr).
  pose proof (Hr ix ltac:(by rewrite Hbr)) as Hrange.
  unfold shrink. autorewrite with node. unfold has_only_son.
  destruct (Nat.eqb_spec (br_1st pn) (br_last pn)) as [E|E].
  { (* the only son *)
    eexists. split; [done|].
    split; [|autorewrite with node; repeat split; try done].
    - unfold cache_ok, is_leaf. autorewrite with node. cbn.
      intros i. autorewrite with node. rewrite Hb2. case_decide; [done|].
      destruct (branch pn i) eqn:Hi; [|done].
      specialize (Hr i ltac:(by rewrite Hi)). lia.
    - by rewrite length_insert.
    - lia. }
  destruct (Nat.eqb_spec (br_1st pn) ix) as [E1|E1].
  { (* the first son *)
    destruct (least_occupied pn (ix + 1) (br_last pn)) as (j & Hj & Hocc & Hnone); [lia|done|].
    rewrite (scan_up_spec _ 16 (ix + 1) j); try lia.
    - cbn [mbind res_bind]. eexists. split; [done|].
      split; [|autorewrite with node; repeat split; try done].
      + unfold cache_ok, is_leaf. autorewrite with node.
        assert ((br_last pn <? j) = false) as -> by (apply Nat.ltb_ge; lia).
        rewrite !Hb2. rewrite !decide_False by lia. split; [done|split; [done|]].
        intros i Hi. autorewrite with node in Hi.
        rewrite Hb2 in Hi. case_decide; [by destruct Hi|].
        specialize (Hr i Hi). split; [|lia].
        destruct (decide (j ≤ i)); [done|]. rewrite Hnone in Hi by lia. by destruct Hi.
      + by rewrite length_insert.
      + intros _. unfold is_leaf. autorewrite with node. apply Nat.ltb_ge. lia.
    - rewrite Hb2. by rewrite decide_False by lia.
    - intros i Hi. rewrite Hb2. case_decide; [done|]. by apply Hnone. }
  destruct (Nat.eqb_spec (br_last pn) ix) as [E2|E2].
  { (* the last son *)
    destruct ix as [|ix']; [lia|].
    destruct (greatest_occupied pn (br_1st pn) ix') as (j & Hj & Hocc & Hnone); [lia|done|].
    rewrite (scan_down_spec _ ix' j); try lia.
    - cbn [mbind res_bind]. eexists. split; [done|].
      split; [|autorewrite with node; repeat split; try done].
      + unfold cache_ok, is_leaf. autorewrite with node.
        assert ((j <? br_1st pn) = false) as -> by (apply Nat.ltb_ge; lia).
        rewrite !Hb2. rewrite !decide_False by lia. split; [done|split; [done|]].
        intros i Hi. autorewrite with node in Hi.
        rewrite Hb2 in Hi. case_decide; [by destruct Hi|].
        specialize (Hr i Hi). split; [lia|].
        destruct (decide (i ≤ j)); [done|]. rewrite Hnone in Hi by lia. by destruct Hi.
      + by rewrite length_insert.
      + intros _. unfold is_leaf. autorewrite with node. apply Nat.ltb_ge. lia.
    - rewrite Hb2. by rewrite decide_False by lia.
    - intros i Hi. rewrite Hb2. case_decide; [done|]. by apply Hnone. }
  (* a son in between *)
  eexists. split; [done|]. split; [|repeat split; try done].
  - unfold cache_ok, is_leaf. autorewrite with node.
    assert ((br_last pn <? br_1st pn) = false) as -> by (apply Nat.ltb_ge; lia).
    rewrite !Hb2. rewrite !decide_False by lia. split; [done|split; [done|]].
    intros i Hi. rewrite Hb2 in Hi. case_decide; [by destruct Hi|]. by apply Hr.
  - autorewrite with node. by rewrite length_insert.
  - intros _. unfold is_leaf. autorewrite with node. apply Nat.ltb_ge. lia.
Qed.

Lemma cache_ok_ext n n' :
  br_1st n' = br_1st n → br_last n' = br_last n →
  (∀ i, branch n' i = branch n i) → cache_ok n → cache_ok n'.
Proof.
  intros H1 H2 Hb. unfold cache_ok, is_leaf. rewrite H1, H2.
  destruct (br_last n <? br_1st n).
  - intros H i. by rewrite Hb.
  - intros (? & ? & H). rewrite !Hb. split; [done|split; [done|]].
    intros i Hi. apply H. by rewrite <- Hb.
Qed.

Section Erase.

Context {T : Type}.
Variable key_fn : T -> list byte.
Variable strict : bool.

Implicit Types (t : trie T) (p c : ptr) (n : node) (hole : option ptr).

Lemma wf_close hole t :
  wf key_fn strict hole t →
  (∀ p n, hole = Some p → nodes t !! p = Some n → p ≠ m_root → item n = None →
     br_1st n < br_last n) →
  wf key_fn strict None t.
Proof.
  intros Hwf Hh. split; try apply Hwf.
  intros p n Hp. pose proof (wf_node Hwf Hp) as [Wlen Wcache Wdown Wroot Wup Wint Witem Wfresh].
  split; try done.
  intros Hne Hi _. destruct (decide (hole = Some p)) as [E|E].
  - by eapply Hh.
  - by apply Wint.
Qed.

Lemma wf_open hole t : wf key_fn strict None t → wf key_fn strict hole t.
Proof.
  intros Hwf. split; try apply Hwf.
  intros p n Hp. pose proof (wf_node Hwf Hp) as [Wlen Wcache Wdown Wroot Wup Wint Witem Wfresh].
  split; try done.
  intros Hne Hi _. by apply Wint.
Qed.

(** Taking the entry out of a node (the first step of [erase]). *)
Lemma wf_clear t p n hd :
  wf key_fn strict None t → nodes t !! p = Some n → item n = Some hd →
  wf key_fn strict (Some p)
    (mk_trie (delete hd (m_items t)) (next_item t)
       (<[p := set_item None n]> (nodes t)) (next_node t)).
Proof.
  intros Hwf Hp Hitem.
  set (n1 := set_item None n).
  split; cbn [nodes m_items next_item next_node].
  - destruct (decide (p = m_root)) as [->|Hne].
    + rewrite lookup_insert_eq. by eexists.
    + rewrite lookup_insert_ne by done. apply Hwf.
  - intros p' n' Hp'.
    destruct (decide (p' = p)) as [->|Hne].
    + rewrite lookup_insert_eq in Hp'. injection Hp' as <-.
      pose proof (wf_node Hwf Hp) as [Wlen Wcache Wdown Wroot Wup Wint Witem Wfresh].
      split; cbn [nodes m_items next_item next_node].
      * done.
      * done.
      * intros i c Hbr. destruct (Wdown i c Hbr) as (cn & Hc & He).
        assert (c ≠ p) by (by eapply child_ne).
        exists cn. rewrite lookup_insert_ne by done. done.
      * done.
      * intros Hne. destruct (Wup Hne) as (pp & pn & Hpar & Hpp & Hbr).
        assert (pp ≠ p) by (by eapply parent_ne).
        exists pp, pn. rewrite lookup_insert_ne by done. done.
      * intros _ _ E. by destruct E.
      * done.
      * done.
    + rewrite lookup_insert_ne in Hp' by done.
      eapply node_wf_frame; [apply (wf_node Hwf Hp')|..]; cbn [nodes m_items next_item next_node].
      * intros i c cn Hbr Hc He.
        destruct (decide (c = p)) as [->|Hcp].
        -- exists n1. rewrite lookup_insert_eq. split; [done|]. by simplify_eq.
        -- exists cn. rewrite lookup_insert_ne by done. done.
      * intros pp pn Hpar Hpp Hbr.
        destruct (decide (pp = p)) as [->|Hpp'].
        -- exists n1. rewrite lookup_insert_eq. split; [done|]. by simplify_eq.
        -- exists pn. rewrite lookup_insert_ne by done. done.
      * intros h x Hh Hx. rewrite lookup_delete_ne; [done|].
        intros <-. apply Hne. by eapply (wf_handles _ _ _ _ Hwf).
      * lia.
      * done.
  - intros p1 m1 p2 m2 h H1 H2 Hi1 Hi2.
    assert (∀ q m, <[p:=n1]> (nodes t) !! q = Some m → item m = Some h →
              ∃ m0, nodes t !! q = Some m0 ∧ item m0 = Some h) as Hcase.
    { intros q m Hq Hi. destruct (decide (q = p)) as [->|?].
      - rewrite lookup_insert_eq in Hq. by simplify_eq.
      - rewrite lookup_insert_ne in Hq by done. by exists m. }
    destruct (Hcase _ _ H1 Hi1) as (? & ? & ?), (Hcase _ _ H2 Hi2) as (? & ? & ?).
    by eapply (wf_handles _ _ _ _ Hwf).
  - intros h x Hx. apply lookup_delete_Some in Hx as [_ Hx].
    by eapply (wf_items_fresh _ _ _ _ Hwf).
Qed.


Lemma leaf_no_child hole t p n i c :
  wf key_fn strict hole t → nodes t !! p = Some n → is_leaf n = true →
  branch n i = Some c → False.
Proof.
  intros Hwf Hp Hleaf Hbr.
  pose proof (wf_cache _ _ _ _ _ _ (wf_node Hwf Hp)) as Hc.
  unfold cache_ok in Hc. rewrite Hleaf in Hc. by rewrite Hc in Hbr.
Qed.

(** Unlinking a leaf that carries no entry (the second step of [erase]). *)
Lemma wf_prune t p n pp pn pn' :
  wf key_fn strict (Some p) t → nodes t !! p = Some n → p ≠ m_root →
  is_leaf n = true → item n = None →
  parent n = Some pp → nodes t !! pp = Some pn →
  cache_ok pn' → item pn' = item pn → key pn' = key pn → qlen pn' = qlen pn →
  parent pn' = parent pn → br_own pn' = br_own pn → length (branches pn') = 16 →
  (∀ j, branch pn' j = if decide (br_own n = j) then None else branch pn j) →
  wf key_fn strict (Some pp)
    (mk_trie (m_items t) (next_item t) (<[pp := pn']> (delete p (nodes t)))
       (next_node t)).
Proof.
  intros Hwf Hp Hne Hleaf Hitem Hpar Hpp Hc' Fi Fk Fq Fp Fo Fl Fb.
  destruct (wf_up Hwf Hp Hne)
    as (pp0 & pn0 & k & ? & ? & Hbrp & Hqlt & Hk & Hklen & Hnib & Hag).
  simplify_eq.
  assert (pp ≠ p) as Hppp by (by eapply parent_ne).
  assert (∀ i c, branch pn i = Some c → i ≠ br_own n → c ≠ p) as Hother.
  { intros i c Hbr Hi ->.
    destruct (wf_branch Hwf Hpp Hbr) as (? & ? & ? & ? & ? & _). simplify_eq. }
  split; cbn [nodes m_items next_item next_node].
  - destruct (decide (pp = m_root)) as [->|Hne'].
    + rewrite lookup_insert_eq. by eexists.
    + rewrite lookup_insert_ne, lookup_delete_ne by done. apply Hwf.
  - intros p' n' Hp'.
    destruct (decide (p' = pp)) as [->|Hnpp].
    + rewrite lookup_insert_eq in Hp'. injection Hp' as <-.
      pose proof (wf_node Hwf Hpp) as [Wlen Wcache Wdown Wroot Wup Wint Witem Wfresh].
      split; cbn [nodes m_items next_item next_node].
      * done.
      * done.
      * intros i c. rewrite Fb. case_decide as E; [done|]. intros Hbr.
        destruct (Wdown i c Hbr) as (cn & Hc & He).
        assert (c ≠ p) by (eapply Hother; eauto).
        assert (c ≠ pp) by (by eapply child_ne).
        exists cn. rewrite lookup_insert_ne, lookup_delete_ne by done. split; [done|].
        destruct He as (? & ? & ? & kc & ? & ? & ? & ?).
        unfold edge_ok. rewrite Fq, Fk. eauto 10.
      * rewrite Fq, Fp. done.
      * intros Hne'. destruct (Wup Hne') as (gp & gn & Hgpar & Hgp & Hbr).
        assert (gp ≠ pp) by (by eapply parent_ne).
        assert (gp ≠ p).
        { intros ->. simplify_eq. exact (leaf_no_child _ _ _ _ _ _ Hwf Hp Hleaf Hbr). }
        exists gp, gn. rewrite Fp, Fo, lookup_insert_ne, lookup_delete_ne by done. done.
      * intros _ _ E. by destruct E.
      * rewrite Fi, Fk, Fq. done.
      * done.
    + rewrite lookup_insert_ne in Hp' by done.
      apply lookup_delete_Some in Hp' as [Hnp Hp'].
      eapply node_wf_frame; [apply (wf_node Hwf Hp')|..]; cbn [nodes m_items next_item next_node].
      * intros i c cn Hbr Hc He.
        assert (c ≠ p).
        { intros ->. destruct He as (? & _). simplify_eq. }
        destruct (decide (c = pp)) as [->|Hcp].
        -- exists pn'. rewrite lookup_insert_eq. split; [done|]. simplify_eq.
           destruct He as (? & ? & ? & kc & ? & ? & ? & ?).
           unfold edge_ok. rewrite Fp, Fo, Fq, Fk. eauto 10.
        -- exists cn. rewrite lookup_insert_ne, lookup_delete_ne by done. done.
      * intros gp gn Hgpar Hgp Hbr.
        assert (gp ≠ p).
        { intros ->. simplify_eq. exact (leaf_no_child _ _ _ _ _ _ Hwf Hp Hleaf Hbr). }
        destruct (decide (gp = pp)) as [->|Hgpp].
        -- exists pn'. rewrite lookup_insert_eq. split; [done|]. simplify_eq.
           rewrite Fb. case_decide as E; [|done].
           rewrite <- E in Hbr. rewrite Hbrp in Hbr. by simplify_eq.
        -- exists gn. rewrite lookup_insert_ne, lookup_delete_ne by done. done.
      * done.
      * lia.
      * intros [= ->]. done.
  - intros p1 m1 p2 m2 h H1 H2 Hi1 Hi2.
    assert (∀ q m, <[pp:=pn']> (delete p (nodes t)) !! q = Some m → item m = Some h →
              ∃ m0, nodes t !! q = Some m0 ∧ item m0 = Some h) as Hcase.
    { intros q m Hq Hi. destruct (decide (q = pp)) as [->|?].
      - rewrite lookup_insert_eq in Hq. simplify_eq. exists pn. by rewrite <- Fi.
      - rewrite lookup_insert_ne in Hq by done.
        apply lookup_delete_Some in Hq as [_ Hq]. by exists m. }
    destruct (Hcase _ _ H1 Hi1) as (? & ? & ?), (Hcase _ _ H2 Hi2) as (? & ? & ?).
    by eapply (wf_handles _ _ _ _ Hwf).
  - apply Hwf.
Qed.


(** Splicing out an interim node that is left with one son (the third step
    of [erase]). *)
Lemma wf_splice t p n s sn pp pn :
  wf key_fn strict (Some p) t → nodes t !! p = Some n → p ≠ m_root →
  item n = None → br_1st n = br_last n →
  branch n (br_1st n) = Some s → nodes t !! s = Some sn →
  parent n = Some pp → nodes t !! pp = Some pn →
  wf key_fn strict None
    (mk_trie (m_items t) (next_item t)
       (<[s := set_br_own (br_own n) (set_parent (Some pp) sn)]>
          (<[pp := set_branch (br_own n) (Some s) pn]> (delete p (nodes t))))
       (next_node t)).
Proof.
  intros Hwf Hp Hne Hitem Honly Hbrs Hs Hpar Hpp.
  set (s' := set_br_own _ _). set (pn2 := set_branch _ _ _).
  destruct (wf_up Hwf Hp Hne)
    as (pp0 & pn0 & k & ? & ? & Hbrp & Hqlt & Hk & Hklen & Hnib & Hag).
  simplify_eq.
  destruct (wf_branch Hwf Hp Hbrs)
    as (sn0 & ks & ? & Hspar & Hsown & Hsne & Hsq & Hks & Hkslen & Hksnib & Hksag).
  simplify_eq.
  pose proof (br_own_lt n) as Hown16.
  assert (pp ≠ p) as Hppp by (by eapply parent_ne).
  assert (s ≠ p) as Hsp by (by eapply child_ne).
  assert (s ≠ pp) as Hspp.
  { intros ->. simplify_eq; try lia. }
  assert (∀ i c, branch n i = Some c → c = s) as Honly'.
  { intros i c Hbr.
    pose proof (wf_cache _ _ _ _ _ _ (wf_node Hwf Hp)) as Hc.
    unfold cache_ok, is_leaf in Hc. rewrite <- Honly, Nat.ltb_irrefl in Hc.
    destruct Hc as (_ & _ & Hr). specialize (Hr i ltac:(by rewrite Hbr)).
    assert (i = br_1st n) as -> by lia. congruence. }
  assert (∀ j, branch pn2 j = if decide (br_own n = j) then Some s else branch pn j) as Hb2.
  { intros j. unfold pn2. rewrite branch_set_branch; [done|].
    by rewrite (wf_len _ _ _ _ _ _ (wf_node Hwf Hpp)). }
  assert (edge_ok pp pn2 (br_own n) s') as Hedge.
  { unfold edge_ok, s', pn2. autorewrite with node.
    split; [done|]. split; [done|]. split; [lia|].
    exists ks. split; [done|]. split; [done|]. split.
    - rewrite <- Hnib. symmetry. apply (Hksag _ Hk). lia.
    - intros kp Hkp. eapply agree_trans; [by apply Hag|].
      eapply agree_mono; [by apply Hksag|lia]. }
  pose proof (wf_node Hwf Hs) as [Vlen Vcache Vdown Vroot Vup Vint Vitem Vfresh].
  pose proof (wf_node Hwf Hpp) as [Wlen Wcache Wdown Wroot Wup Wint Witem Wfresh].
  split; cbn [nodes m_items next_item next_node].
  - rewrite lookup_insert_ne by done.
    destruct (decide (pp = m_root)) as [->|Hne'].
    + rewrite lookup_insert_eq. by eexists.
    + rewrite lookup_insert_ne, lookup_delete_ne by done. apply Hwf.
  - intros p' n' Hp'.
    destruct (decide (p' = s)) as [->|Hns].
    { rewrite lookup_insert_eq in Hp'. injection Hp' as <-.
      split; cbn [nodes m_items next_item next_node].
      - done.
      - eapply cache_ok_ext; [..|exact Vcache]; unfold s'; by autorewrite with node.
      - intros i d Hd. change (branch s' i) with (branch sn i) in Hd.
        destruct (Vdown i d Hd) as (dn & Hdn & He).
        assert (d ≠ s) by (by eapply child_ne).
        assert (d ≠ pp).
        { intros ->. destruct He as (? & ? & ? & _). simplify_eq; try lia. }
        assert (d ≠ p).
        { intros ->. destruct He as (? & ? & ? & _). simplify_eq; try lia. }
        exists dn. rewrite !lookup_insert_ne, lookup_delete_ne by done. split; [done|].
        destruct He as (? & ? & ? & kd & ? & ? & ? & ?).
        unfold edge_ok, s'. autorewrite with node. eauto 10.
      - done.
      - intros _. exists pp, pn2.
        rewrite lookup_insert_ne, lookup_insert_eq by done.
        unfold s'. autorewrite with node. rewrite Hb2. by rewrite decide_True.
      - unfold s'. autorewrite with node. intros ? ? _. apply Vint; try done.
        intros [= ->]. done.
      - done.
      - done. }
    rewrite lookup_insert_ne in Hp' by done.
    destruct (decide (p' = pp)) as [->|Hnpp].
    { rewrite lookup_insert_eq in Hp'. injection Hp' as <-.
      split; cbn [nodes m_items next_item next_node].
      - unfold pn2. autorewrite with node. by rewrite length_insert.
      - by eapply cache_replace.
      - intros i d. rewrite Hb2. case_decide as E.
        + intros [= <-]. subst i. exists s'. rewrite lookup_insert_eq. done.
        + intros Hd. destruct (Wdown i d Hd) as (dn & Hdn & He).
          assert (d ≠ p).
          { intros ->. destruct He as (? & ? & _). simplify_eq. }
          assert (d ≠ s).
          { intros ->. destruct He as (? & _). simplify_eq. }
          assert (d ≠ pp) by (by eapply child_ne).
          exists dn. rewrite !lookup_insert_ne, lookup_delete_ne by done. split; [done|].
          destruct He as (? & ? & ? & kd & ? & ? & ? & ?).
          unfold edge_ok, pn2. autorewrite with node. eauto 10.
      - done.
      - intros Hne'. destruct (Wup Hne') as (gp & gn & Hgpar & Hgp & Hbr).
        assert (gp ≠ pp) by (by eapply parent_ne).
        assert (gp ≠ p).
        { intros ->. simplify_eq. pose proof (Honly' _ _ Hbr). done. }
        assert (gp ≠ s).
        { intros ->. simplify_eq.
          destruct (wf_branch Hwf Hs Hbr) as (? & ? & ? & ? & ? & ? & ? & _).
          simplify_eq; try lia. }
        exists gp, gn. unfold pn2. autorewrite with node.
        rewrite !lookup_insert_ne, lookup_delete_ne by done. done.
      - unfold pn2. autorewrite with node. intros ? ? _. apply Wint; try done.
        intros [= ->]. done.
      - done.
      - done. }
    rewrite lookup_insert_ne in Hp' by done.
    apply lookup_delete_Some in Hp' as [Hnp Hp'].
    eapply node_wf_frame; [apply (wf_node Hwf Hp')|..]; cbn [nodes m_items next_item next_node].
    + intros i d dn Hd Hdn He.
      assert (d ≠ p).
      { intros ->. destruct He as (? & _). simplify_eq. }
      assert (d ≠ s).
      { intros ->. destruct He as (? & _). simplify_eq. }
      rewrite lookup_insert_ne by done.
      destruct (decide (d = pp)) as [->|Hdp].
      * exists pn2. rewrite lookup_insert_eq. split; [done|]. simplify_eq.
        destruct He as (? & ? & ? & kd & ? & ? & ? & ?).
        unfold edge_ok, pn2. autorewrite with node. eauto 10.
      * exists dn. rewrite lookup_insert_ne, lookup_delete_ne by done. done.
    + intros gp gn Hgpar Hgp Hbr.
      assert (gp ≠ p).
      { intros ->. simplify_eq. pose proof (Honly' _ _ Hbr). done. }
      destruct (decide (gp = s)) as [->|Hgs].
      * exists s'. rewrite lookup_insert_eq. split; [done|]. by simplify_eq.
      * rewrite lookup_insert_ne by done.
        destruct (decide (gp = pp)) as [->|Hgpp].
        -- exists pn2. rewrite lookup_insert_eq. split; [done|]. simplify_eq.
           rewrite Hb2. case_decide as E; [|done].
           rewrite <- E in Hbr. rewrite Hbrp in Hbr. by simplify_eq.
        -- exists gn. rewrite lookup_insert_ne, lookup_delete_ne by done. done.
    + done.
    + lia.
    + intros [= ->]. done.
  - intros p1 m1 p2 m2 h H1 H2 Hi1 Hi2.
    assert (∀ q m, <[s:=s']> (<[pp:=pn2]> (delete p (nodes t))) !! q = Some m →
              item m = Some h → ∃ m0, nodes t !! q = Some m0 ∧ item m0 = Some h) as Hcase.
    { intros q m Hq Hi. destruct (decide (q = s)) as [->|?].
      { rewrite lookup_insert_eq in Hq. simplify_eq. by exists sn. }
      rewrite lookup_insert_ne in Hq by done.
      destruct (decide (q = pp)) as [->|?].
      { rewrite lookup_insert_eq in Hq. simplify_eq. by exists pn. }
      rewrite lookup_insert_ne in Hq by done.
      apply lookup_delete_Some in Hq as [_ Hq]. by exists m. }
    destruct (Hcase _ _ H1 Hi1) as (? & ? & ?), (Hcase _ _ H2 Hi2) as (? & ? & ?).
    by eapply (wf_handles _ _ _ _ Hwf).
  - apply Hwf.
Qed.

(** Lending an interim node the key of a descendant (the last step of
    [erase]). *)
Lemma wf_rekey t p n k k' :
  wf key_fn strict None t → nodes t !! p = Some n → p ≠ m_root →
  item n = None → key n = Some k → agree k k' (qlen n) →
  qlen n ≤ 2 * length k' →
  wf key_fn strict None
    (mk_trie (m_items t) (next_item t) (<[p := set_key (Some k') n]> (nodes t))
       (next_node t)).
Proof.
  intros Hwf Hp Hne Hitem Hk Hag Hlen.
  set (n1 := set_key _ _).
  assert (∀ c cn i, edge_ok p n i cn → edge_ok p n1 i cn) as Hdown.
  { intros c cn i (Hpar & Hown & Hq & kc & Hkc & Hkl & Hnib & Hag').
    repeat split; try done. exists kc. repeat split; try done.
    intros k0 [= <-]. cbn [qlen n1 set_key].
    eapply agree_trans; [apply agree_sym, Hag|]. by apply Hag'. }
  assert (∀ pp pn i, edge_ok pp pn i n → edge_ok pp pn i n1) as Hup.
  { intros pp pn i (Hpar & Hown & Hq & kc & Hkc & Hkl & Hnib & Hag').
    repeat split; try done. exists k'. simplify_eq. repeat split; try done.
    - rewrite <- Hnib. symmetry. by apply Hag.
    - intros kp Hkp. eapply agree_trans; [by apply Hag'|].
      eapply agree_mono; [done|lia]. }
  split; cbn [nodes m_items next_item next_node].
  - rewrite lookup_insert_ne by done. apply Hwf.
  - intros p' n' Hp'.
    destruct (decide (p' = p)) as [->|Hne'].
    + rewrite lookup_insert_eq in Hp'. injection Hp' as <-.
      pose proof (wf_node Hwf Hp) as [Wlen Wcache Wdown Wroot Wup Wint Witem Wfresh].
      split; cbn [nodes m_items next_item next_node].
      * done.
      * done.
      * intros i c Hbr. destruct (Wdown i c Hbr) as (cn & Hc & He).
        assert (c ≠ p) by (by eapply child_ne).
        exists cn. rewrite lookup_insert_ne by done. split; [done|]. by eapply Hdown.
      * done.
      * intros _. destruct (Wup Hne) as (pp & pn & Hpar & Hpp & Hbr).
        assert (pp ≠ p) by (by eapply parent_ne).
        exists pp, pn. rewrite lookup_insert_ne by done. done.
      * done.
      * intros h Hh. change (item n1) with (item n) in Hh. congruence.
      * done.
    + rewrite lookup_insert_ne in Hp' by done.
      eapply node_wf_frame; [apply (wf_node Hwf Hp')|..]; cbn [nodes m_items next_item next_node].
      * intros i c cn Hbr Hc He.
        destruct (decide (c = p)) as [->|Hcp].
        -- exists n1. rewrite lookup_insert_eq. split; [done|]. simplify_eq. by eapply Hup.
        -- exists cn. rewrite lookup_insert_ne by done. done.
      * intros pp pn Hpar Hpp Hbr.
        destruct (decide (pp = p)) as [->|Hpp'].
        -- exists n1. rewrite lookup_insert_eq. split; [done|]. by simplify_eq.
        -- exists pn. rewrite lookup_insert_ne by done. done.
      * done.
      * lia.
      * done.
  - intros p1 m1 p2 m2 h H1 H2 Hi1 Hi2.
    assert (∀ q m, <[p:=n1]> (nodes t) !! q = Some m → item m = Some h →
              ∃ m0, nodes t !! q = Some m0 ∧ item m0 = Some h) as Hcase.
    { intros q m Hq Hi. destruct (decide (q = p)) as [->|?].
      - rewrite lookup_insert_eq in Hq. simplify_eq. by exists n.
      - rewrite lookup_insert_ne in Hq by done. by exists m. }
    destruct (Hcase _ _ H1 Hi1) as (? & ? & ?), (Hcase _ _ H2 Hi2) as (? & ? & ?).
    by eapply (wf_handles _ _ _ _ Hwf).
  - apply Hwf.
Qed.

End Erase.

(** *** Running the steps of [erase] on an explicit state *)

Section EraseExec.

Context {T : Type}.
Implicit Types (its : gmap handle T) (h : gmap ptr node).

Lemma all_None n : (∀ i, branch n i = None) → Forall (λ c, c = None) (branches n).
Proof.
  intros H. apply Forall_lookup. intros i c Hi.
  specialize (H i). unfold branch in H. by rewrite Hi in H.
Qed.

Lemma destroy_leaf fuel its ni h nn p n :
  h !! p = Some n → (∀ i, branch n i = None) →
  destroy (S fuel) p (mk_trie its ni h nn) = Ok (mk_trie its ni (delete p h) nn).
Proof.
  intros H Hb. cbn [destroy]. rewrite (deref_mk _ _ _ _ _ _ H). cbn [mbind res_bind].
  apply all_None in Hb.
  assert (foldr (λ c acc, t ← acc; match c with
                                   | Some c0 => destroy fuel c0 t
                                   | None => Ok t
                                   end)
            (Ok (mk_trie its ni h nn)) (branches n) = Ok (mk_trie its ni h nn)) as ->.
  { induction Hb as [|c l Hc Hl IH]; [done|]. cbn [foldr]. rewrite IH.
    cbn [mbind res_bind]. by rewrite Hc. }
  done.
Qed.

Lemma reset_branch_leaf fuel its ni h nn p ix v n old on :
  h !! p = Some n → branch n ix = Some old → old ≠ p →
  h !! old = Some on → (∀ i, branch on i = None) →
  reset_branch (S fuel) p ix v (mk_trie its ni h nn) =
    Ok (mk_trie its ni (<[p := set_branch ix v n]> (delete old h)) nn).
Proof.
  intros H Hb Hne Ho Hleaf. unfold reset_branch.
  rewrite (deref_mk _ _ _ _ _ _ H). cbn [mbind res_bind].
  rewrite (update_mk _ _ _ _ _ _ _ H). cbn [mbind res_bind]. rewrite Hb.
  erewrite destroy_leaf; [|rewrite lookup_insert_ne by done; exact Ho|done].
  by rewrite delete_insert_ne by done.
Qed.

(** The cache update of the parent after its branch [ix] was reset. *)
Lemma shrink_exec its ni h nn pp ix pn pn' :
  h !! pp = Some pn → shrink ix pn = Ok pn' →
  (if has_only_son pn then update pp (br_set 1 0) (mk_trie its ni h nn)
   else if br_1st pn =? ix then
     j ← scan_up 16 pn (ix + 1); update pp (set_br_1st j) (mk_trie its ni h nn)
   else if br_last pn =? ix then
     j ← (match ix with 0 => Fault | S ix' => scan_down pn ix' end);
     update pp (set_br_last j) (mk_trie its ni h nn)
   else Ok (mk_trie its ni h nn)) =
  Ok (mk_trie its ni (<[pp := pn']> h) nn).
Proof.
  intros H. unfold shrink. destruct (has_only_son pn).
  { intros [= <-]. by rewrite (update_mk _ _ _ _ _ _ _ H). }
  destruct (br_1st pn =? ix).
  { destruct (scan_up 16 pn (ix + 1)) as [j| |]; try done. cbn [mbind res_bind].
    intros [= <-]. by rewrite (update_mk _ _ _ _ _ _ _ H). }
  destruct (br_last pn =? ix).
  { destruct (match ix with 0 => Fault | S ix' => scan_down pn ix' end) as [j| |];
      try done. cbn [mbind res_bind].
    intros [= <-]. by rewrite (update_mk _ _ _ _ _ _ _ H). }
  intros [= <-]. by rewrite insert_id.
Qed.

End EraseExec.

Section EraseSpec.

Context {T : Type}.
Variable key_fn : T -> list byte.
Variable strict : bool.

Implicit Types (t : trie T) (p c : ptr) (n : node).

(** The loop that lends the key [k'] to the interim nodes on the way up. *)
Lemma rekey_spec k' fuel : ∀ t p n,
  wf key_fn strict None t → nodes t !! p = Some n →
  (p ≠ m_root → ∃ k, key n = Some k ∧ agree k k' (qlen n)) →
  qlen n ≤ 2 * length k' → qlen n < fuel →
  ∃ t', rekey fuel (Some k') (Some p) t = Ok t' ∧ wf key_fn strict None t' ∧
    m_items t' = m_items t ∧ ∀ q, item_at (nodes t') q = item_at (nodes t) q.
Proof.
  induction fuel as [|fuel IH]; intros t p n Hwf Hp Hag Hlen Hfuel; [lia|].
  cbn [rekey deref_opt]. unfold deref at 1. rewrite Hp. cbn [of_option mbind res_bind].
  destruct (decide (item n = None)) as [Hi|Hi]; cycle 1.
  { rewrite bool_decide_eq_false_2 by done. cbn [andb]. eauto. }
  destruct (decide (p = m_root)) as [->|Hne].
  { rewrite bool_decide_eq_true_2 by done.
    rewrite bool_decide_eq_false_2 by (intros H; by apply H). cbn [andb]. eauto. }
  rewrite !bool_decide_eq_true_2 by congruence. cbn [andb of_option mbind res_bind].
  destruct (Hag Hne) as (k & Hk & Hagk).
  pose proof (wf_rekey key_fn strict _ _ _ _ k' Hwf Hp Hne Hi Hk Hagk Hlen) as Hwf'.
  destruct (wf_up Hwf Hp Hne)
    as (pp & pn & k0 & Hpar & Hpp & Hbr & Hq & _).
  assert (pp ≠ p) as Hppp by exact (parent_ne _ _ _ _ _ _ _ Hwf Hp Hpar).
  rewrite Hpar.
  destruct t as [its ni h nn]. cbn [nodes m_items next_item next_node] in *.
  rewrite (update_mk _ _ _ _ _ _ _ Hp). cbn [mbind res_bind].
  set (t1 := mk_trie its ni (<[p := _]> h) nn) in *.
  assert (nodes t1 !! pp = Some pn) as Hpp1.
  { unfold t1. cbn [nodes]. by rewrite lookup_insert_ne. }
  assert (nodes t1 !! p = Some (set_key (Some k') n)) as Hp1.
  { unfold t1. cbn [nodes]. by rewrite lookup_insert_eq. }
  destruct (wf_branch Hwf' Hpp1 Hbr)
    as (cn & kc & Hc & _ & _ & _ & Hq' & Hkc & Hkl & Hnib & Hagc).
  rewrite Hp1 in Hc. injection Hc as <-. cbn [key set_key] in Hkc. injection Hkc as <-.
  destruct (IH t1 pp pn Hwf' Hpp1) as (t' & Hrun & Hwf2 & Hits & Hat).
  - intros Hner. destruct (nonroot_key Hwf' Hpp1 Hner) as (kp & Hkp & _).
    exists kp. split; [done|]. by apply Hagc.
  - lia.
  - lia.
  - exists t'. split; [done|]. split; [done|]. split; [by rewrite Hits|].
    intros q. rewrite Hat. unfold t1. cbn [nodes]. rewrite item_at_insert.
    case_decide as E; [|done]. subst q. by rewrite (item_at_Some _ _ _ Hp).
Qed.

(** The three repair steps of [erase], named. *)
Definition erase_prune (fuel : nat) (nod : ptr) (nd : node) (t : trie T)
    : res (ptr * trie T) :=
  if is_leaf nd && bool_decide (nod ≠ m_root) then
    let br_ix := br_own nd in
    par ← of_option (parent nd);
    t ← reset_branch fuel par br_ix None t;
    pn ← deref t par;
    t ← (if has_only_son pn then update par (br_set 1 0) t
         else if br_1st pn =? br_ix then
           ix ← scan_up 16 pn (br_ix + 1);
           update par (set_br_1st ix) t
         else if br_last pn =? br_ix then
           ix ← (match br_ix with 0 => Fault | S ix => scan_down pn ix end);
           update par (set_br_last ix) t
         else Ok t);
    Ok (par, t)
  else Ok (nod, t).

Definition erase_splice (fuel : nat) (nod : ptr) (nd : node) (t : trie T)
    : res (ptr * trie T) :=
  if has_only_son nd && bool_decide (item nd = None) && bool_decide (nod ≠ m_root) then
    par ← of_option (parent nd);
    let br_ix := br_own nd in
    let son := branch nd (br_1st nd) in
    t ← update nod (set_branch (br_1st nd) None) t;
    t ← reset_branch fuel par br_ix son t;
    son ← of_option son;
    t ← update son (set_parent (Some par)) t;
    t ← update son (set_br_own br_ix) t;
    Ok (par, t)
  else Ok (nod, t).

Definition erase_rekey (fuel : nat) (nod : ptr) (nd : node) (t : trie T)
    : res (trie T) :=
  if negb (is_leaf nd) && bool_decide (item nd = None) && bool_decide (nod ≠ m_root) then
    son ← deref_opt t (branch nd (br_1st nd));
    rekey fuel (key son) (Some nod) t
  else Ok t.

Lemma erase_unfold fuel nod t :
  erase fuel (Some nod) t =
    (iter ← (incr fuel t (Some nod) : res iterator);
     nd ← deref t nod;
     h ← of_option (item nd);
     _ ← of_option (m_items t !! h);
     let t := mk_trie (delete h (m_items t)) (next_item t) (nodes t) (next_node t) in
     t ← update nod (set_item None) t;
     nd ← deref t nod;
     '(nod, t) ← erase_prune fuel nod nd t;
     nd ← deref t nod;
     '(nod, t) ← erase_splice fuel nod nd t;
     nd ← deref t nod;
     t ← erase_rekey fuel nod nd t;
     Ok (Returns iter, t) : res (outcome iterator * trie T)).
Proof. reflexivity. Qed.

Lemma prune_spec fuel t p n :
  wf key_fn strict (Some p) t → nodes t !! p = Some n → item n = None →
  1 ≤ fuel →
  ∃ q t' nq, erase_prune fuel p n t = Ok (q, t') ∧
    wf key_fn strict (Some q) t' ∧ nodes t' !! q = Some nq ∧
    (q ≠ m_root → item nq = None → is_leaf nq = false) ∧
    qlen nq ≤ qlen n ∧ m_items t' = m_items t ∧
    ∀ r, item_at (nodes t') r = item_at (nodes t) r.
Proof.
  intros Hwf Hp Hi Hfuel. unfold erase_prune.
  destruct (is_leaf n) eqn:Hleaf; cycle 1.
  { cbn [andb]. exists p, t, n. split_and!; done. }
  destruct (decide (p = m_root)) as [->|Hne].
  { rewrite bool_decide_eq_false_2 by (intros H; by apply H). cbn [andb].
    exists m_root, t, n. split_and!; done. }
  rewrite bool_decide_eq_true_2 by done. cbn [andb].
  destruct (wf_up Hwf Hp Hne)
    as (pp & pn & k & Hpar & Hpp & Hbr & Hq & _).
  assert (pp ≠ p) as Hppp by exact (parent_ne _ _ _ _ _ _ _ Hwf Hp Hpar).
  pose proof (wf_node Hwf Hpp) as [Wlen Wcache _ _ _ Wint _ _].
  destruct (shrink_spec _ _ _ Wcache Wlen Hbr)
    as (pn' & Hsh & Hc' & Fi & Fk & Fq & Fp & Fo & Fl & Fb & Fleaf).
  pose proof (wf_prune key_fn strict _ _ _ _ _ pn' Hwf Hp Hne Hleaf Hi Hpar Hpp
                Hc' Fi Fk Fq Fp Fo Fl Fb) as Hwf'.
  assert (∀ i, branch n i = None) as Hnone.
  { intros i. destruct (branch n i) eqn:E; [|done].
    by destruct (leaf_no_child key_fn strict _ _ _ _ _ _ Hwf Hp Hleaf E). }
  destruct t as [its ni h nn]. cbn [nodes m_items next_item next_node] in *.
  rewrite Hpar. cbn [of_option mbind res_bind]. destruct fuel as [|fuel]; [lia|].
  rewrite (reset_branch_leaf _ _ _ _ _ _ _ _ _ _ _ Hpp Hbr (not_eq_sym Hppp) Hp Hnone).
  cbn [mbind res_bind].
  erewrite deref_mk by apply lookup_insert_eq. cbn [mbind res_bind].
  erewrite shrink_exec; [|apply lookup_insert_eq|exact Hsh].
  cbn [mbind res_bind]. rewrite insert_insert_eq.
  eexists pp, _, pn'. split; [done|]. split; [done|]. cbn [nodes m_items].
  split; [by rewrite lookup_insert_eq|].
  split.
  { intros Hner Hin. apply Fleaf. apply Wint; [done|congruence|congruence]. }
  split; [lia|]. split; [done|].
  intros r. rewrite item_at_insert. case_decide as E.
  - subst r. by rewrite Fi, (item_at_Some _ _ _ Hpp).
  - unfold item_at. destruct (decide (r = p)) as [->|E2].
    + by rewrite lookup_delete_eq, Hp.
    + by rewrite lookup_delete_ne.
Qed.

Lemma splice_spec fuel t q nq :
  wf key_fn strict (Some q) t → nodes t !! q = Some nq →
  (q ≠ m_root → item nq = None → is_leaf nq = false) → 1 ≤ fuel →
  ∃ r t' nr, erase_splice fuel q nq t = Ok (r, t') ∧
    wf key_fn strict None t' ∧ nodes t' !! r = Some nr ∧
    qlen nr ≤ qlen nq ∧ m_items t' = m_items t ∧
    ∀ x, item_at (nodes t') x = item_at (nodes t) x.
Proof.
  intros Hwf Hq Hnl Hfuel. unfold erase_splice.
  destruct (has_only_son nq && bool_decide (item nq = None) && bool_decide (q ≠ m_root))
    eqn:Hcond; cycle 1.
  { exists q, t, nq. split_and!; try done.
    apply (wf_close _ _ _ _ Hwf). intros p n [= <-] Hp Hne Hi.
    rewrite Hq in Hp. injection Hp as <-.
    specialize (Hnl Hne Hi). unfold is_leaf in Hnl. apply Nat.ltb_ge in Hnl.
    rewrite !bool_decide_eq_true_2, !andb_true_r in Hcond by done.
    unfold has_only_son in Hcond. apply Nat.eqb_neq in Hcond. lia. }
  apply andb_true_iff in Hcond as [Hcond Hne%bool_decide_eq_true_1].
  apply andb_true_iff in Hcond as [Honly%Nat.eqb_eq Hi%bool_decide_eq_true_1].
  specialize (Hnl Hne Hi).
  destruct (wf_up Hwf Hq Hne)
    as (pp & pn & k & Hpar & Hpp & Hbr & Hql & _).
  assert (pp ≠ q) as Hppq by exact (parent_ne _ _ _ _ _ _ _ Hwf Hq Hpar).
  pose proof (wf_node Hwf Hq) as [Wlen Wcache _ _ _ _ _ _].
  unfold cache_ok in Wcache. rewrite Hnl in Wcache.
  destruct Wcache as ([s Hs] & _ & Wrange).
  destruct (wf_branch Hwf Hq Hs)
    as (sn & ks & Hsn & Hspar & Hsown & Hsne & _).
  assert (s ≠ q) as Hsq by exact (child_ne _ _ _ _ _ _ _ _ Hwf Hq Hs).
  assert (s ≠ pp) as Hspp.
  { intros ->. rewrite Hpp in Hsn. injection Hsn as <-.
    destruct (wf_branch Hwf Hq Hs) as (sn & ? & Hsn' & _ & _ & _ & Hlt & _).
    rewrite Hpp in Hsn'. injection Hsn' as <-. lia. }
  pose proof (wf_splice key_fn strict _ _ _ _ _ _ _ Hwf Hq Hne Hi Honly Hs Hsn Hpar Hpp)
    as Hwf'.
  assert (∀ i, branch (set_branch (br_1st nq) None nq) i = None) as Hnone.
  { intros i. pose proof (branch_Some_lt _ _ _ Hs).
    rewrite branch_set_branch by done. case_decide as E; [done|].
    destruct (branch nq i) eqn:Hb; [|done].
    specialize (Wrange i). rewrite Hb in Wrange.
    specialize (Wrange ltac:(done)). lia. }
  destruct t as [its ni h nn]. cbn [nodes m_items next_item next_node] in *.
  rewrite Hpar. cbn [of_option mbind res_bind].
  rewrite (update_mk _ _ _ _ _ _ _ Hq). cbn [mbind res_bind].
  destruct fuel as [|fuel]; [lia|].
  erewrite (reset_branch_leaf _ _ _ _ _ pp _ _ pn q);
    [|by rewrite lookup_insert_ne|done|done|by rewrite lookup_insert_eq|done].
  cbn [mbind res_bind]. rewrite Hs. cbn [of_option mbind res_bind].
  rewrite delete_insert_eq.
  erewrite update_mk; cycle 1.
  { rewrite lookup_insert_ne by done. rewrite lookup_delete_ne by done. exact Hsn. }
  cbn [mbind res_bind].
  erewrite update_mk by apply lookup_insert_eq.
  cbn [mbind res_bind]. rewrite insert_insert_eq.
  eexists pp, _, _. split; [done|]. split; [exact Hwf'|]. cbn [nodes m_items].
  split. { rewrite lookup_insert_ne by done. by rewrite lookup_insert_eq. }
  split. { autorewrite with node. lia. }
  split; [done|].
  intros x. rewrite !item_at_insert. case_decide as E1.
  { subst x. autorewrite with node. by rewrite (item_at_Some _ _ _ Hsn). }
  case_decide as E2.
  { subst x. autorewrite with node. by rewrite (item_at_Some _ _ _ Hpp). }
  unfold item_at. destruct (decide (x = q)) as [->|E3].
  - by rewrite lookup_delete_eq, Hq.
  - by rewrite lookup_delete_ne.
Qed.

Lemma rekey_stage_spec fuel t r nr :
  wf key_fn strict None t → nodes t !! r = Some nr → qlen nr < fuel →
  ∃ t', erase_rekey fuel r nr t = Ok t' ∧ wf key_fn strict None t' ∧
    m_items t' = m_items t ∧ ∀ x, item_at (nodes t') x = item_at (nodes t) x.
Proof.
  intros Hwf Hr Hfuel. unfold erase_rekey.
  destruct (negb (is_leaf nr) && bool_decide (item nr = None) && bool_decide (r ≠ m_root))
    eqn:Hcond; cycle 1.
  { by exists t. }
  apply andb_true_iff in Hcond as [Hcond Hne%bool_decide_eq_true_1].
  apply andb_true_iff in Hcond as [Hnl%negb_true_iff Hi%bool_decide_eq_true_1].
  pose proof (wf_node Hwf Hr) as [Wlen Wcache _ _ _ _ _ _].
  unfold cache_ok in Wcache. rewrite Hnl in Wcache.
  destruct Wcache as ([s Hs] & _ & Wrange).
  destruct (wf_branch Hwf Hr Hs)
    as (sn & ks & Hsn & Hspar & Hsown & Hsne & Hql & Hks & Hkl & Hnib & Hag).
  rewrite Hs. cbn [deref_opt]. unfold deref. rewrite Hsn.
  cbn [of_option mbind res_bind]. rewrite Hks.
  apply (rekey_spec ks fuel t r nr Hwf Hr); [|lia|done].
  intros _. destruct (nonroot_key Hwf Hr Hne) as (k & Hk & _).
  exists k. split; [done|]. by apply Hag.
Qed.

Lemma deref_lookup t p n : nodes t !! p = Some n → deref t p = Ok n.
Proof. unfold deref. by intros ->. Qed.

(** [erase] on an entry: given the successor [it'] computed by the increment,
    the trie that results is well formed and has lost exactly that entry. *)
Theorem erase_spec fuel t p x it' :
  wf key_fn strict None t → entry t p x →
  incr fuel t (Some p) = Ok it' →
  (∀ n, nodes t !! p = Some n → qlen n < fuel) →
  ∃ t', erase fuel (Some p) t = Ok (Returns it', t') ∧
    wf key_fn strict None t' ∧
    ∀ p' x', entry t' p' x' ↔ entry t p' x' ∧ p' ≠ p.
Proof.
  intros Hwf (n & hd & Hp & Hi & Hx)%entry_node Hincr Hfuel.
  specialize (Hfuel n Hp).
  rewrite erase_unfold, Hincr. cbn [mbind res_bind].
  rewrite (deref_lookup _ _ _ Hp). cbn [of_option mbind res_bind].
  rewrite Hi. cbn [of_option mbind res_bind]. rewrite Hx. cbn [of_option mbind res_bind].
  pose proof (wf_clear key_fn strict _ _ _ _ Hwf Hp Hi) as Hwf1.
  assert (∀ q hq, item_at (nodes t) q = Some hq → q ≠ p → hq ≠ hd) as Hinj.
  { intros q hq Hq Hne ->. unfold item_at in Hq.
    destruct (nodes t !! q) as [nq|] eqn:E; [|done].
    by destruct Hne; eapply (wf_handles _ _ _ _ Hwf q nq p n hd). }
  destruct t as [its ni h nn]. cbn [nodes m_items next_item next_node] in *.
  rewrite (update_mk _ _ _ _ _ _ _ Hp). cbn [mbind res_bind].
  erewrite deref_mk by apply lookup_insert_eq. cbn [mbind res_bind].
  set (t1 := mk_trie (delete hd its) ni (<[p := set_item None n]> h) nn) in *.
  destruct (prune_spec fuel t1 p (set_item None n) Hwf1)
    as (q & t2 & nq & Hrun1 & Hwf2 & Hq & Hnl & Hql & Hits2 & Hat2);
    [apply lookup_insert_eq|done|lia|].
  rewrite Hrun1. cbn [mbind res_bind]. rewrite (deref_lookup _ _ _ Hq).
  cbn [of_option mbind res_bind].
  destruct (splice_spec fuel t2 q nq Hwf2 Hq Hnl)
    as (r & t3 & nr & Hrun2 & Hwf3 & Hr & Hrl & Hits3 & Hat3); [lia|].
  rewrite Hrun2. cbn [mbind res_bind]. rewrite (deref_lookup _ _ _ Hr).
  cbn [of_option mbind res_bind].
  destruct (rekey_stage_spec fuel t3 r nr Hwf3 Hr)
    as (t4 & Hrun3 & Hwf4 & Hits4 & Hat4).
  { cbn [qlen set_item] in Hql. lia. }
  rewrite Hrun3. cbn [mbind res_bind].
  exists t4. split; [done|]. split; [done|].
  intros p' x'. unfold entry. rewrite Hits4, Hits3, Hits2.
  assert (item_at (nodes t4) p' = if decide (p = p') then None else item_at h p') as ->.
  { rewrite Hat4, Hat3, Hat2. unfold t1. cbn [nodes]. by rewrite item_at_insert. }
  cbn [nodes m_items]. unfold t1. cbn [m_items]. split.
  - intros (hq & Hat & Hlk). case_decide as E; [done|].
    split; [|congruence]. exists hq. split; [done|].
    rewrite lookup_delete_ne in Hlk; [done|]. apply not_eq_sym. by eapply Hinj.
  - intros [(hq & Hat & Hlk) Hne]. exists hq. rewrite decide_False by congruence.
    split; [done|]. rewrite lookup_delete_ne; [done|]. apply not_eq_sym. by eapply Hinj.
Qed.

End EraseSpec.

(** ** The path of a key through the trie *)

Section Chain.

Context {T : Type}.
Variable key_fn : T -> list byte.
Variable strict : bool.
Variable hole : option ptr.
Variable t : trie T.
Hypothesis Hwf : wf key_fn strict hole t.
Variable K : list byte.

(** The [j]-th node met when the half-bytes of [K] are followed from the
    root, whatever the keys on the way say. *)
Fixpoint nth_node (j : nat) : option ptr :=
  match j with
  | 0 => Some m_root
  | S j' =>
      p ← nth_node j';
      n ← nodes t !! p;
      ix ← nibble K (qlen n);
      branch n ix
  end.

Lemma nth_node_S j c :
  nth_node (S j) = Some c ↔
  ∃ p n ix, nth_node j = Some p ∧ nodes t !! p = Some n ∧
    nibble K (qlen n) = Some ix ∧ branch n ix = Some c.
Proof.
  cbn [nth_node]. split.
  - intros H. destruct (nth_node j) as [p|]; [|done]. cbn in H.
    destruct (nodes t !! p) as [n|] eqn:Hp; [|done]. cbn in H.
    destruct (nibble K (qlen n)) as [ix|] eqn:Hix; [|done]. cbn in H.
    by exists p, n, ix.
  - intros (p & n & ix & -> & Hp & Hix & Hb). cbn. rewrite Hp. cbn. by rewrite Hix.
Qed.

Lemma nth_node_Some j p : nth_node j = Some p → is_Some (nodes t !! p).
Proof.
  destruct j as [|j].
  - intros [= <-]. apply (wf_has_root _ _ _ _ Hwf).
  - intros (pp & pn & ix & _ & Hpp & _ & Hb)%nth_node_S.
    destruct (wf_branch Hwf Hpp Hb) as (cn & ? & ? & _). by exists cn.
Qed.

(** The path lengths grow along the way. *)
Lemma nth_node_mono j j' p n p' n' :
  nth_node j = Some p → nodes t !! p = Some n →
  nth_node j' = Some p' → nodes t !! p' = Some n' →
  j < j' → qlen n < qlen n'.
Proof.
  intros Hj Hp Hj' Hp' Hlt. revert p' n' Hj' Hp'.
  induction Hlt as [|j' Hle IH]; intros p' n' Hj' Hp'.
  - apply nth_node_S in Hj' as (p0 & n0 & ix & Hj0 & Hp0 & _ & Hb).
    rewrite Hj in Hj0. injection Hj0 as <-. rewrite Hp in Hp0. injection Hp0 as <-.
    destruct (wf_branch Hwf Hp Hb) as (cn & ? & ? & _ & _ & _ & ? & _).
    by simplify_eq.
  - apply nth_node_S in Hj' as (p0 & n0 & ix & Hj0 & Hp0 & _ & Hb).
    specialize (IH _ _ Hj0 Hp0).
    destruct (wf_branch Hwf Hp0 Hb) as (cn & ? & ? & _ & _ & _ & ? & _).
    simplify_eq. lia.
Qed.

(** A node whose path is a prefix of [K] lies on the way. *)
Lemma on_path_nth p n : nodes t !! p = Some n → on_path K p n → ∃ j, nth_node j = Some p.
Proof.
  remember (qlen n) as q eqn:Hq. revert p n Hq.
  induction (lt_wf q) as [q _ IH]. intros p n -> Hp [Hlen Hon].
  destruct (decide (p = m_root)) as [->|Hne]; [by exists 0|].
  destruct Hon as [|(k & Hk & Hag)]; [done|].
  destruct (wf_up Hwf Hp Hne)
    as (pp & pn & k0 & Hpar & Hpp & Hbr & Hq & Hk0 & Hkl & Hnib & Hagp).
  simplify_eq.
  destruct (IH (qlen pn) Hq pp pn eq_refl Hpp) as [j Hj].
  { eapply (on_path_up _ _ _ _ Hwf K p n k (qlen n)); try done. lia. }
  exists (S j). apply nth_node_S. exists pp, pn, (br_own n).
  split; [done|]. split; [done|]. split; [|done].
  rewrite <- Hnib. symmetry. by apply Hag.
Qed.

(** The nodes on the way to a node whose path is a prefix of [K] have such
    paths too. *)
Lemma nth_on_path j' : ∀ e ne j,
  nth_node j' = Some e → nodes t !! e = Some ne → on_path K e ne → j ≤ j' →
  ∃ p n, nth_node j = Some p ∧ nodes t !! p = Some n ∧ on_path K p n.
Proof.
  induction j' as [|j' IH]; intros e ne j Hj' He Hon Hle.
  { assert (j = 0) as -> by lia. by exists e, ne. }
  destruct (decide (j = S j')) as [->|Hne]; [by exists e, ne|].
  apply nth_node_S in Hj' as (p0 & n0 & ix & Hj0 & Hp0 & Hix & Hb).
  destruct (wf_branch Hwf Hp0 Hb)
    as (cn & kc & ? & Hpar & Hown & Hner & Hq & Hkc & Hkl & Hnib & Hag).
  simplify_eq.
  apply (IH p0 n0 j Hj0 Hp0); [|lia].
  destruct Hon as [Hlen [|(k & Hk & Hagk)]]; [done|]. simplify_eq.
  eapply (on_path_up _ _ _ _ Hwf K e ne k (qlen ne)); try done. lia.
Qed.

(** Two nodes whose paths are prefixes of [K] of the same length are one. *)
Lemma on_path_unique p n p' n' :
  nodes t !! p = Some n → on_path K p n →
  nodes t !! p' = Some n' → on_path K p' n' →
  qlen n = qlen n' → p = p'.
Proof.
  intros Hp Hon Hp' Hon' Hq.
  destruct (on_path_nth _ _ Hp Hon) as [j Hj].
  destruct (on_path_nth _ _ Hp' Hon') as [j' Hj'].
  destruct (Nat.lt_total j j') as [Hlt|[->|Hlt]].
  - pose proof (nth_node_mono _ _ _ _ _ _ Hj Hp Hj' Hp' Hlt). lia.
  - congruence.
  - pose proof (nth_node_mono _ _ _ _ _ _ Hj' Hp' Hj Hp Hlt). lia.
Qed.

(** Below a node whose path is a proper prefix of the path of [e], the slot
    for the next half-byte of [K] holds a node on the way to [e]. *)
Lemma on_path_down p n e ne :
  nodes t !! p = Some n → on_path K p n →
  nodes t !! e = Some ne → on_path K e ne →
  qlen n < qlen ne →
  ∃ ix c cn, nibble K (qlen n) = Some ix ∧ branch n ix = Some c ∧
    nodes t !! c = Some cn ∧ on_path K c cn ∧ qlen cn ≤ qlen ne.
Proof.
  intros Hp Hon He Hone Hq.
  destruct (on_path_nth _ _ Hp Hon) as [j Hj].
  destruct (on_path_nth _ _ He Hone) as [j' Hj'].
  assert (j < j') as Hlt.
  { destruct (Nat.lt_total j j') as [Hlt|[->|Hlt]]; [done| |].
    - simplify_eq. lia.
    - pose proof (nth_node_mono _ _ _ _ _ _ Hj' He Hj Hp Hlt). lia. }
  destruct (nth_on_path j' e ne (S j) Hj' He Hone) as (c & cn & Hc & Hcn & Honc); [lia|].
  pose proof Hc as Hc'.
  apply nth_node_S in Hc' as (p0 & n0 & ix & Hj0 & Hp0 & Hix & Hb).
  simplify_eq. exists ix, c, cn. split_and!; try done.
  destruct (decide (S j = j')) as [<-|Hne]; [by simplify_eq|].
  pose proof (nth_node_mono _ _ _ _ _ _ Hc Hcn Hj' He). lia.
Qed.

End Chain.

(** ** Looking a key up *)

Section Find.

Context {T : Type}.
Variable key_fn : T -> list byte.
Variable KeyTracing : key_tracing.
Variable strict : bool.
Variable hole : option ptr.
Variable t : trie T.
Hypothesis Hwf : wf key_fn strict hole t.
Variable K : list byte.

(** The walk finds the node that holds [K], in either tracing mode. *)
Theorem walk_present fuel slob e ne :
  2 ≤ fuel → nodes t !! e = Some ne → on_path K e ne →
  qlen ne = 2 * length K → item ne ≠ None →
  trace_walk KeyTracing fuel t K (length K) slob = Ok (Hit (Some e, 2 * length K, true)).
Proof.
  intros Hfuel He Hone Hq Hitem.
  destruct (trace_walk_sound key_fn KeyTracing strict hole t Hwf K slob fuel Hfuel)
    as (ex & -> & Hspec).
  f_equal. destruct Hspec as [p n Hp Hon Hqn|p n ix Hp Hon Hlt Hix Hb
    |p n ix c cn kc q Hp Hon Hix Hb Hc Hkc Hq' Hqle Hag Hdiff
    |p n ix c cn a Hslob Hp Hlt Hix Hb Hc Hleaf Hup].
  - assert (p = e) as -> by (eapply (on_path_unique _ _ _ _ Hwf K); try done; lia).
    simplify_eq. by rewrite bool_decide_eq_true_2.
  - destruct (on_path_down _ _ _ _ Hwf K p n e ne)
      as (ix' & c & cn & Hix' & Hb' & _); try done; [lia|]. congruence.
  - destruct (on_path_down _ _ _ _ Hwf K p n e ne)
      as (ix' & c' & cn' & Hix' & Hb' & Hc' & [_ Honc] & Hle); try done; [lia|].
    simplify_eq.
    destruct (wf_branch Hwf Hp Hb) as (? & ? & ? & _ & _ & Hner & _).
    destruct Honc as [|(k & Hk & Hagk)]; [done|]. simplify_eq.
    destruct Hdiff; [lia|]. apply Hagk. lia.
  - (* the node below which the leaf hangs has a path that is a prefix of [K] *)
    assert (on_path K p n) as Hon.
    { split; [lia|]. destruct (decide (p = m_root)) as [|Hne]; [by left|right].
      destruct (Hup Hne) as (k & pp & pn & Hk & Hpar & Hpp & Ha & Hagk).
      destruct (wf_up Hwf Hp Hne)
        as (pp' & pn' & k' & ? & ? & Hbr & Hqp & ? & Hkl & Hnib & Hagp).
      simplify_eq.
      assert (on_path K pp pn) as Honp.
      { split; [lia|]. destruct (decide (pp = m_root)) as [|Hne']; [by left|right].
        destruct (nonroot_key Hwf Hpp Hne') as (kp & Hkp & _).
        exists kp. split; [done|]. eapply agree_trans; [by apply Hagp|].
        eapply agree_mono; [done|lia]. }
      destruct (on_path_down _ _ _ _ Hwf K pp pn e ne)
        as (ix' & c' & cn' & Hix' & Hb' & Hc' & [_ Honc] & Hle); try done; [lia|].
      assert (ix' = br_own n) as ->.
      { rewrite Hagk in Hnib by done. congruence. }
      simplify_eq. exists k. split; [done|].
      destruct (wf_branch Hwf Hpp Hbr) as (? & ? & ? & _ & _ & Hner & _).
      destruct Honc as [|(k2 & Hk2 & Hagk2)]; [done|]. by simplify_eq. }
    destruct (on_path_down _ _ _ _ Hwf K p n e ne)
      as (ix' & c' & cn' & Hix' & Hb' & Hc' & Honc & Hle); try done; [lia|].
    simplify_eq.
    destruct (decide (qlen cn = qlen ne)) as [E|E].
    + assert (c = e) as -> by (by eapply (on_path_unique _ _ _ _ Hwf K)). done.
    + destruct (on_path_down _ _ _ _ Hwf K c cn e ne)
        as (ix2 & c2 & cn2 & Hix2 & Hb2 & _); try done; [lia|].
      by destruct (leaf_no_child _ _ _ _ _ _ _ _ Hwf Hc Hleaf Hb2).
Qed.

(** [find] on a key that a node holds with an entry. *)
Theorem find_present fuel e ne :
  2 ≤ fuel → nodes t !! e = Some ne → on_path K e ne →
  qlen ne = 2 * length K → item ne ≠ None →
  find KeyTracing fuel t K (length K) = Ok (Some e).
Proof.
  intros Hfuel He Hone Hq Hitem. unfold find, trace.
  rewrite (walk_present fuel true e ne) by done.
  cbn [mbind res_bind pos_match pos_node fst snd].
  by apply (mk_iterator_item _ _ _ ne).
Qed.

(** What strict [find] answers: the end iterator, or a node that holds an
    entry and whose path is [K]. *)
Theorem find_strict fuel :
  KeyTracing = TRIE_KEY_TRACING_STRICT → 2 ≤ fuel →
  ∃ r, find KeyTracing fuel t K (length K) = Ok r ∧
    (r = None ∨ ∃ p n, r = Some p ∧ nodes t !! p = Some n ∧ item n ≠ None ∧
       on_path K p n ∧ qlen n = 2 * length K).
Proof.
  intros Hmode Hfuel. unfold find, trace.
  destruct (trace_walk_sound key_fn KeyTracing strict hole t Hwf K true fuel Hfuel)
    as (ex & -> & Hspec).
  cbn [mbind res_bind].
  destruct Hspec as [p n Hp Hon Hqn|p n ix Hp Hon Hlt Hix Hb
    |p n ix c cn kc q Hp Hon Hix Hb Hc Hkc Hq' Hqle Hag Hdiff
    |p n ix c cn a Hslob Hp Hlt Hix Hb Hc Hleaf Hup].
  - cbn [pos_match pos_node fst snd mbind res_bind].
    destruct (decide (item n = None)) as [E|E].
    + rewrite bool_decide_eq_false_2 by (intros H; by apply H). eauto.
    + rewrite bool_decide_eq_true_2 by done.
      rewrite (mk_iterator_item _ _ _ n) by done.
      eexists. split; [done|]. right. by exists p, n.
  - cbn. eauto.
  - cbn. eauto.
  - subst KeyTracing. done.
Qed.

End Find.

(** ** Iteration *)

(** An operation returns [a]: every run with enough fuel does. *)
Definition returns {A : Type} (f : nat → res A) (a : A) : Prop :=
  ∃ f0, ∀ fuel, f0 ≤ fuel → f fuel = Ok a.


(** The half-bytes [k1[0..q1)] come before [k2[0..q2)] in the lexicographic
    order: as a proper prefix, or by the first half-byte that differs. *)
Definition path_lt (k1 : list byte) (q1 : nat) (k2 : list byte) (q2 : nat) : Prop :=
  (q1 < q2 ∧ agree k1 k2 q1) ∨
  (∃ d a b, d < q1 ∧ d < q2 ∧ agree k1 k2 d ∧
     nibble k1 d = Some a ∧ nibble k2 d = Some b ∧ a < b).

Lemma path_lt_irrefl k q k' : agree k k' q → ¬ path_lt k q k' q.
Proof.
  intros Hag [[? _]|(d & a & b & Hd & _ & _ & Ha & Hb & Hlt)]; [lia|].
  rewrite (Hag d Hd) in Ha. simplify_eq. lia.
Qed.

Lemma path_lt_asym k1 q1 k2 q2 : path_lt k1 q1 k2 q2 → path_lt k2 q2 k1 q1 → False.
Proof.
  intros [[Hq Hag]|(d & a & b & Hd1 & Hd2 & Hag & Ha & Hb & Hlt)]
         [[Hq' Hag']|(d' & a' & b' & Hd1' & Hd2' & Hag' & Ha' & Hb' & Hlt')].
  - lia.
  - rewrite (Hag d') in Hb' by done. simplify_eq. lia.
  - rewrite (Hag' d) in Hb by done. simplify_eq. lia.
  - destruct (Nat.lt_total d d') as [Hlt2|[->|Hlt2]].
    + rewrite (Hag' d) in Hb by done. simplify_eq. lia.
    + simplify_eq. lia.
    + rewrite (Hag d') in Hb' by done. simplify_eq. lia.
Qed.

Section Order.

Context {T : Type}.
Variable key_fn : T -> list byte.
Variable strict : bool.
Variable t : trie T.
Hypothesis Hwf : wf key_fn strict None t.

Implicit Types (p c m : ptr) (n : node) (l r : list ptr).

(** The nodes in the order in which [next] walks them: a node comes before
    the nodes below it, and these come slot by slot.  [slots m ix l] lists
    what lies below [m] in the slots from [ix] on. *)
Inductive subtree : ptr → list ptr → Prop :=
  | sub_node p n l :
      nodes t !! p = Some n → slots p (br_1st n) l → subtree p (p :: l)
with slots : ptr → nat → list ptr → Prop :=
  | slots_end m n ix :
      nodes t !! m = Some n → br_last n < ix → slots m ix []
  | slots_none m n ix l :
      nodes t !! m = Some n → ix ≤ br_last n → branch n ix = None →
      slots m (S ix) l → slots m ix l
  | slots_some m n ix c lc l :
      nodes t !! m = Some n → ix ≤ br_last n → branch n ix = Some c →
      subtree c lc → slots m (S ix) l → slots m ix (lc ++ l).

Scheme subtree_slots_ind := Minimality for subtree Sort Prop
  with slots_subtree_ind := Minimality for slots Sort Prop.
Combined Scheme subtree_slots_mutind from subtree_slots_ind, slots_subtree_ind.

(** [after p r]: the nodes that come after everything below [p]. *)
Inductive after : ptr → list ptr → Prop :=
  | after_root : after m_root []
  | after_child c cn pp l r :
      nodes t !! c = Some cn → parent cn = Some pp → c ≠ m_root →
      slots pp (S (br_own cn)) l → after pp r → after c (l ++ r).

(** The node at [p] holds an entry. *)
Definition occupied (p : ptr) : Prop := is_Some (item_at (nodes t) p).

#[local] Instance occupied_dec p : Decision (occupied p).
Proof. unfold occupied. apply _. Defined.

(** The first node of a list that holds an entry: the iterator at which a
    search through the list stops. *)
Definition first_entry (l : list ptr) : iterator := head (filter occupied l).

Lemma first_entry_cons p l :
  first_entry (p :: l) = if decide (occupied p) then Some p else first_entry l.
Proof.
  unfold first_entry. case_decide.
  - by rewrite filter_cons_True.
  - by rewrite filter_cons_False.
Qed.

Lemma occupied_item p n : nodes t !! p = Some n → occupied p ↔ item n ≠ None.
Proof.
  intros Hp. unfold occupied. rewrite (item_at_Some _ _ _ Hp).
  destruct (item n); split; try done. all: by intros [? ?].
Qed.

Lemma descend_step fuel m n ix :
  nodes t !! m = Some n →
  next_descend (S fuel) t m ix =
    if ix <=? br_last n then
      match branch n ix with
      | Some c =>
          cn ← deref t c;
          if bool_decide (item cn ≠ None) then Ok (Some c)
          else next_descend fuel t c (br_1st cn)
      | None => next_descend fuel t m (S ix)
      end
    else next_ascend fuel t m.
Proof. intros Hm. cbn [next_descend]. by rewrite (deref_lookup _ _ _ Hm). Qed.

Lemma ascend_step fuel c cn pp pn :
  nodes t !! c = Some cn → parent cn = Some pp → nodes t !! pp = Some pn →
  next_ascend (S fuel) t c =
    if br_last pn <? br_own cn + 1 then next_ascend fuel t pp
    else next_descend fuel t pp (br_own cn + 1).
Proof.
  intros Hc Hpar Hpp. cbn [next_ascend]. rewrite (deref_lookup _ _ _ Hc).
  cbn [mbind res_bind]. rewrite Hpar. by rewrite (deref_lookup _ _ _ Hpp).
Qed.

(** The descent from slot [ix] of [m] stops at the first entry below, or goes
    on as the ascent from [m] does. *)
Lemma descend_spec :
  (∀ c lc, subtree c lc → ∀ r,
     returns (λ fuel, next_ascend fuel t c) (first_entry r) →
     ∃ cn, nodes t !! c = Some cn ∧
       returns (λ fuel, next_descend fuel t c (br_1st cn)) (first_entry (tail lc ++ r))) ∧
  (∀ m ix l, slots m ix l → ∀ r,
     returns (λ fuel, next_ascend fuel t m) (first_entry r) →
     returns (λ fuel, next_descend fuel t m ix) (first_entry (l ++ r))).
Proof.
  apply subtree_slots_mutind.
  - (* a node: the descent starts at its first branch *)
    intros p n l Hp _ IH r Hr. exists n. split; [done|]. by apply IH.
  - (* past the last branch: ascend *)
    intros m n ix Hm Hlast r [f0 Hr]. exists (S f0). intros [|fuel] Hf; [lia|].
    rewrite (descend_step _ _ _ _ Hm).
    rewrite (proj2 (Nat.leb_gt _ _)) by lia. apply Hr. lia.
  - (* an empty slot *)
    intros m n ix l Hm Hle Hb _ IH r Hr.
    destruct (IH r Hr) as [f0 Hd]. exists (S f0). intros [|fuel] Hf; [lia|].
    rewrite (descend_step _ _ _ _ Hm).
    rewrite (proj2 (Nat.leb_le _ _)) by lia. rewrite Hb. apply Hd. lia.
  - (* a child *)
    intros m n ix c lc l Hm Hle Hb Hsub IHc Hsl IHl r Hr.
    destruct (wf_branch Hwf Hm Hb) as (cn & kc & Hc & Hpar & Hown & Hne & _).
    (* the ascent from the child goes on with the next slot *)
    assert (returns (λ fuel, next_ascend fuel t c) (first_entry (l ++ r))) as Hasc.
    { destruct (decide (br_last n < ix + 1)) as [Hlt|Hge].
      - assert (l = []) as ->.
        { inversion Hsl; simplify_eq; [done|lia|lia]. }
        destruct Hr as [f0 Hr]. exists (S f0). intros [|fuel] Hf; [lia|].
        rewrite (ascend_step _ _ _ _ _ Hc Hpar Hm). rewrite Hown.
        rewrite (proj2 (Nat.ltb_lt _ _)) by lia. apply Hr. lia.
      - destruct (IHl r Hr) as [f0 Hd]. exists (S f0). intros [|fuel] Hf; [lia|].
        rewrite (ascend_step _ _ _ _ _ Hc Hpar Hm). rewrite Hown.
        rewrite (proj2 (Nat.ltb_ge _ _)) by lia.
        replace (ix + 1) with (S ix) by lia. apply Hd. lia. }
    destruct (IHc (l ++ r) Hasc) as (cn' & Hc' & [f0 Hd]).
    rewrite Hc in Hc'. injection Hc' as <-.
    inversion Hsub as [c0 cn0 lc0 Hc0 Hsl0]; subst. cbn [tail] in Hd.
    rewrite <- app_assoc. cbn [app]. rewrite first_entry_cons.
    exists (S f0). intros [|fuel] Hf; [lia|].
    rewrite (descend_step _ _ _ _ Hm).
    rewrite (proj2 (Nat.leb_le _ _)) by lia. rewrite Hb.
    rewrite (deref_lookup _ _ _ Hc). cbn [mbind res_bind].
    case_decide as Hocc.
    + rewrite bool_decide_eq_true_2; [done|]. by apply (occupied_item _ _ Hc).
    + rewrite bool_decide_eq_false_2; [|by rewrite <- (occupied_item _ _ Hc)].
      apply Hd. lia.
Qed.

Lemma slots_past m n ix l : nodes t !! m = Some n → br_last n < ix → slots m ix l → l = [].
Proof. intros Hm Hlt Hsl. inversion Hsl; simplify_eq; [done|lia|lia]. Qed.

(** The ascent from [m] stops at the first entry after what lies below [m]. *)
Lemma ascend_spec m r :
  after m r → returns (λ fuel, next_ascend fuel t m) (first_entry r).
Proof.
  induction 1 as [|c cn pp l r Hc Hpar Hne Hsl Haft IH].
  - destruct (wf_has_root _ _ _ _ Hwf) as [rn Hr].
    destruct (wf_root _ _ _ _ _ _ (wf_node Hwf Hr) eq_refl) as [_ Hpar].
    exists 1. intros [|fuel] Hf; [lia|]. cbn [next_ascend].
    rewrite (deref_lookup _ _ _ Hr). cbn [mbind res_bind]. by rewrite Hpar.
  - destruct (wf_up Hwf Hc Hne) as (pp' & pn & k & ? & Hpp & Hbr & _). simplify_eq.
    destruct (decide (br_last pn < br_own cn + 1)) as [Hlt|Hge].
    + assert (l = []) as -> by (eapply slots_past; [done| |done]; lia). cbn [app].
      destruct IH as [f0 Hr]. exists (S f0). intros [|fuel] Hf; [lia|].
      rewrite (ascend_step _ _ _ _ _ Hc Hpar Hpp).
      rewrite (proj2 (Nat.ltb_lt _ _)) by lia. apply Hr. lia.
    + destruct (proj2 descend_spec _ _ _ Hsl r IH) as [f0 Hd].
      exists (S f0). intros [|fuel] Hf; [lia|].
      rewrite (ascend_step _ _ _ _ _ Hc Hpar Hpp).
      rewrite (proj2 (Nat.ltb_ge _ _)) by lia.
      replace (br_own cn + 1) with (S (br_own cn)) by lia. apply Hd. lia.
Qed.

(** [next] from a node stops at the first entry among the nodes that follow
    it. *)
Theorem next_spec p l r :
  subtree p (p :: l) → after p r →
  returns (λ fuel, next fuel t p) (first_entry (l ++ r)).
Proof.
  intros Hsub Haft.
  destruct (proj1 descend_spec _ _ Hsub r (ascend_spec _ _ Haft)) as (n & Hp & [f0 Hd]).
  exists f0. intros fuel Hf. unfold next. rewrite (deref_lookup _ _ _ Hp).
  cbn [mbind res_bind]. by apply Hd.
Qed.

(** *** The order exists and holds every node *)

Lemma qlen_bound (h : gmap ptr node) : ∃ B, ∀ p n, h !! p = Some n → qlen n ≤ B.
Proof.
  induction h as [|p n h Hfresh _ [B IH]] using map_first_key_ind.
  - exists 0. intros p n. by rewrite lookup_empty.
  - exists (B `max` qlen n). intros p' n' Hp'.
    destruct (decide (p' = p)) as [->|Hne].
    + rewrite lookup_insert_eq in Hp'. injection Hp' as <-. lia.
    + rewrite lookup_insert_ne in Hp' by done. specialize (IH _ _ Hp'). lia.
Qed.

Lemma subtree_exists p n : nodes t !! p = Some n → ∃ l, subtree p l.
Proof.
  destruct (qlen_bound (nodes t)) as [B HB].
  remember (B - qlen n) as d eqn:Hd.
  assert (B - qlen n ≤ d) as Hle by lia. clear Hd.
  revert p n Hle. induction d as [|d IH]; intros p n Hle Hp.
  all: enough (∀ k ix, 16 ≤ ix + k → ∃ l, slots p ix l) as Hsl
    by (destruct (Hsl 16 (br_1st n)) as [l Hl]; [lia|];
        exists (p :: l); by eapply sub_node).
  all: induction k as [|k IHk]; intros ix Hk.
  all: pose proof (br_last_lt n) as Hlast.
  all: try (exists []; eapply slots_end; [done|lia]).
  all: destruct (decide (br_last n < ix)) as [Hlt|Hge];
    [exists []; by eapply slots_end|].
  all: destruct (IHk (S ix)) as [l Hl]; [lia|].
  all: destruct (branch n ix) as [c|] eqn:Hb;
    [|exists l; eapply slots_none; [done|lia|done|done]].
  all: destruct (wf_branch Hwf Hp Hb) as (cn & kc & Hc & _ & _ & _ & Hq & _).
  all: pose proof (HB _ _ Hc) as Hcb.
  - lia.
  - destruct (IH c cn) as [lc Hlc]; [lia|done|].
    exists (lc ++ l). eapply slots_some; [done|lia|done|done|done].
Qed.

(** Where the sub-tree of a child lies among what is below its parent. *)
Lemma slots_split m ix l :
  slots m ix l → ∀ n j c, nodes t !! m = Some n → branch n j = Some c → ix ≤ j →
  ∃ l1 lc l2, l = l1 ++ lc ++ l2 ∧ subtree c lc ∧ slots m (S j) l2.
Proof.
  induction 1 as [m n0 ix Hm Hlt|m n0 ix l Hm Hle Hb Hsl IH
                 |m n0 ix c0 lc0 l Hm Hle Hb Hsub Hsl IH]; intros n j c Hm' Hbj Hj.
  all: simplify_eq.
  - pose proof (wf_cache _ _ _ _ _ _ (wf_node Hwf Hm)) as Hc.
    unfold cache_ok in Hc. destruct (is_leaf n0); [by rewrite Hc in Hbj|].
    destruct Hc as (_ & _ & Hr). specialize (Hr j). rewrite Hbj in Hr.
    specialize (Hr ltac:(done)). lia.
  - destruct (decide (j = ix)) as [->|Hne]; [congruence|].
    apply (IH n0 j c); [done|done|lia].
  - destruct (decide (j = ix)) as [->|Hne].
    + simplify_eq. by exists [], lc0, l.
    + destruct (IH n0 j c) as (l1 & lc & l2 & -> & ? & ?); [done|done|lia|].
      exists (lc0 ++ l1), lc, l2. by rewrite <- app_assoc.
Qed.

(** Every node has its place in the order of the whole trie. *)
Lemma subtree_place L :
  subtree m_root L → ∀ p n, nodes t !! p = Some n →
  ∃ pre l r, L = pre ++ p :: l ++ r ∧ subtree p (p :: l) ∧ after p r.
Proof.
  intros HL p n. remember (qlen n) as q eqn:Hq. revert p n Hq.
  induction (lt_wf q) as [q _ IH]. intros p n -> Hp.
  destruct (decide (p = m_root)) as [->|Hne].
  { inversion HL as [p0 n0 l0 Hr Hsl]; subst.
    exists [], l0, []. rewrite app_nil_r. split; [done|]. split; [done|]. constructor. }
  destruct (wf_up Hwf Hp Hne) as (pp & pn & k & Hpar & Hpp & Hbr & Hq & _).
  destruct (IH (qlen pn) Hq pp pn eq_refl Hpp) as (pre & lpp & rpp & -> & Hsub & Haft).
  inversion Hsub as [p0 n0 l0 Hpp0 Hsl]; subst. simplify_eq.
  assert (br_1st pn ≤ br_own n) as Hfirst.
  { pose proof (wf_cache _ _ _ _ _ _ (wf_node Hwf Hpp)) as Hc.
    unfold cache_ok in Hc. destruct (is_leaf pn); [by rewrite Hc in Hbr|].
    destruct Hc as (_ & _ & Hr). specialize (Hr (br_own n)). rewrite Hbr in Hr.
    specialize (Hr ltac:(done)). lia. }
  destruct (slots_split _ _ _ Hsl pn (br_own n) p Hpp Hbr Hfirst)
    as (l1 & lc & l2 & -> & Hsubp & Hsl2).
  inversion Hsubp as [p0 n0 l0 Hp0 Hsl0]; subst.
  exists (pre ++ pp :: l1), l0, (l2 ++ rpp). split.
  { rewrite <- !app_assoc. cbn [app]. by rewrite <- ?app_assoc. }
  split; [done|]. by apply (after_child p n pp).
Qed.

(** *** The order is the order of the paths *)

(** The key of a node, the root having none when it holds no entry. *)
Definition kof (n : node) : list byte := default [] (key n).

(** The path of one node comes before that of another. *)
Definition node_lt (p p' : ptr) : Prop :=
  ∃ n n', nodes t !! p = Some n ∧ nodes t !! p' = Some n' ∧
    path_lt (kof n) (qlen n) (kof n') (qlen n').

(** [e] lies below [m], in or under its slot [j]. *)
Definition under (m : ptr) (j : nat) (e : ptr) : Prop :=
  ∃ n ne ke, nodes t !! m = Some n ∧ nodes t !! e = Some ne ∧
    key ne = Some ke ∧ qlen n < qlen ne ∧
    nibble ke (qlen n) = Some j ∧ (∀ k, key n = Some k → agree k ke (qlen n)).

Lemma under_child m n j c : nodes t !! m = Some n → branch n j = Some c → under m j c.
Proof.
  intros Hm Hb.
  destruct (wf_branch Hwf Hm Hb) as (cn & kc & Hc & _ & _ & _ & Hq & Hkc & _ & Hnib & Hag).
  by exists n, cn, kc.
Qed.

Lemma under_trans m j c j' e : under m j c → under c j' e → under m j e.
Proof.
  intros (n & cn & kc & Hm & Hc & Hkc & Hq & Hnib & Hag)
         (cn' & ne & ke & Hc' & He & Hke & Hq' & Hnib' & Hag').
  simplify_eq. specialize (Hag' _ Hkc).
  exists n, ne, ke. split_and!; try done; [lia| |].
  - rewrite <- Hnib. symmetry. apply Hag'. lia.
  - intros k Hk. eapply agree_trans; [by apply Hag|]. eapply agree_mono; [done|lia].
Qed.

Lemma under_agree m j e n ne :
  under m j e → nodes t !! m = Some n → nodes t !! e = Some ne →
  agree (kof n) (kof ne) (qlen n).
Proof.
  intros (n' & ne' & ke & Hm & He & Hke & Hq & Hnib & Hag) Hm' He'.
  rewrite Hm in Hm'. injection Hm' as <-. rewrite He in He'. injection He' as <-.
  rename n' into n, Hm into Hm'.
  unfold kof. rewrite Hke. cbn [default].
  destruct (key n) as [k|] eqn:Hk; [by apply Hag|].
  destruct (decide (m = m_root)) as [->|Hne].
  - rewrite (root_qlen Hwf Hm'). intros ? ?. lia.
  - destruct (nonroot_key Hwf Hm' Hne) as (k & ? & _). congruence.
Qed.

Lemma under_lt m j e : under m j e → node_lt m e.
Proof.
  intros H. pose proof H as (n & ne & ke & Hm & He & Hke & Hq & Hnib & Hag).
  exists n, ne. split; [done|]. split; [done|]. left. split; [done|].
  by eapply under_agree.
Qed.

Lemma under_lt_slots m j a j' b : under m j a → under m j' b → j < j' → node_lt a b.
Proof.
  intros Ha Hb Hlt.
  pose proof Ha as (n & na & ka & Hm & Hna & Hka & Hqa & Hniba & _).
  pose proof Hb as (n' & nb & kb & Hm' & Hnb & Hkb & Hqb & Hnibb & _).
  rewrite Hm in Hm'. injection Hm' as <-.
  exists na, nb. split; [done|]. split; [done|]. right.
  exists (qlen n), j, j'. split_and!; try done.
  - eapply agree_trans; [apply agree_sym|].
    + exact (under_agree _ _ _ _ _ Ha Hm Hna).
    + exact (under_agree _ _ _ _ _ Hb Hm Hnb).
  - unfold kof. by rewrite Hka.
  - unfold kof. by rewrite Hkb.
Qed.

(** The nodes are listed in the strict order of their paths. *)
Lemma subtree_sorted :
  (∀ c lc, subtree c lc →
     StronglySorted node_lt lc ∧ ∀ e, e ∈ tail lc → ∃ j, under c j e) ∧
  (∀ m ix l, slots m ix l →
     StronglySorted node_lt l ∧ ∀ e, e ∈ l → ∃ j, ix ≤ j ∧ under m j e).
Proof.
  apply subtree_slots_mutind.
  - intros p n l Hp _ [Hs Hu]. cbn [tail]. split.
    + constructor; [done|]. apply Forall_forall. intros e He.
      destruct (Hu e He) as (j & _ & Hj). by eapply under_lt.
    + intros e He. destruct (Hu e He) as (j & _ & Hj). by exists j.
  - intros m n ix Hm Hlt. split; [constructor|]. intros e He. by apply elem_of_nil in He.
  - intros m n ix l Hm Hle Hb _ [Hs Hu]. split; [done|].
    intros e He. destruct (Hu e He) as (j & Hj & Hje). exists j. split; [lia|done].
  - intros m n ix c lc l Hm Hle Hb Hsub [Hsc Huc] _ [Hsl Hul].
    assert (∀ e, e ∈ lc → under m ix e) as Hlc.
    { inversion Hsub as [c0 cn0 lc0 Hc0 Hsl0]; subst. cbn [tail] in Huc.
      intros e [->|He]%elem_of_cons; [by eapply under_child|].
      destruct (Huc e He) as [j Hj]. eapply under_trans; [by eapply under_child|done]. }
    split.
    + apply StronglySorted_app_2; [|done|done].
      intros a b Ha Hb'. destruct (Hul b Hb') as (j & Hj & Hjb).
      eapply under_lt_slots; [by apply Hlc|done|lia].
    + intros e [He|He]%elem_of_app.
      * exists ix. split; [done|]. by apply Hlc.
      * destruct (Hul e He) as (j & Hj & Hje). exists j. split; [lia|done].
Qed.

Lemma node_lt_irrefl p : ¬ node_lt p p.
Proof.
  intros (n & n' & Hp & Hp' & Hlt). simplify_eq.
  by apply (path_lt_irrefl _ _ _ (agree_refl _ _)) in Hlt.
Qed.

Lemma sorted_NoDup l : StronglySorted node_lt l → NoDup l.
Proof.
  induction 1 as [|p l _ IH Hall]; constructor; [|done].
  intros Hin. rewrite Forall_forall in Hall. by apply (node_lt_irrefl p), Hall.
Qed.

(** *** Walking the whole trie *)

Lemma first_entry_None l : first_entry l = None → filter occupied l = [].
Proof. unfold first_entry. by destruct (filter occupied l). Qed.

Lemma first_entry_Some l e :
  first_entry l = Some e →
  ∃ l1 l2, l = l1 ++ e :: l2 ∧ filter occupied l1 = [] ∧ occupied e.
Proof.
  induction l as [|p l IH]; [done|]. rewrite first_entry_cons. case_decide as Hocc.
  - intros [= ->]. by exists [], l.
  - intros (l1 & l2 & -> & Hl1 & He)%IH. exists (p :: l1), l2.
    split; [done|]. by rewrite filter_cons_False.
Qed.

Lemma NoDup_split_inj (l1 l2 l1' l2' : list ptr) e :
  NoDup (l1 ++ e :: l2) → l1 ++ e :: l2 = l1' ++ e :: l2' → l1 = l1' ∧ l2 = l2'.
Proof.
  revert l1'. induction l1 as [|a l1 IH]; intros l1' Hnd Heq.
  - destruct l1' as [|a' l1']; cbn in Heq; [by simplify_eq|].
    injection Heq as <- ->. apply NoDup_cons in Hnd as [Hnd _].
    destruct Hnd. apply elem_of_app. right. by left.
  - destruct l1' as [|a' l1']; cbn in Heq.
    + injection Heq as -> <-. apply NoDup_cons in Hnd as [Hnd _].
      destruct Hnd. apply elem_of_app. right. by left.
    + injection Heq as <- Heq. apply NoDup_cons in Hnd as [_ Hnd].
      destruct (IH l1' Hnd Heq) as [-> ->]. done.
Qed.

Lemma deref_iter_occupied p :
  occupied p → ∃ n x, nodes t !! p = Some n ∧ entry t p x ∧
    deref_iter t (Some p) = Ok (key n, qlen n / 2, x).
Proof.
  intros [hd Hhd]. unfold item_at in Hhd.
  destruct (nodes t !! p) as [n|] eqn:Hp; [|done].
  destruct (wf_item _ _ _ _ _ _ (wf_node Hwf Hp) hd Hhd) as (x & Hx & _).
  exists n, x. split; [done|]. split.
  - exists hd. by rewrite (item_at_Some _ _ _ Hp).
  - unfold deref_iter. cbn [deref_opt]. rewrite (deref_lookup _ _ _ Hp).
    cbn [mbind res_bind]. rewrite Hhd. cbn [of_option mbind res_bind]. by rewrite Hx.
Qed.

Section Whole.

Variable L : list ptr.
Hypothesis HL : subtree m_root L.

Lemma whole_NoDup : NoDup L.
Proof. apply sorted_NoDup. by apply (proj1 subtree_sorted m_root). Qed.

(** [++it] at a node: the first entry among the nodes listed after it. *)
Lemma incr_spec pre e suf :
  L = pre ++ e :: suf →
  returns (λ fuel, incr fuel t (Some e)) (first_entry suf).
Proof.
  intros HLe.
  assert (is_Some (nodes t !! e)) as [n He].
  { pose proof (proj1 subtree_sorted _ _ HL) as [Hs _]. rewrite HLe in Hs.
    apply StronglySorted_app_1_r in Hs. apply StronglySorted_cons in Hs as [Hall _].
    destruct suf as [|s suf].
    - clear Hall. revert HLe. clear -HL Hwf. intros HLe.
      assert (∀ c lc, subtree c lc → ∀ x, x ∈ lc → is_Some (nodes t !! x)) as Hin.
      { clear. apply (subtree_slots_ind
          (λ c lc, ∀ x, x ∈ lc → is_Some (nodes t !! x))
          (λ m ix l, ∀ x, x ∈ l → is_Some (nodes t !! x))).
        - intros p n l Hp _ IH x [->|Hx]%elem_of_cons; [by eexists|by apply IH].
        - intros ? ? ? ? ? x Hx. by apply elem_of_nil in Hx.
        - done.
        - intros m n ix c lc l _ _ _ _ IHc _ IHl x [Hx|Hx]%elem_of_app; auto. }
      apply (Hin _ _ HL). rewrite HLe. apply elem_of_app. right. by left.
    - apply Forall_cons in Hall as [(n & _ & Hn & _) _]. by exists n. }
  destruct (subtree_place L HL e n He) as (pre' & l & r & HLe' & Hsub & Haft).
  rewrite HLe in HLe'.
  destruct (NoDup_split_inj pre suf pre' (l ++ r) e) as [_ ->]; [|done|].
  { rewrite <- HLe. apply whole_NoDup. }
  destruct (next_spec _ _ _ Hsub Haft) as [f0 Hn]. exists f0. intros fuel Hf.
  unfold incr. cbn [of_option mbind res_bind]. by apply Hn.
Qed.




End Whole.

Lemma node_lt_asym p q : node_lt p q → node_lt q p → False.
Proof.
  intros (n & n' & Hp & Hq & Hlt) (m & m' & Hq' & Hp' & Hlt'). simplify_eq.
  by eapply path_lt_asym.
Qed.


(** [++it] at a node stops at the entry that follows it in the order of the
    paths, or at the end when there is none. *)
Theorem incr_successor p n :
  nodes t !! p = Some n →
  ∃ it', returns (λ fuel, incr fuel t (Some p)) it' ∧
    match it' with
    | None => ∀ q, occupied q → ¬ node_lt p q
    | Some s => occupied s ∧ node_lt p s ∧
        ∀ q, occupied q → node_lt p q → q = s ∨ node_lt s q
    end.
Proof.
  intros Hp.
  destruct (wf_has_root _ _ _ _ Hwf) as [rn Hr].
  destruct (subtree_exists _ _ Hr) as [L HL].
  destruct (subtree_place L HL p n Hp) as (pre & l & r & HLe & _).
  exists (first_entry (l ++ r)). split; [by eapply incr_spec|].
  pose proof (proj1 subtree_sorted _ _ HL) as [Hs _]. rewrite HLe in Hs.
  pose proof (StronglySorted_app_1_r _ _ _ Hs) as [Hafter Hsuf]%StronglySorted_cons.
  rewrite Forall_forall in Hafter.
  (* an entry after [p] is listed after it *)
  assert (∀ q, occupied q → node_lt p q → q ∈ l ++ r) as Hin.
  { intros q Hocc Hlt.
    destruct (deref_iter_occupied q Hocc) as (nq & _ & Hq & _).
    destruct (subtree_place L HL q nq Hq) as (pre' & l' & r' & HLq & _).
    assert (q ∈ pre ++ p :: l ++ r) as [Hq'|[->|Hq']%elem_of_cons]%elem_of_app.
    { rewrite <- HLe, HLq. apply elem_of_app. right. by left. }
    - destruct (node_lt_asym p q Hlt).
      eapply (StronglySorted_app_1_elem_of _ _ _ _ _ Hs); [done|by left].
    - by destruct (node_lt_irrefl p).
    - done. }
  destruct (first_entry (l ++ r)) as [s|] eqn:Hfirst.
  - destruct (first_entry_Some _ _ Hfirst) as (s1 & s2 & Hsp & Hs1 & Hocc).
    split; [done|]. split.
    { apply Hafter. rewrite Hsp. apply elem_of_app. right. by left. }
    intros q Hq Hlt. specialize (Hin q Hq Hlt). rewrite Hsp in Hin, Hsuf.
    apply elem_of_app in Hin as [Hin|[->|Hin]%elem_of_cons].
    + assert (q ∈ filter occupied s1) as Hf by (by apply list_elem_of_filter).
      rewrite Hs1 in Hf. by apply elem_of_nil in Hf.
    + by left.
    + right. apply StronglySorted_app_1_r in Hsuf.
      apply StronglySorted_cons in Hsuf as [Hall _]. rewrite Forall_forall in Hall. auto.
  - intros q Hq Hlt. specialize (Hin q Hq Hlt).
    assert (q ∈ filter occupied (l ++ r)) as Hf by (by apply list_elem_of_filter).
    rewrite (first_entry_None _ Hfirst) in Hf. by apply elem_of_nil in Hf.
Qed.

End Order.

(** ** The order of keys *)









(** ** More fuel never changes a result *)

Lemma bind_Ok {A B : Type} (m : res A) (k : A → res B) b :
  m ≫= k = Ok b → ∃ a, m = Ok a ∧ k a = Ok b.
Proof. destruct m as [a| |]; [|done|done]. intros H. by exists a. Qed.

Section Mono.

Context {T : Type}.
Variable key_fn : T -> list byte.
Variable KeyTracing : key_tracing.

Implicit Types (t : trie T) (p : ptr).

Lemma trace_while_mono fuel : ∀ fuel' t len slob i b nod q fb r,
  fuel ≤ fuel' →
  trace_while KeyTracing fuel t len slob i b nod q fb = Ok r →
  trace_while KeyTracing fuel' t len slob i b nod q fb = Ok r.
Proof.
  induction fuel as [|fuel IH]; intros fuel' t len slob i b nod q fb r Hle H.
  - destruct (le_lt_dec 2 q) as [Hq|Hq].
    + rewrite trace_while_done in H by done. by rewrite trace_while_done.
    + cbn [trace_while] in H. by rewrite (proj2 (Nat.leb_gt _ _)) in H by lia.
  - destruct fuel' as [|fuel']; [lia|]. cbn [trace_while] in *.
    destruct (2 <=? q); [done|].
    destruct (deref t nod) as [prev| |]; [|done|done]. cbn [mbind res_bind] in *.
    destruct (branch prev _) as [c|]; [|done].
    destruct (deref t c) as [cn| |]; [|done|done]. cbn [mbind res_bind] in *.
    destruct (is_slobby KeyTracing && slob && is_leaf cn); [done|].
    destruct (qlen cn <? 2 * i); [done|]. apply IH; [lia|done].
Qed.

Lemma trace_for_mono fuel fuel' t k len slob n : ∀ i nod q r,
  fuel ≤ fuel' →
  trace_for KeyTracing fuel t k len slob n i nod q = Ok r →
  trace_for KeyTracing fuel' t k len slob n i nod q = Ok r.
Proof.
  induction n as [|n IH]; intros i nod q r Hle H; [done|].
  cbn [trace_for] in *.
  destruct (of_option (k !! i)) as [b| |]; [|done|done]. cbn [mbind res_bind] in *.
  apply bind_Ok in H as (e & He & H).
  rewrite (trace_while_mono _ _ _ _ _ _ _ _ _ _ _ Hle He). cbn [mbind res_bind].
  destruct e as [e|nod' q' fb]; [done|].
  destruct (deref t nod') as [nd| |]; [|done|done]. cbn [mbind res_bind] in *.
  destruct (key_at (key nd) i) as [kb| |]; [|done|done]. cbn [mbind res_bind] in *.
  destruct (negb _); [done|]. by apply IH.
Qed.

Lemma destroy_mono fuel : ∀ fuel' p t r,
  fuel ≤ fuel' → destroy fuel p t = Ok r → destroy fuel' p t = Ok r.
Proof.
  induction fuel as [|fuel IH]; intros fuel' p t r Hle H; [done|].
  destruct fuel' as [|fuel']; [lia|]. cbn [destroy] in *.
  destruct (deref t p) as [n| |]; [|done|done]. cbn [mbind res_bind] in *.
  apply bind_Ok in H as (t1 & H1 & H).
  enough (∀ l (acc : res (trie T)) r,
            foldr (λ c acc, t ← acc; match c with
                                     | Some c0 => destroy fuel c0 t
                                     | None => Ok t
                                     end) acc l = Ok r →
            foldr (λ c acc, t ← acc; match c with
                                     | Some c0 => destroy fuel' c0 t
                                     | None => Ok t
                                     end) acc l = Ok r) as Hfold.
  { by rewrite (Hfold _ _ _ H1). }
  clear -IH Hle. induction l as [|c l IHl]; intros acc r H; [done|].
  cbn [foldr] in *. apply bind_Ok in H as (t1 & H1 & H).
  rewrite (IHl _ _ H1). cbn [mbind res_bind].
  destruct c as [c|]; [|done]. apply IH; [lia|done].
Qed.

Lemma reset_branch_mono fuel fuel' p ix v t r :
  fuel ≤ fuel' → reset_branch fuel p ix v t = Ok r → reset_branch fuel' p ix v t = Ok r.
Proof.
  intros Hle H. unfold reset_branch in *.
  destruct (deref t p) as [n| |]; [|done|done]. cbn [mbind res_bind] in *.
  destruct (update p _ t) as [t1| |]; [|done|done]. cbn [mbind res_bind] in *.
  destruct (branch n ix); [|done]. by eapply destroy_mono.
Qed.

Lemma next_mono fuel :
  (∀ fuel' t m ix r, fuel ≤ fuel' →
     next_descend fuel t m ix = Ok r → next_descend fuel' t m ix = Ok r) ∧
  (∀ fuel' t m r, fuel ≤ fuel' →
     next_ascend fuel t m = Ok r → next_ascend fuel' t m = Ok r).
Proof.
  induction fuel as [|fuel [IHd IHa]]; [done|]. split.
  - intros [|fuel'] t m ix r Hle H; [lia|]. cbn [next_descend] in *.
    destruct (deref t m) as [nd| |]; [|done|done]. cbn [mbind res_bind] in *.
    destruct (ix <=? br_last nd); [|apply IHa; [lia|done]].
    destruct (branch nd ix) as [c|]; [|apply IHd; [lia|done]].
    destruct (deref t c) as [cn| |]; [|done|done]. cbn [mbind res_bind] in *.
    destruct (bool_decide _); [done|]. apply IHd; [lia|done].
  - intros [|fuel'] t m r Hle H; [lia|]. cbn [next_ascend] in *.
    destruct (deref t m) as [nd| |]; [|done|done]. cbn [mbind res_bind] in *.
    destruct (parent nd) as [pp|]; [|done].
    destruct (deref t pp) as [pn| |]; [|done|done]. cbn [mbind res_bind] in *.
    destruct (_ <? _); [apply IHa|apply IHd]; (lia || done).
Qed.

Lemma incr_mono fuel fuel' t it r :
  fuel ≤ fuel' → incr fuel t it = Ok r → incr fuel' t it = Ok r.
Proof.
  intros Hle H. unfold incr, next in *.
  destruct (of_option it) as [m| |]; [|done|done]. cbn [mbind res_bind] in *.
  destruct (deref t m) as [nd| |]; [|done|done]. cbn [mbind res_bind] in *.
  by eapply (proj1 (next_mono fuel)).
Qed.

Lemma mk_iterator_mono fuel fuel' t nod r :
  fuel ≤ fuel' → mk_iterator fuel t nod = Ok r → mk_iterator fuel' t nod = Ok r.
Proof.
  intros Hle H. unfold mk_iterator in *. destruct nod as [m|]; [|done].
  destruct (deref t m) as [nd| |]; [|done|done]. cbn [mbind res_bind] in *.
  destruct (bool_decide _); [|done].
  by apply (incr_mono fuel fuel' t (Some m)).
Qed.

Lemma insert_node_mono fuel fuel' k len nod q t r :
  fuel ≤ fuel' → insert_node fuel k len nod q t = Ok r →
  insert_node fuel' k len nod q t = Ok r.
Proof.
  intros Hle H. unfold insert_node in *.
  destruct (of_option nod) as [p| |]; [|done|done]. cbn [mbind res_bind] in *.
  destruct (deref t p) as [nd| |]; [|done|done]. cbn [mbind res_bind] in *.
  destruct (get_qpos (Some k) (qlen nd)) as [br_ix| |]; [|done|done].
  cbn [mbind res_bind] in *.
  apply bind_Ok in H as ([[[dn bx] nod'] t1] & H1 & H).
  assert (∀ bx nod' (t1 : trie T) r,
            (nd ← deref t1 nod';
             t ← (if is_leaf nd then update nod' (br_set bx bx) t1
                  else
                    t ← (if bx <? br_1st nd then update nod' (set_br_1st bx) t1 else Ok t1);
                    nd ← deref t nod';
                    if br_last nd <? bx then update nod' (set_br_last bx) t else Ok t);
             let q := 2 * len in
             let '(br_node, t) := alloc (new_node None None q (Some nod') bx 1 0) t in
             t ← reset_branch fuel nod' bx (Some br_node) t;
             Ok ((Some br_node, q, false), t)) = Ok r →
            (nd ← deref t1 nod';
             t ← (if is_leaf nd then update nod' (br_set bx bx) t1
                  else
                    t ← (if bx <? br_1st nd then update nod' (set_br_1st bx) t1 else Ok t1);
                    nd ← deref t nod';
                    if br_last nd <? bx then update nod' (set_br_last bx) t else Ok t);
             let q := 2 * len in
             let '(br_node, t) := alloc (new_node None None q (Some nod') bx 1 0) t in
             t ← reset_branch fuel' nod' bx (Some br_node) t;
             Ok ((Some br_node, q, false), t)) = Ok r) as Hleaf.
  { clear -Hle. intros bx nod' t1 r H.
    apply bind_Ok in H as (nd & -> & H). cbn [mbind res_bind].
    apply bind_Ok in H as (t2 & -> & H). cbn [mbind res_bind].
    cbv zeta in *. destruct (alloc _ t2) as [bn t3].
    apply bind_Ok in H as (t4 & H4 & H).
    by rewrite (reset_branch_mono _ _ _ _ _ _ _ Hle H4). }
  enough (match branch nd br_ix with
          | Some br_node =>
              bn ← deref t br_node;
              in_br_ix ← get_qpos (key bn) q;
              let '(in_node, t) :=
                alloc (new_node None (key bn) q (Some p) br_ix in_br_ix in_br_ix) t in
              t ← update in_node (set_branch in_br_ix (Some br_node)) t;
              t ← update p (set_branch br_ix None) t;
              t ← update br_node (set_br_own in_br_ix) t;
              t ← reset_branch fuel' p br_ix (Some in_node) t;
              t ← update br_node (set_parent (Some in_node)) t;
              if q =? 2 * len then Ok (Some (Some in_node, q, false), br_ix, in_node, t)
              else
                br_ix ← get_qpos (Some k) q;
                Ok (None, br_ix, in_node, t)
          | None => Ok (None, br_ix, p, t)
          end = Ok (dn, bx, nod', t1)) as ->.
  { cbn [mbind res_bind]. destruct dn; [done|]. by apply Hleaf. }
  destruct (branch nd br_ix) as [c|]; [|done].
  apply bind_Ok in H1 as (bn & -> & H1). cbn [mbind res_bind].
  apply bind_Ok in H1 as (jx & -> & H1). cbn [mbind res_bind].
  destruct (alloc _ t) as [inn t2].
  apply bind_Ok in H1 as (t3 & -> & H1). cbn [mbind res_bind].
  apply bind_Ok in H1 as (t4 & -> & H1). cbn [mbind res_bind].
  apply bind_Ok in H1 as (t5 & -> & H1). cbn [mbind res_bind].
  apply bind_Ok in H1 as (t6 & H6 & H1).
  by rewrite (reset_branch_mono _ _ _ _ _ _ _ Hle H6).
Qed.

Lemma trace_mono fuel fuel' (miss miss' : trace_miss_t) k len slob t r :
  fuel ≤ fuel' →
  (∀ nod q r, miss k len nod q t = Ok r → miss' k len nod q t = Ok r) →
  trace KeyTracing fuel miss k len slob t = Ok r →
  trace KeyTracing fuel' miss' k len slob t = Ok r.
Proof.
  intros Hle Hmiss H. unfold trace, trace_walk in *.
  apply bind_Ok in H as (e & He & H).
  rewrite (trace_for_mono _ _ _ _ _ _ _ _ _ _ _ Hle He). cbn [mbind res_bind].
  destruct e; [done|]. by apply Hmiss.
Qed.

Theorem insert_mono fuel fuel' x t r :
  fuel ≤ fuel' → insert key_fn KeyTracing fuel x t = Ok r →
  insert key_fn KeyTracing fuel' x t = Ok r.
Proof.
  intros Hle H. unfold insert in *.
  apply bind_Ok in H as ([pos t1] & H1 & H).
  erewrite (trace_mono fuel fuel'); [|done| |exact H1].
  2: { intros nod q r'. by apply insert_node_mono. }
  cbn [mbind res_bind] in *.
  apply bind_Ok in H as (t2 & -> & H). cbn [mbind res_bind].
  apply bind_Ok in H as (it & Hit & H).
  by rewrite (mk_iterator_mono _ _ _ _ _ Hle Hit).
Qed.

Theorem find_mono fuel fuel' t k len r :
  fuel ≤ fuel' → find KeyTracing fuel t k len = Ok r →
  find KeyTracing fuel' t k len = Ok r.
Proof.
  intros Hle H. unfold find in *.
  apply bind_Ok in H as ([pos t1] & H1 & H).
  erewrite (trace_mono fuel fuel'); [|done| |exact H1]; [|done].
  cbn [mbind res_bind] in *.
  destruct (pos_match pos); [|done]. by eapply mk_iterator_mono.
Qed.



Lemma rekey_mono fuel : ∀ fuel' k nod t r,
  fuel ≤ fuel' → rekey fuel k nod t = Ok r → rekey fuel' k nod t = Ok r.
Proof.
  induction fuel as [|fuel IH]; intros fuel' k nod t r Hle H.
  - destruct fuel'; cbn [rekey] in *; [done|].
    destruct (deref_opt t nod) as [n| |]; [|done|done]. cbn [mbind res_bind] in *.
    by destruct (_ && _).
  - destruct fuel' as [|fuel']; [lia|]. cbn [rekey] in *.
    destruct (deref_opt t nod) as [n| |]; [|done|done]. cbn [mbind res_bind] in *.
    destruct (_ && _); [|done].
    destruct (of_option nod) as [p| |]; [|done|done]. cbn [mbind res_bind] in *.
    destruct (update p _ t) as [t1| |]; [|done|done]. cbn [mbind res_bind] in *.
    apply IH; [lia|done].
Qed.

Theorem erase_mono fuel fuel' it t r :
  fuel ≤ fuel' → erase fuel it t = Ok r → erase fuel' it t = Ok r.
Proof.
  intros Hle H. destruct it as [nod|]; [|done].
  rewrite erase_unfold in *.
  apply bind_Ok in H as (it' & Hit & H).
  rewrite (incr_mono _ _ _ _ _ Hle Hit). cbn [mbind res_bind].
  apply bind_Ok in H as (nd & -> & H). cbn [mbind res_bind].
  apply bind_Ok in H as (hd & -> & H). cbn [mbind res_bind].
  apply bind_Ok in H as (y & -> & H). cbn [mbind res_bind].
  cbv zeta in *.
  apply bind_Ok in H as (t1 & -> & H). cbn [mbind res_bind].
  apply bind_Ok in H as (nd1 & -> & H). cbn [mbind res_bind].
  apply bind_Ok in H as ([nod2 t2] & H2 & H).
  assert (erase_prune fuel' nod nd1 t1 = Ok (nod2, t2)) as ->.
  { unfold erase_prune in *. destruct (_ && _); [|done].
    apply bind_Ok in H2 as (par & -> & H2). cbn [mbind res_bind].
    apply bind_Ok in H2 as (t3 & H3 & H2).
    by rewrite (reset_branch_mono _ _ _ _ _ _ _ Hle H3). }
  cbn [mbind res_bind] in *.
  apply bind_Ok in H as (nd2 & -> & H). cbn [mbind res_bind].
  apply bind_Ok in H as ([nod3 t3] & H3 & H).
  assert (erase_splice fuel' nod2 nd2 t2 = Ok (nod3, t3)) as ->.
  { unfold erase_splice in *. destruct (_ && _); [|done].
    apply bind_Ok in H3 as (par & -> & H3). cbn [mbind res_bind].
    cbv zeta in *.
    apply bind_Ok in H3 as (t4 & -> & H3). cbn [mbind res_bind].
    apply bind_Ok in H3 as (t5 & H5 & H3).
    by rewrite (reset_branch_mono _ _ _ _ _ _ _ Hle H5). }
  cbn [mbind res_bind] in *.
  apply bind_Ok in H as (nd3 & -> & H). cbn [mbind res_bind].
  apply bind_Ok in H as (t4 & H4 & H).
  assert (erase_rekey fuel' nod3 nd3 t3 = Ok t4) as ->.
  { unfold erase_rekey in *. destruct (_ && _); [|done].
    apply bind_Ok in H4 as (son & -> & H4). cbn [mbind res_bind].
    by eapply rekey_mono. }
  done.
Qed.

End Mono.

(** ** The operations on well-formed tries *)

Section Operations.

Context {T : Type}.
Variable key_fn : T -> list byte.
Variable KeyTracing : key_tracing.

Implicit Types (t : trie T) (p : ptr) (n : node) (x y : T).

Lemma wf_empty strict : wf key_fn strict None (empty_trie (T := T)).
Proof.
  set (r := new_node None None 0 None 0 1 0).
  assert (∀ p n, nodes (empty_trie (T := T)) !! p = Some n → p = m_root ∧ n = r) as Hone.
  { intros p n. unfold empty_trie. cbn [nodes]. intros [-> <-]%lookup_singleton_Some. done. }
  split.
  - unfold empty_trie. cbn [nodes]. rewrite lookup_singleton_eq. by eexists.
  - intros p n [-> ->]%Hone. split; try done.
    + intros i. apply branch_new_node.
    + intros i c. unfold r. by rewrite branch_new_node.
  - intros p1 n1 p2 n2 h [-> _]%Hone [-> _]%Hone. done.
  - intros h x. unfold empty_trie. cbn [m_items]. by rewrite lookup_empty.
Qed.

(** A trie whose entries sit at the nodes of their keys is well formed in the
    weaker sense too. *)
Lemma wf_weaken strict hole t : wf key_fn true hole t → wf key_fn strict hole t.
Proof.
  intros Hwf. split; try apply Hwf.
  intros p n Hp. pose proof (wf_node Hwf Hp) as [Wlen Wcache Wdown Wroot Wup Wint Witem Wfresh].
  split; try done.
  intros h Hh. destruct (Witem h Hh) as (x & Hx & Hs). exists x. split; [done|].
  intros _. by apply Hs.
Qed.

(** The entry that the node at [p] holds. *)
Definition entry_at (t : trie T) (p : ptr) : option T :=
  hd ← item_at (nodes t) p; m_items t !! hd.

Lemma entry_at_Some t p x : entry_at t p = Some x ↔ entry t p x.
Proof.
  unfold entry_at, entry. split.
  - intros H. destruct (item_at (nodes t) p) as [hd|]; [|done]. by exists hd.
  - intros (hd & -> & Hx). done.
Qed.

(** In a strict trie an entry sits at the end of the path of its key. *)
Lemma entry_on_path hole t p x :
  wf key_fn true hole t → entry t p x →
  ∃ n, nodes t !! p = Some n ∧ item n ≠ None ∧ key n = Some (key_fn x) ∧
    qlen n = 2 * length (key_fn x) ∧ on_path (key_fn x) p n.
Proof.
  intros Hwf (n & hd & Hp & Hi & Hx)%entry_node.
  destruct (wf_item _ _ _ _ _ _ (wf_node Hwf Hp) hd Hi) as (x' & Hx' & Hs).
  simplify_eq. destruct (Hs eq_refl) as [Hk Hq].
  exists n. split_and!; try done; [congruence|].
  split; [lia|]. right. exists (key_fn x). split; [done|]. apply agree_refl.
Qed.

(** Two entries of a strict trie with the same key are one. *)
Lemma entry_key_inj hole t p x q y :
  wf key_fn true hole t → entry t p x → entry t q y → key_fn x = key_fn y →
  p = q ∧ x = y.
Proof.
  intros Hwf Hx Hy Hk.
  destruct (entry_on_path _ _ _ _ Hwf Hx) as (n & Hp & _ & _ & Hqn & Hon).
  destruct (entry_on_path _ _ _ _ Hwf Hy) as (m & Hq & _ & _ & Hqm & Hom).
  rewrite <- Hk in Hom, Hqm.
  assert (p = q) as <-.
  { eapply (on_path_unique _ _ _ _ Hwf (key_fn x)); try done. lia. }
  split; [done|]. destruct Hx as (hd & Hhd & Hx), Hy as (hd' & Hhd' & Hy). congruence.
Qed.

(** [erase] at an entry returns: the iterator is what [++it] yields on the
    trie as it was, the trie is well formed and has lost that entry. *)
Theorem erase_total strict t p x :
  wf key_fn strict None t → entry t p x →
  ∃ it' t', returns (λ fuel, erase fuel (Some p) t) (Returns it', t') ∧
    returns (λ fuel, incr fuel t (Some p)) it' ∧
    wf key_fn strict None t' ∧
    ∀ p' x', entry t' p' x' ↔ entry t p' x' ∧ p' ≠ p.
Proof.
  intros Hwf Hx. pose proof Hx as (n & hd & Hp & _)%entry_node.
  destruct (incr_successor key_fn strict t Hwf p n Hp) as (it' & [f0 Hincr] & _).
  destruct (erase_spec key_fn strict (f0 `max` S (qlen n)) t p x it' Hwf Hx)
    as (t' & Hrun & Hwf' & Hent).
  { apply Hincr. lia. }
  { intros n' Hp'. simplify_eq. lia. }
  exists it', t'. split; [|split; [by exists f0|done]].
  exists (f0 `max` S (qlen n)). intros fuel Hf. by eapply erase_mono.
Qed.

(** An [erase] that returns was given the end iterator or an entry. *)
Lemma erase_Ok fuel t p r t' :
  erase fuel (Some p) t = Ok (r, t') → ∃ x, entry t p x.
Proof.
  rewrite erase_unfold. intros H.
  apply bind_Ok in H as (it' & _ & H).
  apply bind_Ok in H as (nd & Hnd & H).
  apply bind_Ok in H as (hd & Hhd & H).
  apply bind_Ok in H as (x & Hx & _).
  exists x. apply entry_node. exists nd, hd.
  unfold deref in Hnd. destruct (nodes t !! p); [|done]. cbn in Hnd. simplify_eq.
  destruct (item nd); [|done]. cbn in Hhd. simplify_eq.
  destruct (m_items t !! hd); [|done]. cbn in Hx. by simplify_eq.
Qed.

(** *** Insertion at a lower bound *)




(** At a position where the walk stopped in a node, the entry goes into that
    node. *)
Lemma insert_at_node fuel x p n its ni h nn :
  h !! p = Some n →
  insert_at key_fn fuel x (Some p, qlen n, false) (mk_trie its ni h nn) =
    Ok (Returns (Some p),
        mk_trie (<[ni := x]> its) (Pos.succ ni)
          (<[p := set_item (Some ni) (set_key (Some (key_fn x)) n)]> h) nn).
Proof.
  intros Hp. unfold insert_at. cbn [pos_match pos_node pos_qlen fst snd].
  cbn [of_option mbind res_bind]. rewrite (deref_mk _ _ _ _ _ _ Hp).
  cbn [mbind res_bind]. rewrite Nat.eqb_refl. cbn [negb mbind res_bind].
  rewrite (insert_item_exec key_fn x _ _ _ _ _ _ Hp). cbn [mbind res_bind].
  erewrite mk_iterator_item; [|apply lookup_insert_eq|done]. done.
Qed.



End Operations.

(** ** The states a trie can be in *)

Section Histories.

Context {T : Type}.
Variable key_fn : T -> list byte.
Variable KeyTracing : key_tracing.

Implicit Types (t : trie T) (p : ptr) (n : node) (x y : T).

(** What a trie is to hold: the value stored under each key. *)
Definition contents : Type := list byte → option T.

Definition put (M : contents) (k : list byte) (x : T) : contents :=
  λ k', if decide (k' = k) then Some x else M k'.

Definition remove (M : contents) (k : list byte) : contents :=
  λ k', if decide (k' = k) then None else M k'.

(** [insert(x)] stores [x] unless its key is taken. *)
Definition inserted (M : contents) (x : T) : contents :=
  match M (key_fn x) with
  | Some _ => M
  | None => put M (key_fn x) x
  end.

(** [erase(it)] removes the entry that [it] points at. *)
Definition erased (M : contents) (t : trie T) (it : iterator) : contents :=
  match it ≫= entry_at t with
  | Some x => remove M (key_fn x)
  | None => M
  end.

(** The tries built from the empty one by calls of [insert] and [erase] that
    return, each with what it is to hold. *)
Inductive history : trie T → contents → Prop :=
  | hist_empty : history empty_trie (λ _, None)
  | hist_insert t M x fuel it t' :
      history t M → insert key_fn KeyTracing fuel x t = Ok (it, t') →
      history t' (inserted M x)
  | hist_erase t M it fuel r t' :
      history t M → erase fuel it t = Ok (r, t') →
      history t' (erased M t it).



(** One step of [insert] on a well-formed trie. *)
Lemma insert_step strict fuel x t it t' :
  wf key_fn strict None t → insert key_fn KeyTracing fuel x t = Ok (it, t') →
  ∃ p, it = Some p ∧ wf key_fn strict None t' ∧
    insert key_fn KeyTracing (fuel `max` 2) x t = Ok (Some p, t') ∧
    ((t' = t ∧ ∃ n, nodes t !! p = Some n ∧ item n ≠ None ∧
        qlen n = 2 * length (key_fn x) ∧ on_path (key_fn x) p n) ∨
     ((∀ p' x', entry t' p' x' ↔ entry t p' x' ∨ (p' = p ∧ x' = x)) ∧
      ∀ y, ¬ entry t p y)).
Proof.
  intros Hwf Hrun.
  destruct (insert_spec key_fn KeyTracing strict (fuel `max` 2) x t Hwf)
    as (p & t'' & Hrun' & Hwf' & Hcases); [lia|].
  rewrite (insert_mono key_fn KeyTracing fuel (fuel `max` 2) x t _ ltac:(lia) Hrun) in Hrun'.
  injection Hrun' as -> ->. exists p. split_and!; try done.
  by apply (insert_mono key_fn KeyTracing fuel (fuel `max` 2) x t _ ltac:(lia)).
Qed.

(** One step of [erase] on a well-formed trie. *)
Lemma erase_step strict fuel it t r t' :
  wf key_fn strict None t → erase fuel it t = Ok (r, t') →
  wf key_fn strict None t' ∧
  match it with
  | None => r = Throws EndIterator ∧ t' = t
  | Some p => ∃ x it', entry t p x ∧ r = Returns it' ∧
      returns (λ fuel, erase fuel (Some p) t) (Returns it', t') ∧
      returns (λ fuel, incr fuel t (Some p)) it' ∧
      ∀ p' x', entry t' p' x' ↔ entry t p' x' ∧ p' ≠ p
  end.
Proof.
  intros Hwf Hrun. destruct it as [p|].
  - destruct (erase_Ok _ _ _ _ _ Hrun) as [x Hx].
    destruct (erase_total key_fn strict t p x Hwf Hx)
      as (it' & t'' & [f0 Hret] & Hincr & Hwf' & Hent).
    pose proof (Hret (fuel `max` f0) ltac:(lia)) as Hbig.
    rewrite (erase_mono fuel (fuel `max` f0) _ _ _ ltac:(lia) Hrun) in Hbig.
    injection Hbig as -> ->. split; [done|]. exists x, it'. split_and!; try done.
    by exists f0.
  - cbn in Hrun. injection Hrun as <- <-. done.
Qed.


(** A trie with a history is well formed in the strict sense, and holds
    what it is to hold. *)
Theorem history_wf t M :
  history t M →
  wf key_fn true None t ∧
  ∀ k x, M k = Some x ↔ ∃ p, entry t p x ∧ key_fn x = k.
Proof.
  induction 1 as [|t M x fuel it t' _ [IH HM] Hrun|t M it fuel r t' _ [IH HM] Hrun].
  - split; [apply wf_empty|]. intros k x. split; [done|].
    intros (p & (hd & _ & Hhd) & _). unfold empty_trie in Hhd. cbn in Hhd.
    by rewrite lookup_empty in Hhd.
  - destruct (insert_step _ _ _ _ _ _ IH Hrun) as (p & -> & Hwf & _ & Hcases).
    split; [done|]. intros k y. unfold inserted.
    destruct Hcases as [[-> (n & Hp & Hi & Hq & Hon)]|[Hent Hnew]].
    + (* the key was taken *)
      destruct (item n) as [hd|] eqn:Hhd; [|done].
      destruct (wf_item _ _ _ _ _ _ (wf_node IH Hp) hd Hhd) as (z & Hz & Hs).
      destruct (Hs eq_refl) as [Hk Hqz].
      assert (key_fn z = key_fn x) as Hzx.
      { destruct Hon as [_ [->|(k' & Hk' & Hag)]].
        - rewrite (root_qlen IH Hp) in Hq, Hqz.
          destruct (key_fn z), (key_fn x); cbn in *; try done; lia.
        - simplify_eq. apply agree_full; [lia|]. by rewrite <- Hqz. }
      assert (M (key_fn x) = Some z) as ->; [|by apply HM].
      apply HM. exists p. split; [|done]. apply entry_node. by exists n, hd.
    + (* the key was free *)
      destruct (M (key_fn x)) as [z|] eqn:Hz.
      { apply HM in Hz as (q & Hq & Hk).
        destruct (entry_on_path key_fn _ _ _ _ IH Hq) as (n & Hn & Hi & _ & Hqn & Hon).
        rewrite Hk in Hqn, Hon.
        pose proof (walk_present key_fn KeyTracing true None t IH (key_fn x)
                      (fuel `max` 2) false q n ltac:(lia) Hn Hon Hqn Hi) as Hw.
        pose proof (insert_mono key_fn KeyTracing fuel (fuel `max` 2) x t _
                      ltac:(lia) Hrun) as Hbig.
        unfold insert, trace in Hbig. rewrite Hw in Hbig.
        cbn [mbind res_bind pos_match pos_node fst snd] in Hbig.
        rewrite (mk_iterator_item _ _ _ n Hn Hi) in Hbig. cbn in Hbig.
        injection Hbig as <- <-. destruct (Hnew z). done. }
      unfold put. split.
      * case_decide as E.
        -- intros [= <-]. exists p. split; [|done]. apply Hent. by right.
        -- intros (q & Hq & Hk)%HM. exists q. split; [|done]. apply Hent. by left.
      * intros (q & [Hq|[-> ->]]%Hent & Hk).
        -- case_decide as E; [|apply HM; by exists q].
           subst k. assert (M (key_fn y) = Some y) as Hy by (apply HM; by exists q).
           congruence.
        -- by rewrite decide_True.
  - destruct (erase_step _ _ _ _ _ _ IH Hrun) as [Hwf Hit]. split; [done|].
    intros k y. unfold erased. destruct it as [p|]; cycle 1.
    { destruct Hit as [_ ->]. apply HM. }
    destruct Hit as (x & it' & Hx & _ & _ & _ & Hent).
    cbn [mbind option_bind]. rewrite (proj2 (entry_at_Some _ _ _) Hx).
    unfold remove. split.
    + case_decide as E; [done|]. intros (q & Hq & Hk)%HM.
      exists q. split; [|done]. apply Hent. split; [done|].
      intros ->. destruct Hx as (hd & Hhd & Hx), Hq as (hd' & Hhd' & Hq). congruence.
    + intros (q & [Hq Hne]%Hent & Hk). case_decide as E.
      * subst k. by destruct (entry_key_inj key_fn None t q y p x IH Hq Hx E).
      * apply HM. by exists q.
Qed.

End Histories.

(** ** Consequences for the stored entries *)








Section Facts.

Context {T : Type}.
Variable key_fn : T -> list byte.

Implicit Types (t : trie T) (p : ptr) (n : node) (x y : T).








(** A run that returns is what every longer run returns. *)
Lemma returns_mono {A : Type} (f : nat → res A) fuel a :
  (∀ f1 f2 r, f1 ≤ f2 → f f1 = Ok r → f f2 = Ok r) → f fuel = Ok a → returns f a.
Proof. intros Hm H. exists fuel. intros f2 Hf. by eapply Hm. Qed.

End Facts.

(** * The properties of the specification *)









(** [trace] from the head of the loop for byte [i], at the node [nod] with
    [q] half-bytes of its path lying in that byte or beyond. *)
Definition trace_from {T : Type} (KeyTracing : key_tracing) (fuel : nat)
    (miss : trace_miss_t) (k : list byte) (len : nat) (slob : bool)
    (n i : nat) (nod : ptr) (q : nat) (t : trie T) : res (position_t * trie T) :=
  e ← trace_for KeyTracing fuel t k len slob n i nod q;
  match e with
  | Hit pos => Ok (pos, t)
  | Miss nod q => miss k len nod q t
  end.

Lemma trace_trace_from {T : Type} (KeyTracing : key_tracing) fuel miss k len slob
    (t : trie T) :
  trace KeyTracing fuel miss k len slob t =
  trace_from KeyTracing fuel miss k len slob len 0 m_root 0 t.
Proof. reflexivity. Qed.

(** C9: when the walk of [trace] is at byte [i] in the node [nod] and the
    slot for the next half-byte of the key is empty, the miss handler is
    called at [nod] with [2i] matched half-bytes when the branch is on the
    high half-byte and with [2i+1] when it is on the low one, unless, the
    branch being on the low half-byte, the high half-byte of the key differs
    from that of byte [i] of the key of [nod]: then it is called at the
    parent of [nod] with [2i]. *)
Theorem trace_miss_position {T : Type} (KeyTracing : key_tracing) (fuel : nat)
    (miss : trace_miss_t) (k : list byte) (len : nat) (slob : bool) (n i : nat)
    (nod : ptr) (q : nat) (t : trie T) (prev : node) (b : byte) :
  k !! i = Some b → nodes t !! nod = Some prev → q < 2 →
  branch prev (if q =? 0 then hi b else lo b) = None →
  (q = 0 →
     trace_from KeyTracing (S fuel) miss k len slob (S n) i nod q t =
       miss k len (Some nod) (2 * i) t) ∧
  (q = 1 → ∀ kb, key_at (key prev) i = Ok kb →
     trace_from KeyTracing (S fuel) miss k len slob (S n) i nod q t =
       if bool_decide (hi kb = hi b) then miss k len (Some nod) (2 * i + 1) t
       else miss k len (parent prev) (2 * i) t).
Proof.
  intros Hb Hnod Hq Hbr. unfold trace_from. cbn [trace_for].
  rewrite Hb. cbn [of_option mbind res_bind]. cbn [trace_while].
  rewrite (proj2 (Nat.leb_gt _ _)) by lia.
  rewrite (deref_lookup _ _ _ Hnod). cbn [mbind res_bind]. rewrite Hbr.
  split.
  - intros ->. cbn. by rewrite Nat.add_0_r.
  - intros -> kb Hkb. cbn [Nat.eqb]. rewrite Hkb. cbn [mbind res_bind].
    rewrite bxor_shiftr_zero. by destruct (bool_decide (hi kb = hi b)).
Qed.

(** * Scenarios and instances *)

(** [insert] as a function on tries, for building examples. *)
Definition run_insert {T : Type} (key_fn : T → list byte) (KeyTracing : key_tracing)
    (fuel : nat) (t : trie T) (x : T) : trie T :=
  match insert key_fn KeyTracing fuel x t with
  | Ok (_, t') => t'
  | _ => t
  end.

Lemma run_insert_history {T : Type} (key_fn : T → list byte) KeyTracing fuel
    (t : trie T) M x :
  2 ≤ fuel → history key_fn KeyTracing t M →
  history key_fn KeyTracing (run_insert key_fn KeyTracing fuel t x) (inserted key_fn M x).
Proof.
  intros Hfuel Hh. destruct (history_wf _ _ _ _ Hh) as [Hwf _].
  destruct (insert_spec key_fn KeyTracing true fuel x t Hwf Hfuel) as (p & t' & Hrun & _).
  unfold run_insert. rewrite Hrun. by eapply hist_insert.
Qed.

Lemma foldl_insert_history {T : Type} (key_fn : T → list byte) KeyTracing fuel
    (xs : list T) : ∀ (t : trie T) M,
  2 ≤ fuel → history key_fn KeyTracing t M →
  history key_fn KeyTracing (foldl (run_insert key_fn KeyTracing fuel) t xs)
    (foldl (inserted key_fn) M xs).
Proof.
  induction xs as [|x xs IH]; intros t M Hfuel Hh; [done|].
  cbn [foldl]. apply IH; [done|]. by apply run_insert_history.
Qed.






(** Tries of pairs of a key and a number, as [string_trie<int>]. *)
Definition kv : Type := list byte * nat.
Definition kv_key : kv → list byte := fst.

Definition kv_trie (KeyTracing : key_tracing) (xs : list kv) : trie kv :=
  foldl (run_insert kv_key KeyTracing 10) empty_trie xs.

Definition kv_contents (xs : list kv) : contents :=
  foldl (inserted kv_key) (λ _, None) xs.

Lemma kv_history KeyTracing xs :
  history kv_key KeyTracing (kv_trie KeyTracing xs) (kv_contents xs).
Proof. apply foldl_insert_history; [lia|constructor]. Qed.

Definition key_ab : list byte := [x61; x62].
Definition key_a : list byte := [x61].

(** One stored key, ["ab"]. *)
Definition one_key : list kv := [(key_ab, 7)].

(** Two keys that part in the middle of their second byte. *)
Definition two_keys : list kv := [([x11; x22], 1); ([x11; x23], 2)].

Lemma returns_find {T : Type} KeyTracing fuel (t : trie T) k len r :
  find KeyTracing fuel t k len = Ok r →
  returns (λ fuel, find KeyTracing fuel t k len) r.
Proof.
  apply (returns_mono (λ fuel, find KeyTracing fuel t k len)).
  intros ? ? ?. apply find_mono.
Qed.

Lemma returns_trace {T : Type} KeyTracing fuel (t : trie T) k len slob r :
  trace KeyTracing fuel search_position k len slob t = Ok r →
  returns (λ fuel, trace KeyTracing fuel search_position k len slob t) r.
Proof.
  apply (returns_mono (λ fuel, trace KeyTracing fuel search_position k len slob t)).
  intros f1 f2 r' Hle. by apply trace_mono.
Qed.













Lemma trace_miss_position_witness :
  trace_from TRIE_KEY_TRACING_STRICT 10 search_position [x11; x35] 2 false 1 1
    3%positive 1 (kv_trie TRIE_KEY_TRACING_STRICT two_keys) =
  Ok ((Some m_root, 2, false), kv_trie TRIE_KEY_TRACING_STRICT two_keys).
Proof.
  assert (∃ prev, nodes (kv_trie TRIE_KEY_TRACING_STRICT two_keys) !! 3%positive = Some prev ∧
            branch prev (lo x35) = None ∧ parent prev = Some m_root ∧
            key_at (key prev) 1 = Ok x22) as (prev & Hprev & Hbr & Hpar & Hkey).
  { eexists. split; [vm_compute; reflexivity|]. by split_and!. }
  destruct (trace_miss_position TRIE_KEY_TRACING_STRICT 9 search_position [x11; x35] 2
              false 0 1 3%positive 1 (kv_trie TRIE_KEY_TRACING_STRICT two_keys)
              prev x35 eq_refl Hprev ltac:(lia) Hbr) as [_ H].
  rewrite (H eq_refl x22 Hkey), Hpar. reflexivity.
Defined.

(** C10: in slobby mode, a query that was never inserted and whose length is
    that of no stored key (["a"], a proper prefix of the stored ["ab"]) is
    answered by [find] with a non-end iterator at a stored entry, the walk
    reporting twice the length of the query as matched. *)
Theorem slobby_false_positive :
  ∃ (t : trie kv) (M : contents) (k : list byte) (p : ptr) (x : kv),
    history kv_key TRIE_KEY_TRACING_SLOBBY t M ∧
    M k = None ∧ (∀ k' y, M k' = Some y → length k' ≠ length k) ∧
    k `prefix_of` kv_key x ∧ entry t p x ∧
    returns (λ fuel, trace TRIE_KEY_TRACING_SLOBBY fuel search_position k (length k) true t)
      ((Some p, 2 * length k, true), t) ∧
    returns (λ fuel, find TRIE_KEY_TRACING_SLOBBY fuel t k (length k)) (Some p).
Proof.
  exists (kv_trie TRIE_KEY_TRACING_SLOBBY one_key), (kv_contents one_key), key_a,
    2%positive, (key_ab, 7).
  split_and!.
  - apply kv_history.
  - reflexivity.
  - intros k y. unfold kv_contents, one_key. cbn [foldl]. unfold inserted, put.
    cbn. case_decide as E; [|done]. subst k. cbn. lia.
  - by exists [x62].
  - exists 1%positive. split; vm_compute; reflexivity.
  - apply (returns_trace _ 10). vm_compute. reflexivity.
  - apply (returns_find _ 10). vm_compute. reflexivity.
Qed.

(** X1: [insert_at] at a position that is no match and whose matched length
    is the path length of its node installs the entry in that node: no leaf is
    made, and the key and the item handle of the node are overwritten.  This
    is also what happens at the position that [lower_bound] reports for a key
    that leaves the trie at an empty slot. *)
Theorem insert_at_in_place {T : Type} (key_fn : T → list byte) (t : trie T)
    (x : T) (fuel : nat) (pos : position_t) (p : ptr) (n : node) :
  pos_match pos = false → pos_node pos = Some p → nodes t !! p = Some n →
  pos_qlen pos = qlen n →
  insert_at key_fn fuel x pos t =
    Ok (Returns (Some p),
        mk_trie (<[next_item t := x]> (m_items t)) (Pos.succ (next_item t))
          (<[p := set_item (Some (next_item t)) (set_key (Some (key_fn x)) n)]> (nodes t))
          (next_node t)).
Proof.
  destruct pos as [[nod q] m]. cbn [pos_match pos_node pos_qlen fst snd].
  intros -> -> Hp ->. destruct t as [its ni h nn]. by apply insert_at_node.
Qed.

Lemma insert_at_in_place_witness :
  lower_bound TRIE_KEY_TRACING_STRICT 10 (empty_trie (T := kv)) key_a 1 =
    Ok (Some m_root, 0, false) ∧
  ∃ t', insert_at kv_key 10 (key_a, 1) (Some m_root, 0, false) empty_trie =
      Ok (Returns (Some m_root), t') ∧
    entry t' m_root (key_a, 1) ∧ ∀ p, is_Some (nodes t' !! p) → p = m_root.
Proof.
  split; [vm_compute; reflexivity|].
  eexists. split.
  - eapply (insert_at_in_place kv_key empty_trie (key_a, 1) 10 (Some m_root, 0, false) m_root).
    + reflexivity.
    + reflexivity.
    + vm_compute. reflexivity.
    + reflexivity.
  - split.
    + exists 1%positive. split; vm_compute; reflexivity.
    + intros p [n Hp]. cbn [nodes empty_trie] in Hp.
      apply lookup_insert_Some in Hp as [[<- _]|[_ Hp]]; [done|].
      by apply lookup_singleton_Some in Hp as [<- _].
Defined.

(** * Further properties of the operations *)

(** ** What a trie with a history holds, node by node *)

Section Held.

Context {T : Type}.
Variable key_fn : T → list byte.
Variable KeyTracing : key_tracing.

Implicit Types (t : trie T) (p : ptr) (n : node) (x y : T) (k : list byte).

(** A key that is held sits at the node of its own path. *)
Lemma held_node t (M : contents) k x :
  history key_fn KeyTracing t M → M k = Some x →
  ∃ p n, entry t p x ∧ nodes t !! p = Some n ∧ item n ≠ None ∧
    key n = Some k ∧ qlen n = 2 * length k ∧ on_path k p n.
Proof.
  intros Hh HMk. destruct (history_wf _ _ _ _ Hh) as [Hwf HM].
  apply HM in HMk as (p & Hx & <-).
  destruct (entry_on_path _ _ _ _ _ Hwf Hx) as (n & Hp & Hi & Hk & Hq & Hon).
  by exists p, n.
Qed.

(** A node with an entry at the end of the path of [k] holds [k]. *)
Lemma node_held t (M : contents) k p n :
  history key_fn KeyTracing t M → nodes t !! p = Some n → item n ≠ None →
  on_path k p n → qlen n = 2 * length k →
  ∃ x, M k = Some x ∧ entry t p x.
Proof.
  intros Hh Hp Hi Hon Hq. destruct (history_wf _ _ _ _ Hh) as [Hwf HM].
  destruct (item n) as [hd|] eqn:Hhd; [|done].
  destruct (wf_item _ _ _ _ _ _ (wf_node Hwf Hp) hd Hhd) as (y & Hy & Hs).
  destruct (Hs eq_refl) as [Hyk Hyq].
  assert (key_fn y = k) as Hyx.
  { destruct Hon as [_ [->|(k' & Hk' & Hag)]].
    - rewrite (root_qlen Hwf Hp) in Hq, Hyq.
      destruct (key_fn y), k; cbn in *; try done; lia.
    - simplify_eq. apply agree_full; [lia|]. by rewrite <- Hyq. }
  exists y. assert (entry t p y) by (apply entry_node; by exists n, hd).
  split; [|done]. apply HM. by exists p.
Qed.


End Held.

(** Strict [find] on a key that is not held answers the end iterator. *)
Lemma find_not_held {T : Type} (key_fn : T → list byte) (t : trie T)
    (M : contents) k fuel :
  history key_fn TRIE_KEY_TRACING_STRICT t M → M k = None → 2 ≤ fuel →
  find TRIE_KEY_TRACING_STRICT fuel t k (length k) = Ok end_.
Proof.
  intros Hh HMk Hfuel. destruct (history_wf _ _ _ _ Hh) as [Hwf _].
  destruct (find_strict key_fn TRIE_KEY_TRACING_STRICT true None t Hwf k fuel
              eq_refl Hfuel)
    as (r & -> & [->|(q & m & -> & Hq & Hmi & Hmon & Hmq)]); [done|].
  destruct (node_held _ _ _ _ _ _ _ Hh Hq Hmi Hmon Hmq) as (x & Hx & _).
  congruence.
Qed.





Section Below.

Context {T : Type}.
Variable key_fn : T → list byte.
Variable strict : bool.

Implicit Types (t : trie T) (p e : ptr) (n : node) (x y : T) (k : list byte).


End Below.

Section LowerBound.

Context {T : Type}.
Variable key_fn : T → list byte.
Variable KeyTracing : key_tracing.

Implicit Types (t : trie T) (p e : ptr) (n : node) (x y : T) (k : list byte).




End LowerBound.

Section Stable.

Context {T : Type}.
Variable key_fn : T → list byte.
Variable KeyTracing : key_tracing.

Implicit Types (t : trie T) (p q : ptr) (n : node) (x y : T) (k : list byte).



End Stable.







Section Walks.

Context {T : Type}.
Variable key_fn : T → list byte.
Variable KeyTracing : key_tracing.

Implicit Types (t : trie T) (p q : ptr) (n : node) (x y : T) (k : list byte).


End Walks.


Section Begin.

Context {T : Type}.
Variable key_fn : T → list byte.
Variable strict : bool.

Implicit Types (t : trie T) (p q : ptr) (n : node) (x y : T) (k : list byte).


End Begin.


(** X11: the three branch indices packed in [br_attrs] are independent
    four-bit fields: for indices below 16, the constructor stores the three
    it is given, and each setter ([br_1st(ix)], [br_last(ix)], [br_own(ix)],
    [br_set(first, last)]) stores its argument and leaves the other fields as
    they were. *)
Theorem br_attrs_fields (n : node) (it : option handle) (k : option (list byte))
    (q : nat) (par : option ptr) (own first last ix : nat) :
  own < 16 → first < 16 → last < 16 → ix < 16 →
  (br_own (new_node it k q par own first last) = own ∧
   br_1st (new_node it k q par own first last) = first ∧
   br_last (new_node it k q par own first last) = last) ∧
  (br_1st (set_br_1st ix n) = ix ∧
   br_last (set_br_1st ix n) = br_last n ∧ br_own (set_br_1st ix n) = br_own n) ∧
  (br_last (set_br_last ix n) = ix ∧
   br_1st (set_br_last ix n) = br_1st n ∧ br_own (set_br_last ix n) = br_own n) ∧
  (br_own (set_br_own ix n) = ix ∧
   br_1st (set_br_own ix n) = br_1st n ∧ br_last (set_br_own ix n) = br_last n) ∧
  (br_1st (br_set first last n) = first ∧ br_last (br_set first last n) = last ∧
   br_own (br_set first last n) = br_own n).
Proof.
  intros Ho Hf Hl Hix. split_and!.
  - by apply br_own_new_node.
  - by apply br_1st_new_node.
  - by apply br_last_new_node.
  - by apply br_1st_set_br_1st.
  - by apply br_last_set_br_1st.
  - by apply br_own_set_br_1st.
  - by apply br_last_set_br_last.
  - by apply br_1st_set_br_last.
  - by apply br_own_set_br_last.
  - by apply br_own_set_br_own.
  - by apply br_1st_set_br_own.
  - by apply br_last_set_br_own.
  - by apply br_1st_br_set.
  - by apply br_last_br_set.
  - by apply br_own_br_set.
Qed.

(** X12: [get_qpos(key, qpos)] reads a half-byte below 16 at every position
    inside the key, and a key is determined by its length and its
    half-bytes: two keys of the same length on which [get_qpos] agrees at
    every position are the same key. *)
Theorem get_qpos_determines_key (k1 k2 : list byte) :
  length k1 = length k2 →
  (∀ p, p < 2 * length k1 → get_qpos (Some k1) p = get_qpos (Some k2) p) →
  (∀ p, p < 2 * length k1 → ∃ v, get_qpos (Some k1) p = Ok v ∧ v < 16) ∧
  k1 = k2.
Proof.
  intros Hlen Hq. split.
  - intros p Hp. destruct (nibble_is_Some k1 p Hp) as [v Hv].
    exists v. rewrite get_qpos_nibble, Hv. split; [done|]. by eapply nibble_lt.
  - apply agree_full; [done|]. intros p Hp. specialize (Hq p Hp).
    rewrite !get_qpos_nibble in Hq.
    destruct (nibble_is_Some k1 p Hp) as [v Hv].
    destruct (nibble_is_Some k2 p ltac:(lia)) as [v' Hv'].
    rewrite Hv, Hv' in *. cbn in Hq. congruence.
Qed.






(** ** Instances *)









Lemma br_attrs_fields_witness :
  (br_own (new_node None None 0 None 3 1 2) = 3 ∧
   br_1st (new_node None None 0 None 3 1 2) = 1 ∧
   br_last (new_node None None 0 None 3 1 2) = 2) ∧
  (br_1st (set_br_1st 5 (new_node None None 0 None 3 1 2)) = 5 ∧
   br_last (set_br_1st 5 (new_node None None 0 None 3 1 2)) = br_last (new_node None None 0 None 3 1 2) ∧
   br_own (set_br_1st 5 (new_node None None 0 None 3 1 2)) = br_own (new_node None None 0 None 3 1 2)) ∧
  (br_last (set_br_last 5 (new_node None None 0 None 3 1 2)) = 5 ∧
   br_1st (set_br_last 5 (new_node None None 0 None 3 1 2)) = br_1st (new_node None None 0 None 3 1 2) ∧
   br_own (set_br_last 5 (new_node None None 0 None 3 1 2)) = br_own (new_node None None 0 None 3 1 2)) ∧
  (br_own (set_br_own 5 (new_node None None 0 None 3 1 2)) = 5 ∧
   br_1st (set_br_own 5 (new_node None None 0 None 3 1 2)) = br_1st (new_node None None 0 None 3 1 2) ∧
   br_last (set_br_own 5 (new_node None None 0 None 3 1 2)) = br_last (new_node None None 0 None 3 1 2)) ∧
  (br_1st (br_set 1 2 (new_node None None 0 None 3 1 2)) = 1 ∧
   br_last (br_set 1 2 (new_node None None 0 None 3 1 2)) = 2 ∧
   br_own (br_set 1 2 (new_node None None 0 None 3 1 2)) = br_own (new_node None None 0 None 3 1 2)).
Proof.
  apply (br_attrs_fields (new_node None None 0 None 3 1 2) None None 0 None 3 1 2 5); lia.
Defined.

Lemma get_qpos_determines_key_witness :
  (∀ p, p < 2 * length key_ab → ∃ v, get_qpos (Some key_ab) p = Ok v ∧ v < 16) ∧
  key_ab = key_ab.
Proof.
  apply (get_qpos_determines_key key_ab key_ab).
  - reflexivity.
  - intros p _. reflexivity.
Defined.






(** ** The driver of the unit test [paths], continued *)

Section PathsContents.

Context {T : Type}.
Variable key_fn : T → list byte.

(** What an input line does to what the trie is to hold. *)
Definition paths_act (M : contents) (i : action * T) : contents :=
  match i.1 with
  | Add => inserted key_fn M i.2
  | Remove =>
      match M (key_fn i.2) with
      | Some _ => remove M (key_fn i.2)
      | None => M
      end
  end.

End PathsContents.

(** X18: the loop of the unit test [paths] that builds a trie from a list of
    additions and removals (strict mode) returns without an exception, and
    the trie it leaves holds what the list says: an addition stores its item
    unless the key is taken, a removal removes the key when it is held and
    does nothing otherwise. *)
Theorem paths_build_spec {T : Type} (key_fn : T → list byte)
    (input : list (action * T)) (t : trie T) (M : contents) :
  history key_fn TRIE_KEY_TRACING_STRICT t M →
  ∃ t', returns (λ fuel, paths_build key_fn TRIE_KEY_TRACING_STRICT fuel t input)
          (Returns t') ∧
    history key_fn TRIE_KEY_TRACING_STRICT t' (foldl (paths_act key_fn) M input).
Proof.
  revert t M. induction input as [|[a x] input IH]; intros t M Hh.
  { exists t. split; [by exists 0|done]. }
  destruct (history_wf _ _ _ _ Hh) as [Hwf HM].
  cbn [foldl]. destruct a.
  - (* an addition *)
    destruct (insert_spec key_fn TRIE_KEY_TRACING_STRICT true 2 x t Hwf ltac:(lia))
      as (p & t1 & Hrun & _).
    pose proof (hist_insert key_fn _ t M x 2 _ t1 Hh Hrun) as Hh1.
    destruct (IH t1 _ Hh1) as (t' & [f0 Hrest] & Hh').
    exists t'. split; [|done]. exists (f0 `max` 2). intros fuel Hf.
    cbn [paths_build paths_step fst snd].
    rewrite (insert_mono key_fn _ 2 fuel x t _ ltac:(lia) Hrun).
    cbn [mbind res_bind]. apply Hrest. lia.
  - (* a removal *)
    unfold paths_act at 2. cbn [fst snd].
    destruct (M (key_fn x)) as [y|] eqn:Hy.
    + destruct (held_node _ _ _ _ _ _ Hh Hy) as (p & n & Hp & Hn & Hi & _ & Hq & Hon).
      destruct (erase_total key_fn true t p y Hwf Hp)
        as (it' & t1 & [f1 Herase] & _ & _ & _).
      pose proof (hist_erase key_fn _ t M (Some p) f1 _ t1 Hh (Herase f1 ltac:(lia))) as Hh1.
      unfold erased in Hh1. cbn [mbind option_bind] in Hh1.
      rewrite (proj2 (entry_at_Some _ _ _) Hp) in Hh1.
      assert (key_fn y = key_fn x) as Hk.
      { assert (∃ q, entry t q y ∧ key_fn y = key_fn x) as (? & _ & ?) by by apply HM.
        done. }
      rewrite Hk in Hh1.
      destruct (IH t1 _ Hh1) as (t' & [f0 Hrest] & Hh').
      exists t'. split; [|done]. exists ((f0 `max` f1) `max` 2). intros fuel Hf.
      cbn [paths_build paths_step fst snd]. unfold find_item.
      rewrite (find_present key_fn _ true None t Hwf (key_fn x) fuel p n) by (done || lia).
      cbn [mbind res_bind]. rewrite bool_decide_eq_false_2 by done.
      rewrite (Herase fuel) by lia. cbn [mbind res_bind]. apply Hrest. lia.
    + destruct (IH t _ Hh) as (t' & [f0 Hrest] & Hh').
      exists t'. split; [|done]. exists (f0 `max` 2). intros fuel Hf.
      cbn [paths_build paths_step fst snd]. unfold find_item.
      rewrite (find_not_held _ _ _ _ _ Hh Hy) by lia.
      cbn [mbind res_bind]. rewrite bool_decide_eq_true_2 by done.
      apply Hrest. lia.
Qed.

Lemma paths_build_spec_witness :
  ∃ t', returns (λ fuel, paths_build kv_key TRIE_KEY_TRACING_STRICT fuel
                   (kv_trie TRIE_KEY_TRACING_STRICT one_key)
                   [(Add, (key_a, 1)); (Remove, (key_ab, 0)); (Remove, (key_ab, 0))])
          (Returns t') ∧
    history kv_key TRIE_KEY_TRACING_STRICT t'
      (foldl (paths_act kv_key) (kv_contents one_key)
         [(Add, (key_a, 1)); (Remove, (key_ab, 0)); (Remove, (key_ab, 0))]).
Proof.
  apply (paths_build_spec kv_key
           [(Add, (key_a, 1)); (Remove, (key_ab, 0)); (Remove, (key_ab, 0))]
           (kv_trie TRIE_KEY_TRACING_STRICT one_key) (kv_contents one_key)).
  apply kv_history.
Defined.

(** ** Tuple serialisation *)

(** The strings [ss], each followed by [sep] but the last, which is followed
    by [fin]. *)
Fixpoint separated (sep fin : list byte) (ss : list (list byte)) : list byte :=
  match ss with
  | [] => []
  | [s] => s ++ fin
  | s :: ss => s ++ sep ++ separated sep fin ss
  end.

Lemma separated_snoc (sep fin' : list byte) ss s :
  separated sep fin' (ss ++ [s]) = separated sep sep ss ++ s ++ fin'.
Proof.
  induction ss as [|a ss IH]; [done|].
  destruct ss as [|b ss]; [cbn; by rewrite <- !app_assoc|].
  change (separated sep fin' ((a :: b :: ss) ++ [s]))
    with (a ++ sep ++ separated sep fin' ((b :: ss) ++ [s])).
  rewrite IH. change (separated sep sep (a :: b :: ss))
    with (a ++ sep ++ separated sep sep (b :: ss)).
  by rewrite <- !app_assoc.
Qed.

Lemma tuple_serialiser_take (tuple : list component) out : ∀ I sep,
  I ≤ length tuple →
  tuple_serialiser I out tuple sep =
  Ok (out ++ [x28] ++
      separated [x2c; x20] sep
        (map (λ c, comp_write c (comp_value c)) (take I tuple))).
Proof.
  induction I as [|I IH]; intros sep HI.
  - cbn. done.
  - cbn [tuple_serialiser]. rewrite IH by lia. cbn [mbind res_bind].
    unfold write_get. replace (S I - 1) with I by lia.
    destruct (lookup_lt_is_Some_2 tuple I ltac:(lia)) as [c Hc].
    rewrite Hc. cbn [of_option mbind res_bind].
    rewrite (take_S_r _ _ _ Hc), map_app. cbn [map].
    rewrite separated_snoc. by rewrite <- !app_assoc.
Qed.

(** X19: [operator <<] for a tuple writes an opening parenthesis, the
    components in their order separated by a comma and a space, and a
    closing parenthesis after the last; for the empty tuple it writes the
    opening parenthesis alone. *)
Theorem write_tuple_spec (out : list byte) (tuple : list component) :
  write_tuple out tuple =
  Ok (out ++ [x28] ++
      separated [x2c; x20] [x29] (map (λ c, comp_write c (comp_value c)) tuple)) ∧
  write_tuple out [] = Ok (out ++ [x28]).
Proof.
  split; [|done]. unfold write_tuple.
  rewrite tuple_serialiser_take by done. by rewrite firstn_all.
Qed.

(** ** Serialisation of the paths *)

(** *** What the path of a node looks like *)














Section PathLines.

Context {T : Type}.
Variable write_item : T → list byte.
Variable key_fn : T → list byte.
Variable strict : bool.
Variable t : trie T.
Hypothesis Hwf : wf key_fn strict None t.

Implicit Types (p c e : ptr) (n : node).











End PathLines.






(** ** The tracing mode *)

(** Without the flag [slob] the walk of [trace] is the same in both modes. *)
Lemma trace_while_mode {T : Type} (KeyTracing : key_tracing) (t : trie T) len i b fuel :
  ∀ nod q fb,
  trace_while KeyTracing fuel t len false i b nod q fb =
  trace_while TRIE_KEY_TRACING_STRICT fuel t len false i b nod q fb.
Proof.
  induction fuel as [|fuel IH]; intros nod q fb; [done|].
  cbn [trace_while]. rewrite !andb_false_r. cbn [andb].
  destruct (2 <=? q); [done|].
  destruct (deref t nod) as [prev| |]; [|done|done]. cbn [mbind res_bind].
  destruct (branch prev _) as [c|]; [|done].
  destruct (deref t c) as [cn| |]; [|done|done]. cbn [mbind res_bind].
  destruct (qlen cn <? 2 * i); [done|]. apply IH.
Qed.

Lemma trace_for_mode {T : Type} (KeyTracing : key_tracing) (t : trie T) k len fuel n :
  ∀ i nod q,
  trace_for KeyTracing fuel t k len false n i nod q =
  trace_for TRIE_KEY_TRACING_STRICT fuel t k len false n i nod q.
Proof.
  induction n as [|n IH]; intros i nod q; [done|].
  cbn [trace_for]. destruct (k !! i) as [b|]; [|done].
  cbn [of_option mbind res_bind]. rewrite trace_while_mode.
  destruct (trace_while _ _ _ _ _ _ _ _ _ _) as [[e|nod' q' fb]| |]; try done.
  cbn [mbind res_bind].
  destruct (deref t nod') as [nd| |]; [|done|done]. cbn [mbind res_bind].
  destruct (key_at (key nd) i) as [kb| |]; [|done|done]. cbn [mbind res_bind].
  destruct (negb _); [done|]. apply IH.
Qed.

(** X22: the tracing mode has no effect on [insert(item)] and on
    [lower_bound(key, len)]: on every trie, for every item and key, they do
    in slobby mode what they do in strict mode (of the public operations
    only [find] traces with the flag [slob] set). *)
Theorem mode_affects_find_only {T : Type} (key_fn : T → list byte)
    (KeyTracing : key_tracing) (t : trie T) (x : T) (k : list byte) (len fuel : nat) :
  insert key_fn KeyTracing fuel x t = insert key_fn TRIE_KEY_TRACING_STRICT fuel x t ∧
  lower_bound KeyTracing fuel t k len = lower_bound TRIE_KEY_TRACING_STRICT fuel t k len.
Proof.
  unfold insert, lower_bound, trace, trace_walk.
  by rewrite !(trace_for_mode KeyTracing).
Qed.

(** ** The order of the walk, byte by byte *)






(** ** The number of nodes *)


Section Count.

Context {T : Type}.
Variable key_fn : T → list byte.
Variable strict : bool.
Variable t : trie T.
Hypothesis Hwf : wf key_fn strict None t.

#[local] Existing Instance occupied_dec.

Implicit Types (p c e : ptr) (n : node).




End Count.



(** ** The bytes of the key that are read *)

(** The walk of [trace] reads the bytes of the key that its loop reaches. *)
Lemma trace_for_reads {T : Type} (KeyTracing : key_tracing) (t : trie T)
    (k k' : list byte) len slob fuel n : ∀ i nod q,
  (∀ j, i ≤ j < i + n → k !! j = k' !! j) →
  trace_for KeyTracing fuel t k len slob n i nod q =
  trace_for KeyTracing fuel t k' len slob n i nod q.
Proof.
  induction n as [|n IH]; intros i nod q Hk; [done|].
  cbn [trace_for]. rewrite <- (Hk i) by lia.
  destruct (k !! i) as [b|]; [|done]. cbn [of_option mbind res_bind].
  destruct (trace_while _ _ _ _ _ _ _ _ _ _) as [[e|nod' q' fb]| |]; try done.
  cbn [mbind res_bind].
  destruct (deref t nod') as [nd| |]; [|done|done]. cbn [mbind res_bind].
  destruct (key_at (key nd) i) as [kb| |]; [|done|done]. cbn [mbind res_bind].
  destruct (negb _); [done|]. apply IH. intros j Hj. apply Hk. lia.
Qed.

(** X25: [find(key, len)] and [lower_bound(key, len)] read the first [len]
    bytes of the key only: on two keys that agree on their first [len] bytes
    they return the same, on every trie and in both tracing modes. *)
Theorem search_reads_len_bytes {T : Type} (KeyTracing : key_tracing) (t : trie T)
    (k k' : list byte) (len fuel : nat) :
  take len k = take len k' →
  find KeyTracing fuel t k len = find KeyTracing fuel t k' len ∧
  lower_bound KeyTracing fuel t k len = lower_bound KeyTracing fuel t k' len.
Proof.
  intros Hk.
  assert (∀ slob, trace_walk KeyTracing fuel t k len slob =
                  trace_walk KeyTracing fuel t k' len slob) as Hw.
  { intros slob. apply trace_for_reads. intros j Hj.
    rewrite <- (lookup_take_lt k len j), <- (lookup_take_lt k' len j) by lia.
    by rewrite Hk. }
  unfold find, lower_bound, trace. by rewrite !Hw.
Qed.

Lemma search_reads_len_bytes_witness :
  find TRIE_KEY_TRACING_STRICT 10 (kv_trie TRIE_KEY_TRACING_STRICT one_key)
    [x61; x62; x63] 2 =
  find TRIE_KEY_TRACING_STRICT 10 (kv_trie TRIE_KEY_TRACING_STRICT one_key)
    key_ab 2 ∧
  lower_bound TRIE_KEY_TRACING_STRICT 10 (kv_trie TRIE_KEY_TRACING_STRICT one_key)
    [x61; x62; x63] 2 =
  lower_bound TRIE_KEY_TRACING_STRICT 10 (kv_trie TRIE_KEY_TRACING_STRICT one_key)
    key_ab 2.
Proof.
  apply (search_reads_len_bytes TRIE_KEY_TRACING_STRICT
           (kv_trie TRIE_KEY_TRACING_STRICT one_key) [x61; x62; x63] key_ab 2 10).
  reflexivity.
Defined.
